(** * go-proj: the Dropbox synchronisation core

    A shallow embedding of the reconciliation engine of go-proj:
    [ContentHash] and the methods of [*Dropbox] (dropbox.go), the
    [StorageService] interface (service.go) and
    [ProjectRepository.Upload] / [ProjectRepository.Pull] (repo.go),
    together with the properties of it that the design document states.
    After them come more of the repository, [modEnviron], [Id], [List],
    [Backup] and [Restore] of repo.go with [Restic] of backup.go and
    the earlier [WalkDiffs] written for the client of
    github.com/tj/go-dropbox, and further properties that the code
    itself shows.

    Conventions.
    - Go [error] values are an inductive type with the sentinels the code
      compares against; a Go function returning [(T, error)] returns
      [result T], a function returning [error] returns [option error]
      ([None] is [nil]).
    - What the code calls outside the repository (path functions, file
      system, clock, Dropbox client) is a record [Sys W] of operations
      on a world [W]; every function of the program threads the world:
      [W -> W * option error].  A callback is such a function too.
    - A Go [map] is a [gmap]; the order of [range] over a map is
      unspecified in Go and is a parameter here ([RangeOrder]).
    - Runs are observed through a log of events kept next to the world
      ([logged], [traced], [observed]); forgetting the log gives back
      the plain run ([diff_observed], [push_observed], [pull_observed]).
    - [sim] is a small simulated world on which runs are evaluated.
    - A call that panics returns [Panics] ([outcome]); only the earlier
      [WalkDiffs] has one.

    The definitions come first, then the properties. *)

From Stdlib Require Import ZArith NArith Lia Ascii String List.
From Stdlib.Strings Require Import Byte.
From stdpp Require Import base option list gmap strings fin_maps.

Open Scope Z_scope.

(** ** crypto/sha256

    SHA-256 (FIPS 180-4) on byte strings.  Words are 32-bit values kept
    in [N], reduced with [w32] after every addition. *)

Module SHA256.

Local Open Scope N_scope.

Definition w32 (x : N) : N := N.land x 0xFFFFFFFF.
Definition add32 (x y : N) : N := w32 (x + y).
Definition rotr (n x : N) : N :=
  N.lor (N.shiftr x n) (w32 (N.shiftl x (32 - n))).
Definition not32 (x : N) : N := N.lxor x 0xFFFFFFFF.

Definition Ch (x y z : N) : N := N.lxor (N.land x y) (N.land (not32 x) z).
Definition Maj (x y z : N) : N :=
  N.lxor (N.lxor (N.land x y) (N.land x z)) (N.land y z).
Definition bsig0 (x : N) : N := N.lxor (N.lxor (rotr 2 x) (rotr 13 x)) (rotr 22 x).
Definition bsig1 (x : N) : N := N.lxor (N.lxor (rotr 6 x) (rotr 11 x)) (rotr 25 x).
Definition ssig0 (x : N) : N := N.lxor (N.lxor (rotr 7 x) (rotr 18 x)) (N.shiftr x 3).
Definition ssig1 (x : N) : N := N.lxor (N.lxor (rotr 17 x) (rotr 19 x)) (N.shiftr x 10).

(** The first [n] primes, by trial division. *)
Definition is_prime (n : N) : bool :=
  forallb (fun d => negb (n mod N.of_nat d =? 0)) (seq 2 (N.to_nat n - 2)).

Definition primes (n : nat) : list N :=
  firstn n (filter (fun p => is_prime p = true) (map N.of_nat (seq 2 310))).

(** The integer cube root, bit by bit from the top. *)
Fixpoint root3 (bits : nat) (x r : N) : N :=
  match bits with
  | O => r
  | S b =>
      let c := r + N.shiftl 1 (N.of_nat b) in
      root3 b x (if c * c * c <=? x then c else r)
  end.

(** The round constants: the first 32 bits of the fractional parts of
    the cube roots of the first 64 primes. *)
Definition K : list N :=
  Eval vm_compute in map (fun p => w32 (root3 36 (N.shiftl p 96) 0)) (primes 64).

(** The initial hash value: the first 32 bits of the fractional parts of
    the square roots of the first 8 primes. *)
Definition H0 : list N :=
  Eval vm_compute in map (fun p => w32 (N.sqrt (N.shiftl p 64))) (primes 8).

(** Big-endian encoding of [x] on [n] bytes. *)
Fixpoint be_bytes (n : nat) (x : N) : list N :=
  match n with
  | O => []
  | S n' => N.land (N.shiftr x (8 * N.of_nat n')) 0xFF :: be_bytes n' x
  end.

(** The padded message: the bytes, [0x80], zeros up to 56 mod 64, then
    the bit length on 8 bytes. *)
Definition pad (msg : list N) : list N :=
  let len := N.of_nat (length msg) in
  let zeros := (55 + 64 - len mod 64) mod 64 in
  msg ++ 0x80 :: repeat 0 (N.to_nat zeros) ++ be_bytes 8 (8 * len).

Fixpoint to_words (bs : list N) : list N :=
  match bs with
  | a :: b :: c :: d :: rest =>
      (N.shiftl a 24 + N.shiftl b 16 + N.shiftl c 8 + d) :: to_words rest
  | _ => []
  end.

(** The message schedule, built in reverse: the head of [rw] is W[t-1]. *)
Fixpoint schedule (n : nat) (rw : list N) : list N :=
  match n with
  | O => rw
  | S n' =>
      let w := add32 (add32 (ssig1 (nth 1 rw 0)) (nth 6 rw 0))
                     (add32 (ssig0 (nth 14 rw 0)) (nth 15 rw 0)) in
      schedule n' (w :: rw)
  end.

Record regs := Regs { ra : N; rb : N; rc : N; rd : N; re : N; rf : N; rg : N; rh : N }.

Definition round (s : regs) (kw : N * N) : regs :=
  let '(k, w) := kw in
  let t1 := add32 (add32 (add32 (rh s) (bsig1 (re s))) (add32 (Ch (re s) (rf s) (rg s)) k)) w in
  let t2 := add32 (bsig0 (ra s)) (Maj (ra s) (rb s) (rc s)) in
  Regs (add32 t1 t2) (ra s) (rb s) (rc s) (add32 (rd s) t1) (re s) (rf s) (rg s).

Definition compress (h : regs) (block : list N) : regs :=
  let w := rev (schedule 48 (rev block)) in
  let s := fold_left round (combine K w) h in
  Regs (add32 (ra h) (ra s)) (add32 (rb h) (rb s)) (add32 (rc h) (rc s))
       (add32 (rd h) (rd s)) (add32 (re h) (re s)) (add32 (rf h) (rf s))
       (add32 (rg h) (rg s)) (add32 (rh h) (rh s)).

Fixpoint blocks (n : nat) (h : regs) (ws : list N) : regs :=
  match n with
  | O => h
  | S n' => blocks n' (compress h (firstn 16 ws)) (skipn 16 ws)
  end.

Definition init : regs :=
  Regs (nth 0 H0 0) (nth 1 H0 0) (nth 2 H0 0) (nth 3 H0 0)
       (nth 4 H0 0) (nth 5 H0 0) (nth 6 H0 0) (nth 7 H0 0).

Definition digest_words (msg : list N) : list N :=
  let ws := to_words (pad msg) in
  let h := blocks (Nat.div (length ws) 16) init ws in
  [ra h; rb h; rc h; rd h; re h; rf h; rg h; rh h].

Definition byte_of_N (n : N) : byte :=
  match Byte.of_N n with Some b => b | None => x00 end.

(** sha256.Sum256 *)
Definition Sum256 (msg : list byte) : list byte :=
  map byte_of_N (flat_map (be_bytes 4) (digest_words (map Byte.to_N msg))).

End SHA256.

Arguments SHA256.Sum256 : simpl never.

(** ** fmt.Sprintf("%x", b): lower-case hexadecimal *)

Definition hex_digit (n : N) : ascii :=
  match n with
  | 0 => "0" | 1 => "1" | 2 => "2" | 3 => "3" | 4 => "4" | 5 => "5"
  | 6 => "6" | 7 => "7" | 8 => "8" | 9 => "9" | 10 => "a" | 11 => "b"
  | 12 => "c" | 13 => "d" | 14 => "e" | _ => "f"
  end%N%char.

Fixpoint hex (bs : list byte) : string :=
  match bs with
  | [] => EmptyString
  | b :: rest =>
      String (hex_digit (N.shiftr (Byte.to_N b) 4))
        (String (hex_digit (N.land (Byte.to_N b) 15)) (hex rest))
  end.

Arguments hex : simpl never.

Definition bytes_of_string (s : string) : list byte :=
  map byte_of_ascii (list_ascii_of_string s).

(** ** Errors and results *)

(** Go [error] values.  [EOF] is [io.EOF]; [ErrNotExist] stands for the
    errors [os.IsNotExist] accepts; [ErrNoSuchProject] is the sentinel of
    repo.go; [WithMessage] is [errors.WithMessage] of github.com/pkg/errors;
    every other error is [Err] with its message. *)
Inductive error : Type :=
  | EOF
  | ErrNotExist
  | ErrNoSuchProject
  | Err (msg : string)
  | WithMessage (cause : error) (msg : string).

(** [err.Error()] *)
Fixpoint Error (e : error) : string :=
  match e with
  | EOF => "EOF"
  | ErrNotExist => "file does not exist"
  | ErrNoSuchProject => "No such project"
  | Err msg => msg
  | WithMessage cause msg => msg ++ ": " ++ Error cause
  end%string.

#[global] Instance error_eq_dec : EqDecision error.
Proof. solve_decision. Defined.

Inductive result (A : Type) : Type :=
  | Ok (a : A)
  | Fail (e : error).
Arguments Ok {A} a.
Arguments Fail {A} e.

(** [err != nil && err != io.EOF] *)
Definition fatal_read_error (err : option error) : option error :=
  match err with
  | None => None
  | Some e => if decide (e = EOF) then None else Some e
  end.

Definition is_nil (err : option error) : bool :=
  match err with None => true | Some _ => false end.

(** ** io.Reader

    A reader is the script of what it still has to deliver: a list of
    chunks, each with the error it is returned with.  [Read] with a buffer
    of [buflen] bytes returns the next chunk when it fits; of a larger one
    it returns the first [buflen] bytes with a nil error and keeps the
    rest.  An exhausted reader returns [0, io.EOF]. *)

Definition Reader : Type := list (list byte * option error).

Fixpoint split_at {A} (n : Z) (l : list A) : list A * list A :=
  match l with
  | [] => ([], [])
  | x :: l' =>
      if n <=? 0 then ([], l)
      else let '(a, b) := split_at (n - 1) l' in (x :: a, b)
  end.

Definition len {A} (l : list A) : Z := Z.of_nat (length l).

Definition Read (r : Reader) (buflen : Z) : (list byte * option error) * Reader :=
  match r with
  | [] => (([], Some EOF), [])
  | (d, e) :: rest =>
      if len d <=? buflen then ((d, e), rest)
      else let '(a, b) := split_at buflen d in ((a, None), (b, e) :: rest)
  end.

(** The bytes a reader delivers before its first error other than EOF. *)
Definition content (r : Reader) : list byte := flat_map fst r.

(** ** Dropbox.ContentHash (dropbox.go) *)

Definition hashBlockSize : Z := 4 * 1024 * 1024.

(** The body shared by the first read and the loop: [resultHash] is the
    list of bytes written to the running hash so far. *)
Definition hash_block (data : list byte) (resultHash : list byte) : list byte :=
  if 0 <? len data then (resultHash ++ SHA256.Sum256 data)%list else resultHash.

(** [for n == hashBlockSize && err == nil { ... }]; [None] when [fuel]
    iterations were not enough. *)
Fixpoint ContentHash_loop (fuel : nat) (r : Reader) (n : Z) (err : option error)
    (resultHash : list byte) : option (result string) :=
  if (n =? hashBlockSize) && is_nil err then
    match fuel with
    | O => None
    | S fuel' =>
        let '((data, err'), r') := Read r hashBlockSize in
        match fatal_read_error err' with
        | Some e => Some (Fail e)
        | None => ContentHash_loop fuel' r' (len data) err' (hash_block data resultHash)
        end
    end
  else Some (Ok (hex (SHA256.Sum256 resultHash))).

(** A bound on the number of reads a reader can answer with a full
    buffer and a nil error. *)
Definition reader_fuel (r : Reader) : nat :=
  (length r + Z.to_nat (len (content r) / hashBlockSize))%nat.

Definition ContentHash (r : Reader) : result string :=
  let '((data, err), r') := Read r hashBlockSize in
  match fatal_read_error err with
  | Some e => Fail e
  | None =>
      match ContentHash_loop (reader_fuel r) r' (len data) err (hash_block data []) with
      | Some res => res
      | None => Fail (Err "unreachable: the reader outlived its bound")
      end
  end.

(** ** service.go: DiffResult and the callback types *)

Inductive DiffResult : Type :=
  | DiffResultMatch
  | DiffResultMismatch
  | DiffResultOnlyExistsRemote
  | DiffResultOnlyExistsLocal.

#[global] Instance DiffResult_eq_dec : EqDecision DiffResult.
Proof. solve_decision. Defined.

(** The part of [os.FileInfo] the code reads: [IsDir()] and [Size()]
    (an [int64]). *)
Record FileInfo : Type := mkFileInfo { IsDir : bool; FileSize : Z }.

(** [WalkDiffsCallback]: [func(string, DiffResult) error], acting on the
    state [St] of its caller. *)
Definition WalkDiffsCallback (St : Type) : Type :=
  string -> DiffResult -> St -> St * option error.

(** [SkipCallback]: [func(string, os.FileInfo) bool]. *)
Definition SkipCallback : Type := string -> FileInfo -> bool.

(** ** The Dropbox SDK types the code reads *)

Record FileMetadata : Type := mkFileMetadata
  { PathDisplay : string; Size : Z; ContentHash_ : string }.

(** [files.IsMetadata]: a file, or one of the other entries of a listing
    (folders, deleted entries). *)
Inductive IsMetadata : Type :=
  | FileEntry (v : FileMetadata)
  | FolderEntry (path : string)
  | DeletedEntry (path : string).

Record ListFolderArg : Type := mkListFolderArg
  { Path : string; IncludeMediaInfo : bool; Recursive : bool; IncludeDeleted : bool }.

Record CommitInfo : Type := mkCommitInfo
  { ci_Path : string; ci_Mode : string; ci_ClientModified : Z }.

(** files.NewCommitInfo *)
Definition NewCommitInfo (path : string) : CommitInfo :=
  mkCommitInfo path "add" 0.

(** [files.UploadSessionCursor]: session id and offset. *)
Record UploadSessionCursor : Type := mkCursor { SessionId : string; Offset : Z }.

(** ** The local tree as filepath.Walk presents it

    One entry per call of the walk function, in the order of the walk:
    the path, its [FileInfo] and the error [Walk] passes. *)
Record WalkEntry : Type := mkWalkEntry
  { we_file : string;
    we_info : FileInfo;
    we_walkErr : option error }.

(** An open [*os.File]: how it answers [Read], and what [Stat] gives. *)
Record File : Type := mkFile { f_reader : Reader; f_Stat : result FileInfo }.

(** [uint64(x)] of an [int64] *)
Definition uint64 (x : Z) : Z := x mod 2 ^ 64.

(** [range] over a Go map visits every key once, in an order the
    language leaves open. *)
Record RangeOrder : Type := mkRangeOrder
  { range_keys :> gmap string FileMetadata -> list string;
    range_keys_perm : forall m, range_keys m ≡ₚ (map_to_list m).*1 }.

Definition default_order : RangeOrder :=
  {| range_keys := fun m => (map_to_list m).*1;
     range_keys_perm := fun m => reflexivity _ |}.

(** ** The collaborators

    Everything the synchronisation code calls outside this repository:
    the path functions, the file system, the clock and the Dropbox
    client, over a world [W] that the calls read and change.
    [filepath_Walk root w] is the sequence of visits [filepath.Walk]
    makes from [root]; the callbacks of this program change no file
    other than the one being visited, so the sequence is the one of the
    world in which the walk starts. *)
Record Sys (W : Type) : Type := mkSys
  { filepath_Rel : string -> string -> result string;
    path_Join : string -> string -> string;
    path_Dir : string -> string;
    filepath_Walk : string -> W -> list WalkEntry;
    os_Open : string -> W -> W * result File;
    os_Stat : string -> W -> W * result FileInfo;
    os_MkdirAll : string -> Z -> W -> W * option error;
    os_Create : string -> W -> W * option error;
    os_RemoveAll : string -> W -> W * option error;
    io_Copy : string -> list byte -> W -> W * option error;
    time_Now : W -> Z;
    client_ListFolder : ListFolderArg -> W -> W * result (list IsMetadata);
    client_CreateFolderV2 : string -> W -> W * option error;
    client_DeleteV2 : string -> W -> W * option error;
    client_Upload : CommitInfo -> list byte -> W -> W * option error;
    client_UploadSessionStart : list byte -> W -> W * result string;
    client_UploadSessionAppendV2 : UploadSessionCursor -> list byte -> W -> W * option error;
    client_UploadSessionFinish : UploadSessionCursor -> CommitInfo -> list byte -> W -> W * option error;
    client_Download : string -> W -> W * result (list byte) }.

Arguments filepath_Rel {W} _ _ _.
Arguments path_Join {W} _ _ _.
Arguments path_Dir {W} _ _.
Arguments filepath_Walk {W} _ _ _.
Arguments os_Open {W} _ _ _.
Arguments os_Stat {W} _ _ _.
Arguments os_MkdirAll {W} _ _ _ _.
Arguments os_Create {W} _ _ _.
Arguments os_RemoveAll {W} _ _ _.
Arguments io_Copy {W} _ _ _ _.
Arguments time_Now {W} _ _.
Arguments client_ListFolder {W} _ _ _.
Arguments client_CreateFolderV2 {W} _ _ _.
Arguments client_DeleteV2 {W} _ _ _.
Arguments client_Upload {W} _ _ _ _.
Arguments client_UploadSessionStart {W} _ _ _.
Arguments client_UploadSessionAppendV2 {W} _ _ _ _.
Arguments client_UploadSessionFinish {W} _ _ _ _ _.
Arguments client_Download {W} _ _ _.

(** The permission bits [0775]. *)
Definition perm_0775 : Z := 7 * 64 + 7 * 8 + 5.

(** ** dropbox.go *)

Section Dropbox.

Context {W : Type}.
Variable sys : Sys W.
Variable range_order : RangeOrder.

(** Dropbox.HashLocal *)
Definition HashLocal (file : string) (w : W) : W * result string :=
  match os_Open sys file w with
  | (w', Fail err) => (w', Fail err)
  | (w', Ok f) => (w', ContentHash (f_reader f))
  end.

(** The first loop of [WalkDiffs]: the listing as a map from relative
    path to metadata; entries that are not files are skipped. *)
Fixpoint remote_files (remote : string) (entList : list IsMetadata)
    (remoteFiles : gmap string FileMetadata) : result (gmap string FileMetadata) :=
  match entList with
  | [] => Ok remoteFiles
  | FileEntry v :: rest =>
      match filepath_Rel sys remote (PathDisplay v) with
      | Fail err => Fail (WithMessage err "failed to make remote filepath relative")
      | Ok strippedFile => remote_files remote rest (<[strippedFile := v]> remoteFiles)
      end
  | _ :: rest => remote_files remote rest remoteFiles
  end.

Definition skipped (skip : option SkipCallback) (strippedFile : string) (info : FileInfo) : bool :=
  match skip with
  | None => false
  | Some f => f strippedFile info
  end.

(** The function [WalkDiffs] passes to [filepath.Walk].  In the branch
    that hashes, [hash, err := db.HashLocal(file)] declares a second
    [err]; what the callback returns there is assigned to that inner
    variable, and the test [if err != nil] after the branch reads the
    outer one, which is nil. *)
Definition walkFn (local : string) (skip : option SkipCallback)
    (cb : WalkDiffsCallback W) (e : WalkEntry)
    (remoteFiles : gmap string FileMetadata) (w : W)
    : gmap string FileMetadata * W * option error :=
  match we_walkErr e with
  | Some walkErr => (remoteFiles, w, Some walkErr)
  | None =>
    if IsDir (we_info e) then (remoteFiles, w, None)
    else
      match filepath_Rel sys local (we_file e) with
      | Fail err =>
          (remoteFiles, w, Some (WithMessage err "failed to make local filepath relative"))
      | Ok strippedFile =>
        if skipped skip strippedFile (we_info e) then (remoteFiles, w, None)
        else
          match remoteFiles !! strippedFile with
          | None =>
              let '(w', err) := cb strippedFile DiffResultOnlyExistsLocal w in
              (remoteFiles, w', err)
          | Some metadata =>
              if negb (Size metadata =? uint64 (FileSize (we_info e))) then
                let '(w', err) := cb strippedFile DiffResultMismatch w in
                match err with
                | Some _ => (remoteFiles, w', err)
                | None => (delete strippedFile remoteFiles, w', None)
                end
              else
                match HashLocal (we_file e) w with
                | (w1, Fail err) => (remoteFiles, w1, Some err)
                | (w1, Ok hash) =>
                    if negb (String.eqb (ContentHash_ metadata) hash) then
                      let '(w', _) := cb strippedFile DiffResultMismatch w1 in
                      (delete strippedFile remoteFiles, w', None)
                    else (delete strippedFile remoteFiles, w1, None)
                end
          end
      end
  end.

(** [filepath.Walk]: the walk function is called on every entry in turn
    and the first error it returns ends the walk and is returned.  The
    sentinel [filepath.SkipDir] is not among the errors of this model:
    the walk function of [WalkDiffs] returns it only if the callback
    does, and no callback of this repository does. *)
Fixpoint Walk (local : string) (skip : option SkipCallback)
    (cb : WalkDiffsCallback W) (entries : list WalkEntry)
    (remoteFiles : gmap string FileMetadata) (w : W)
    : gmap string FileMetadata * W * option error :=
  match entries with
  | [] => (remoteFiles, w, None)
  | e :: rest =>
      match walkFn local skip cb e remoteFiles w with
      | (remoteFiles', w', None) => Walk local skip cb rest remoteFiles' w'
      | stop => stop
      end
  end.

(** [for remotePath := range remoteFiles { ... }] *)
Fixpoint only_remote (cb : WalkDiffsCallback W) (paths : list string) (w : W)
    : W * option error :=
  match paths with
  | [] => (w, None)
  | remotePath :: rest =>
      match cb remotePath DiffResultOnlyExistsRemote w with
      | (w', None) => only_remote cb rest w'
      | stop => stop
      end
  end.

(** The listing with which [WalkDiffs] starts. *)
Definition list_remote (remote : string) (w : W) : W * result (list IsMetadata) :=
  match client_ListFolder sys (mkListFolderArg remote false true false) w with
  | (w1, Fail err) =>
      if String.prefix "path/not_found/" (Error err) then
        match client_CreateFolderV2 sys remote w1 with
        | (w2, Some err') => (w2, Fail err')
        | (w2, None) => (w2, Ok [])
        end
      else (w1, Fail err)
  | (w1, Ok entries) => (w1, Ok entries)
  end.

(** Dropbox.WalkDiffs *)
Definition WalkDiffs (local remote : string) (skip : option SkipCallback)
    (cb : WalkDiffsCallback W) (w : W) : W * option error :=
  match list_remote remote w with
  | (w1, Fail err) => (w1, Some err)
  | (w1, Ok entList) =>
      match remote_files remote entList ∅ with
      | Fail err => (w1, Some err)
      | Ok remoteFiles =>
          match Walk local skip cb (filepath_Walk sys local w1) remoteFiles w1 with
          | (_, w2, Some err) => (w2, Some err)
          | (remoteFiles', w2, None) =>
              only_remote cb (range_order remoteFiles') w2
          end
      end
  end.

(** Dropbox.Delete *)
Definition Dropbox_Delete (f : string) (w : W) : W * option error :=
  client_DeleteV2 sys f w.

Definition chunkSize : Z := 2 ^ 24.

(** The loop of [Upload] that appends the middle chunks of a session:
    [f] is what is left to read of the file. *)
Fixpoint upload_append (fuel : nat) (sid : string) (size written : Z)
    (f : list byte) (w : W) : W * result (Z * list byte) :=
  if chunkSize <? size - written then
    match fuel with
    | O => (w, Ok (written, f))
    | S fuel' =>
        let '(chunk, f') := split_at chunkSize f in
        match client_UploadSessionAppendV2 sys (mkCursor sid (uint64 written)) chunk w with
        | (w', Some err) => (w', Fail err)
        | (w', None) => upload_append fuel' sid size (written + chunkSize) f' w'
        end
    end
  else (w, Ok (written, f)).

(** Dropbox.Upload *)
Definition Dropbox_Upload (local remote : string) (w : W) : W * option error :=
  match os_Open sys local w with
  | (w0, Fail err) => (w0, Some err)
  | (w0, Ok file) =>
      match f_Stat file with
      | Fail err => (w0, Some err)
      | Ok info =>
          let size := FileSize info in
          let f := content (f_reader file) in
          let commitInfo :=
            mkCommitInfo (ci_Path (NewCommitInfo remote)) "overwrite" (time_Now sys w0) in
          if chunkSize <? size then
            let '(chunk, f1) := split_at chunkSize f in
            match client_UploadSessionStart sys chunk w0 with
            | (w1, Fail err) => (w1, Some err)
            | (w1, Ok sid) =>
                match upload_append (Z.to_nat (size / chunkSize)) sid size chunkSize f1 w1 with
                | (w2, Fail err) => (w2, Some err)
                | (w2, Ok (written, f2)) =>
                    client_UploadSessionFinish sys (mkCursor sid (uint64 written)) commitInfo f2 w2
                end
            end
          else client_Upload sys commitInfo f w0
      end
  end.

(** Dropbox.Download *)
Definition Dropbox_Download (local remote : string) (w : W) : W * option error :=
  match client_Download sys remote w with
  | (w1, Fail err) => (w1, Some err)
  | (w1, Ok body) =>
      match os_MkdirAll sys (path_Dir sys local) perm_0775 w1 with
      | (w2, Some err) => (w2, Some err)
      | (w2, None) =>
          match os_Create sys local w2 with
          | (w3, Some err) => (w3, Some err)
          | (w3, None) => io_Copy sys local body w3
          end
      end
  end.

End Dropbox.

(** ** service.go: the StorageService interface *)

Record StorageService (W : Type) : Type := mkStorageService
  { s_WalkDiffs : string -> string -> WalkDiffsCallback W -> W -> W * option error;
    s_Upload : string -> string -> W -> W * option error;
    s_Download : string -> string -> W -> W * option error;
    s_Delete : string -> W -> W * option error }.
Arguments s_WalkDiffs {W} _ _ _ _ _.
Arguments s_Upload {W} _ _ _ _.
Arguments s_Download {W} _ _ _ _.
Arguments s_Delete {W} _ _ _.

(** [*Dropbox] as a [StorageService].  The callers in repo.go use the
    three-argument [WalkDiffs]: no skip callback. *)
Definition DropboxService {W} (sys : Sys W) (range_order : RangeOrder) : StorageService W :=
  {| s_WalkDiffs := fun local remote cb => WalkDiffs sys range_order local remote None cb;
     s_Upload := Dropbox_Upload sys;
     s_Download := Dropbox_Download sys;
     s_Delete := Dropbox_Delete sys |}.

(** ** repo.go *)

Record ProjectRepository : Type := mkProjectRepository
  { baseFolder : string; interactive : bool }.

Definition projectFolderPerm : Z := perm_0775.

Section Repo.

Context {W : Type}.
Variable sys : Sys W.

(** ProjectRepository.Path *)
Definition RepoPath (fr : ProjectRepository) (name : string) : string :=
  path_Join sys (baseFolder fr) name.

(** The callback [Upload] passes to [WalkDiffs]. *)
Definition Upload_callback (s : StorageService W) (folder remoteFolder : string)
    : WalkDiffsCallback W :=
  fun file diff w =>
    match diff with
    | DiffResultMatch => (w, None)
    | DiffResultMismatch | DiffResultOnlyExistsLocal =>
        let localFile := path_Join sys folder file in
        let remoteFile := path_Join sys remoteFolder file in
        s_Upload s localFile remoteFile w
    | DiffResultOnlyExistsRemote =>
        s_Delete s (path_Join sys remoteFolder file) w
    end.

(** ProjectRepository.Upload *)
Definition Upload (fr : ProjectRepository) (name : string) (s : StorageService W)
    (w : W) : W * option error :=
  let folder := RepoPath fr name in
  let remoteFolder := ("/" ++ name)%string in
  match os_Stat sys folder w with
  | (w0, Fail err) =>
      if decide (err = ErrNotExist) then (w0, Some ErrNoSuchProject) else (w0, Some err)
  | (w0, Ok _) => s_WalkDiffs s folder remoteFolder (Upload_callback s folder remoteFolder) w0
  end.

(** The callback [Pull] passes to [WalkDiffs]. *)
Definition Pull_callback (s : StorageService W) (folder remoteFolder : string)
    : WalkDiffsCallback W :=
  fun file diff w =>
    match diff with
    | DiffResultMatch => (w, None)
    | DiffResultMismatch | DiffResultOnlyExistsRemote =>
        let localFile := path_Join sys folder file in
        let remoteFile := path_Join sys remoteFolder file in
        s_Download s localFile remoteFile w
    | DiffResultOnlyExistsLocal =>
        os_RemoveAll sys (path_Join sys folder file) w
    end.

(** ProjectRepository.Pull *)
Definition Pull (fr : ProjectRepository) (name : string) (s : StorageService W)
    (w : W) : W * option error :=
  let folder := RepoPath fr name in
  let remoteFolder := ("/" ++ name)%string in
  let '(w1, _) := os_MkdirAll sys folder projectFolderPerm w in
  s_WalkDiffs s folder remoteFolder (Pull_callback s folder remoteFolder) w1.

End Repo.

(** ** Observing a run

    The calls a run makes are observed in a log kept next to the world.
    [logged sys] is [sys] with every call recorded, with its result;
    [traced cb] records the classification a callback is called with,
    then runs it; [observed s] is the service [s] recording the calls of
    its methods. *)

Inductive Action : Type :=
  | ActUpload (local remote : string)
  | ActDownload (local remote : string)
  | ActDelete (remote : string)
  | ActRemoveLocal (path : string).

Inductive Event : Type :=
  | EvCallback (file : string) (diff : DiffResult)
  | EvService (a : Action)
  | EvOpen (name : string) (err : option error)
  | EvStat (name : string) (err : option error)
  | EvMkdirAll (path : string) (perm : Z) (err : option error)
  | EvCreate (path : string) (err : option error)
  | EvRemoveAll (path : string) (err : option error)
  | EvCopy (path : string) (body : list byte) (err : option error)
  | EvListFolder (arg : ListFolderArg) (err : option error)
  | EvCreateFolderV2 (path : string) (err : option error)
  | EvDeleteV2 (path : string) (err : option error)
  | EvUpload (commit : CommitInfo) (body : list byte) (err : option error)
  | EvUploadSessionStart (body : list byte) (err : option error)
  | EvUploadSessionAppendV2 (cursor : UploadSessionCursor) (body : list byte)
      (err : option error)
  | EvUploadSessionFinish (cursor : UploadSessionCursor) (commit : CommitInfo)
      (body : list byte) (err : option error)
  | EvDownload (path : string) (err : option error).

Definition error_of {A} (r : result A) : option error :=
  match r with Ok _ => None | Fail e => Some e end.

Definition Logged (W : Type) : Type := list Event * W.

Definition log_err {W} (ev : option error -> Event)
    (op : W -> W * option error) : Logged W -> Logged W * option error :=
  fun lw => let '(w', err) := op lw.2 in ((lw.1 ++ [ev err])%list, w', err).

Definition log_res {W A} (ev : option error -> Event)
    (op : W -> W * result A) : Logged W -> Logged W * result A :=
  fun lw => let '(w', r) := op lw.2 in ((lw.1 ++ [ev (error_of r)])%list, w', r).

Definition logged {W} (sys : Sys W) : Sys (Logged W) :=
  {| filepath_Rel := filepath_Rel sys;
     path_Join := path_Join sys;
     path_Dir := path_Dir sys;
     filepath_Walk := fun root lw => filepath_Walk sys root lw.2;
     os_Open := fun name => log_res (EvOpen name) (os_Open sys name);
     os_Stat := fun name => log_res (EvStat name) (os_Stat sys name);
     os_MkdirAll := fun path perm => log_err (EvMkdirAll path perm) (os_MkdirAll sys path perm);
     os_Create := fun path => log_err (EvCreate path) (os_Create sys path);
     os_RemoveAll := fun path => log_err (EvRemoveAll path) (os_RemoveAll sys path);
     io_Copy := fun path body => log_err (EvCopy path body) (io_Copy sys path body);
     time_Now := fun lw => time_Now sys lw.2;
     client_ListFolder := fun arg => log_res (EvListFolder arg) (client_ListFolder sys arg);
     client_CreateFolderV2 := fun path =>
       log_err (EvCreateFolderV2 path) (client_CreateFolderV2 sys path);
     client_DeleteV2 := fun path => log_err (EvDeleteV2 path) (client_DeleteV2 sys path);
     client_Upload := fun commit body =>
       log_err (EvUpload commit body) (client_Upload sys commit body);
     client_UploadSessionStart := fun body =>
       log_res (EvUploadSessionStart body) (client_UploadSessionStart sys body);
     client_UploadSessionAppendV2 := fun cursor body =>
       log_err (EvUploadSessionAppendV2 cursor body)
               (client_UploadSessionAppendV2 sys cursor body);
     client_UploadSessionFinish := fun cursor commit body =>
       log_err (EvUploadSessionFinish cursor commit body)
               (client_UploadSessionFinish sys cursor commit body);
     client_Download := fun path => log_res (EvDownload path) (client_Download sys path) |}.

Definition record {W} (ev : Event) (lw : Logged W) : Logged W :=
  ((lw.1 ++ [ev])%list, lw.2).

(** A callback of the plain world, run in the logged one. *)
Definition lift_cb {W} (cb : WalkDiffsCallback W) : WalkDiffsCallback (Logged W) :=
  fun file diff lw => let '(w', err) := cb file diff lw.2 in ((lw.1, w'), err).

Definition traced {W} (cb : WalkDiffsCallback (Logged W)) : WalkDiffsCallback (Logged W) :=
  fun file diff lw => cb file diff (record (EvCallback file diff) lw).

Definition observed {W} (s : StorageService (Logged W)) : StorageService (Logged W) :=
  {| s_WalkDiffs := fun local remote cb => s_WalkDiffs s local remote (traced cb);
     s_Upload := fun local remote lw =>
       s_Upload s local remote (record (EvService (ActUpload local remote)) lw);
     s_Download := fun local remote lw =>
       s_Download s local remote (record (EvService (ActDownload local remote)) lw);
     s_Delete := fun remote lw =>
       s_Delete s remote (record (EvService (ActDelete remote)) lw) |}.

(** The classifications in a log, in order. *)
Definition emission (ev : Event) : option (string * DiffResult) :=
  match ev with EvCallback f d => Some (f, d) | _ => None end.

Definition emissions (log : list Event) : list (string * DiffResult) :=
  omap emission log.

(** ** A simulated world

    A concrete [Sys] on which runs can be evaluated: a local file system
    and a Dropbox account, both as maps from clean slash-separated paths
    to contents, with a number of pending backend faults. *)

(** The path functions on clean slash-separated paths, where they agree
    with [path.Join], [filepath.Rel] and [path.Dir]. *)
Definition slash_Join (a b : string) : string :=
  if String.eqb b "" then a else (a ++ "/" ++ b)%string.

Definition slash_Rel (base target : string) : result string :=
  if String.eqb base target then Ok "."%string
  else if String.prefix (base ++ "/") target then
    Ok (substring (String.length base + 1)
                  (String.length target - (String.length base + 1)) target)
  else Fail (Err ("Rel: can't make " ++ target ++ " relative to " ++ base)).

Fixpoint before_last_slash (s : string) : option string :=
  match s with
  | EmptyString => None
  | String c s' =>
      match before_last_slash s' with
      | Some d => Some (String c d)
      | None => if Ascii.eqb c "/" then Some EmptyString else None
      end
  end.

Definition slash_Dir (p : string) : string :=
  match before_last_slash p with
  | None => "."
  | Some EmptyString => "/"
  | Some d => d
  end%string.

(** Modelled from the spec: the content hash the backend declares for a
    file (the backend is not part of this repository).  The stream is
    cut into blocks of 4 MiB, each block is hashed with SHA-256, and the
    concatenated digests are hashed again and hex-encoded. *)
Fixpoint chop (fuel : nat) (n : Z) (l : list byte) : list (list byte) :=
  match fuel with
  | O => []
  | S fuel' =>
      match l with
      | [] => []
      | _ => let '(a, b) := split_at n l in a :: chop fuel' n b
      end
  end.

Definition blocks_of (l : list byte) : list (list byte) :=
  chop (length l) hashBlockSize l.

Definition declared_hash (l : list byte) : string :=
  hex (SHA256.Sum256 (flat_map SHA256.Sum256 (blocks_of l))).

Record World : Type := mkWorld
  { w_local : gmap string (list byte);
    w_dirs : list string;
    w_remote : gmap string (list byte);
    w_folders : list string;
    w_session : list byte;
    w_faults : nat }.

Definition set_local (f : gmap string (list byte) -> gmap string (list byte)) (w : World) :=
  mkWorld (f (w_local w)) (w_dirs w) (w_remote w) (w_folders w) (w_session w) (w_faults w).
Definition set_dirs (f : list string -> list string) (w : World) :=
  mkWorld (w_local w) (f (w_dirs w)) (w_remote w) (w_folders w) (w_session w) (w_faults w).
Definition set_remote (f : gmap string (list byte) -> gmap string (list byte)) (w : World) :=
  mkWorld (w_local w) (w_dirs w) (f (w_remote w)) (w_folders w) (w_session w) (w_faults w).
Definition set_folders (f : list string -> list string) (w : World) :=
  mkWorld (w_local w) (w_dirs w) (w_remote w) (f (w_folders w)) (w_session w) (w_faults w).
Definition set_session (s : list byte) (w : World) :=
  mkWorld (w_local w) (w_dirs w) (w_remote w) (w_folders w) s (w_faults w).
Definition set_faults (n : nat) (w : World) :=
  mkWorld (w_local w) (w_dirs w) (w_remote w) (w_folders w) (w_session w) n.

(** The files under a directory, in the lexical order of their paths. *)
Fixpoint insert_by_path (x : string * list byte) (l : list (string * list byte))
    : list (string * list byte) :=
  match l with
  | [] => [x]
  | y :: l' => if String.leb x.1 y.1 then x :: l else y :: insert_by_path x l'
  end.

Definition under (root : string) (files : gmap string (list byte)) : list (string * list byte) :=
  foldr insert_by_path []
    (filter (fun pc => String.prefix (root ++ "/") pc.1 = true) (map_to_list files)).

Definition mem_string (x : string) (l : list string) : bool :=
  existsb (String.eqb x) l.

(** A write request to the backend: rejected while faults are pending. *)
Definition request {A} (w : World) (fail : error -> A) (ok : World -> World * A) : World * A :=
  match w_faults w with
  | O => ok w
  | S n => (set_faults n w, fail (Err "connection reset by peer"))
  end.

Definition sim_Walk (root : string) (w : World) : list WalkEntry :=
  match under root (w_local w), mem_string root (w_dirs w) with
  | [], false => [mkWalkEntry root (mkFileInfo false 0) (Some ErrNotExist)]
  | files, _ =>
      mkWalkEntry root (mkFileInfo true 4096) None
      :: map (fun pc => mkWalkEntry pc.1 (mkFileInfo false (len pc.2)) None) files
  end.

Definition sim_Stat (name : string) (w : World) : World * result FileInfo :=
  match w_local w !! name with
  | Some c => (w, Ok (mkFileInfo false (len c)))
  | None =>
      match under name (w_local w), mem_string name (w_dirs w) with
      | [], false => (w, Fail ErrNotExist)
      | _, _ => (w, Ok (mkFileInfo true 4096))
      end
  end.

Definition sim_Open (name : string) (w : World) : World * result File :=
  match w_local w !! name with
  | Some c => (w, Ok (mkFile [(c, None)] (Ok (mkFileInfo false (len c)))))
  | None => (w, Fail ErrNotExist)
  end.

Definition sim_ListFolder (arg : ListFolderArg) (w : World) : World * result (list IsMetadata) :=
  match under (Path arg) (w_remote w), mem_string (Path arg) (w_folders w) with
  | [], false => (w, Fail (Err "path/not_found/."))
  | files, _ =>
      (w, Ok (FolderEntry (Path arg)
              :: map (fun pc => FileEntry (mkFileMetadata pc.1 (len pc.2) (declared_hash pc.2)))
                     files))
  end.

Definition sim_commit (commit : CommitInfo) (body : list byte) (w : World) : World * option error :=
  match w_remote w !! ci_Path commit with
  | Some _ =>
      if String.eqb (ci_Mode commit) "overwrite"
      then (set_remote (insert (ci_Path commit) body) w, None)
      else (w, Some (Err "path/conflict/file/"))
  | None => (set_remote (insert (ci_Path commit) body) w, None)
  end.

Definition sim : Sys World :=
  {| filepath_Rel := slash_Rel;
     path_Join := slash_Join;
     path_Dir := slash_Dir;
     filepath_Walk := sim_Walk;
     os_Open := sim_Open;
     os_Stat := sim_Stat;
     os_MkdirAll := fun path _ w => (set_dirs (cons path) w, None);
     os_Create := fun path w => (set_local (insert path []) w, None);
     os_RemoveAll := fun path w => (set_local (delete path) w, None);
     io_Copy := fun path body w => (set_local (insert path body) w, None);
     time_Now := fun _ => 0;
     client_ListFolder := sim_ListFolder;
     client_CreateFolderV2 := fun path w =>
       request w Some (fun w => (set_folders (cons path) w, None));
     client_DeleteV2 := fun path w =>
       request w Some (fun w =>
         match w_remote w !! path with
         | Some _ => (set_remote (delete path) w, None)
         | None => (w, Some (Err "path_lookup/not_found/."))
         end);
     client_Upload := fun commit body w => request w Some (sim_commit commit body);
     client_UploadSessionStart := fun body w =>
       request w Fail (fun w => (set_session body w, Ok "session"%string));
     client_UploadSessionAppendV2 := fun cursor body w =>
       request w Some (fun w =>
         if Offset cursor =? len (w_session w)
         then (set_session (w_session w ++ body) w, None)
         else (w, Some (Err "incorrect_offset/.")));
     client_UploadSessionFinish := fun cursor commit body w =>
       request w Some (fun w =>
         if Offset cursor =? len (w_session w)
         then sim_commit commit (w_session w ++ body) (set_session [] w)
         else (w, Some (Err "lookup_failed/incorrect_offset/.")));
     client_Download := fun path w =>
       match w_remote w !! path with
       | Some c => (w, Ok c)
       | None => (w, Fail (Err "path/not_found/."))
       end |}.

Definition files_of (l : list (string * string)) : gmap string (list byte) :=
  list_to_map (map (fun pc => (pc.1, bytes_of_string pc.2)) l).

Definition world (local remote : list (string * string)) (faults : nat) : World :=
  mkWorld (files_of local) [] (files_of remote) [] [] faults.

Definition repo0 : ProjectRepository := mkProjectRepository "/home/u/projects" false.

Definition never_fails {W} : WalkDiffsCallback W := fun _ _ w => (w, None).

(** ** The vocabulary of the properties *)

(** [appends P lw lw']: the log of [lw'] is the log of [lw] followed by
    events that all satisfy [P]. *)
Definition appends {W} (P : Event -> Prop) (lw lw' : Logged W) : Prop :=
  exists evs, lw'.1 = (lw.1 ++ evs)%list /\ Forall P evs.

(** What the methods of [*Dropbox] send, by kind. *)
Definition upload_event (local remote : string) (ev : Event) : Prop :=
  match ev with
  | EvOpen name _ => name = local
  | EvUpload commit _ _ | EvUploadSessionFinish _ commit _ _ =>
      ci_Path commit = remote /\ ci_Mode commit = "overwrite"%string
  | EvUploadSessionStart _ _ | EvUploadSessionAppendV2 _ _ _ => True
  | _ => False
  end.

Definition download_event (local remote : string) (ev : Event) : Prop :=
  match ev with
  | EvDownload path _ => path = remote
  | EvMkdirAll _ _ _ => True
  | EvCreate path _ | EvCopy path _ _ => path = local
  | _ => False
  end.

Definition delete_event (remote : string) (ev : Event) : Prop :=
  match ev with
  | EvDeleteV2 path _ => path = remote
  | _ => False
  end.

(** [grows_by Q I]: the property [I] of logs is kept when an event with
    [Q] is appended. *)
Definition grows_by (Q : Event -> Prop) (I : list Event -> Prop) : Prop :=
  forall log ev, Q ev -> I log -> I (log ++ [ev])%list.

(** The events of [WalkDiffs] itself. *)
Definition walk_event (ev : Event) : Prop :=
  match ev with
  | EvListFolder _ _ | EvCreateFolderV2 _ _ | EvOpen _ _ => True
  | _ => False
  end.

(** No callback with [DiffResultMatch]. *)
Definition no_Match (ev : Event) : Prop :=
  match ev with
  | EvCallback _ DiffResultMatch => False
  | _ => True
  end.

(** The events of the callbacks of a push and of a pull. *)
Definition service_event (ev : Event) : Prop :=
  match ev with
  | EvCallback _ _ | EvListFolder _ _ | EvCreateFolderV2 _ _ => False
  | _ => True
  end.

(** The runs the properties are about: a push and a pull with the
    Dropbox service, every call observed. *)
Definition push_log {W} (sys : Sys W) ro fr name (w : W) : list Event :=
  (Upload (logged sys) fr name (observed (DropboxService (logged sys) ro)) ([], w)).1.1.

Definition pull_log {W} (sys : Sys W) ro fr name (w : W) : list Event :=
  (Pull (logged sys) fr name (observed (DropboxService (logged sys) ro)) ([], w)).1.1.

Definition diff_log {W} (sys : Sys W) ro local remote skip
    (cb : WalkDiffsCallback W) (w : W) : list Event :=
  (WalkDiffs (logged sys) ro local remote skip (traced (lift_cb cb)) ([], w)).1.1.

(** The log seen from the caller: the classifications and, between them,
    the operations asked of the service or of the local file system. *)
Definition TopEvent : Type := (string * DiffResult) + Action.

Definition top (ev : Event) : option TopEvent :=
  match ev with
  | EvCallback f d => Some (inl (f, d))
  | EvService a => Some (inr a)
  | EvRemoveAll p _ => Some (inr (ActRemoveLocal p))
  | _ => None
  end.

(** The one operation of a push for a classification. *)
Definition push_action {W} (sys : Sys W) (folder remoteFolder : string)
    (em : string * DiffResult) : option Action :=
  match em.2 with
  | DiffResultMatch => None
  | DiffResultMismatch | DiffResultOnlyExistsLocal =>
      Some (ActUpload (path_Join sys folder em.1) (path_Join sys remoteFolder em.1))
  | DiffResultOnlyExistsRemote => Some (ActDelete (path_Join sys remoteFolder em.1))
  end.

(** The one operation of a pull for a classification. *)
Definition pull_action {W} (sys : Sys W) (folder remoteFolder : string)
    (em : string * DiffResult) : option Action :=
  match em.2 with
  | DiffResultMatch => None
  | DiffResultMismatch | DiffResultOnlyExistsRemote =>
      Some (ActDownload (path_Join sys folder em.1) (path_Join sys remoteFolder em.1))
  | DiffResultOnlyExistsLocal => Some (ActRemoveLocal (path_Join sys folder em.1))
  end.

(** A classification followed by its operation, if it has one. *)
Definition script (action : string * DiffResult -> option Action)
    (em : string * DiffResult) : list TopEvent :=
  inl em :: match action em with Some a => [inr a] | None => [] end.

(** [follows action log]: seen from the caller, the log is the sequence
    of its classifications, each followed at once by its operation. *)
Definition follows (action : string * DiffResult -> option Action)
    (log : list Event) : Prop :=
  omap top log = flat_map (script action) (emissions log).

(** Every commit has the mode [overwrite]. *)
Definition commit_overwrites (ev : Event) : Prop :=
  match ev with
  | EvUpload commit _ _ | EvUploadSessionFinish _ commit _ _ =>
      ci_Mode commit = "overwrite"%string
  | _ => True
  end.


Definition push_inv action (log : list Event) : Prop :=
  follows action log /\ Forall commit_overwrites log.

(** A local and a remote [x] of the same size and different contents. *)
Definition w_x12 : World := world [("/l/x", "x1")] [("/r/x", "x2")] 0.
Definition e_x : WalkEntry := mkWalkEntry "/l/x" (mkFileInfo false 2) None.
Definition md_x2 : FileMetadata :=
  mkFileMetadata "/r/x" 2 (declared_hash (bytes_of_string "x2")).

(** The relative path under which an entry of the walk is compared, if
    it is: entries with an error, directories, entries whose path cannot
    be made relative and skipped files are not. *)
Definition local_path {W} (sys : Sys W) (local : string) (skip : option SkipCallback)
    (e : WalkEntry) : option string :=
  match we_walkErr e with
  | Some _ => None
  | None =>
      if IsDir (we_info e) then None
      else match filepath_Rel sys local (we_file e) with
           | Fail _ => None
           | Ok p => if skipped skip p (we_info e) then None else Some p
           end
  end.

Definition local_paths {W} (sys : Sys W) (local : string) (skip : option SkipCallback)
    (entries : list WalkEntry) : list string :=
  omap (local_path sys local skip) entries.

(** What one step of the walk may emit and do to the remaining remote
    files, by the relative path of the entry. *)
Definition step_ok (lp : option string) (rf : gmap string FileMetadata)
    (tr : list (string * DiffResult)) (rf' : gmap string FileMetadata)
    (err : option error) : Prop :=
  match lp with
  | None => tr = [] /\ rf' = rf
  | Some p =>
      match rf !! p with
      | None => tr = [(p, DiffResultOnlyExistsLocal)] /\ rf' = rf
      | Some _ =>
          (tr = [(p, DiffResultMismatch)] \/ tr = [])
          /\ (rf' = delete p rf \/ (rf' = rf /\ err <> None))
      end
  end.

(** What a whole walk emits, against the relative paths of its entries
    and the remote files it started with. *)
Record walk_ok (L : list string) (rf : gmap string FileMetadata)
    (tr : list (string * DiffResult)) (rf' : gmap string FileMetadata)
    (err : option error) : Prop := mk_walk_ok
  { wk_sublist : sublist (tr.*1) L;
    wk_class : forall p d, (p, d) ∈ tr ->
      d = DiffResultOnlyExistsLocal \/ (d = DiffResultMismatch /\ is_Some (rf !! p));
    wk_local : NoDup L -> forall p, (p, DiffResultOnlyExistsLocal) ∈ tr -> rf !! p = None;
    wk_subseteq : rf' ⊆ rf;
    wk_remaining : err = None ->
      forall q, rf' !! q = if decide (q ∈ L) then None else rf !! q;
    wk_only_local : err = None ->
      forall p, p ∈ L -> rf !! p = None -> (p, DiffResultOnlyExistsLocal) ∈ tr;
    wk_empty : rf = ∅ -> err = None ->
      tr = map (fun p => (p, DiffResultOnlyExistsLocal)) L }.

(** The remote inventory with which a diff starts, and the relative
    paths of the local files it compares. *)
Definition remote_inventory {W} (sys : Sys W) (remote : string) (w : W)
    : gmap string FileMetadata :=
  match (list_remote sys remote w).2 with
  | Ok entList =>
      match remote_files sys remote entList ∅ with
      | Ok remoteFiles => remoteFiles
      | Fail _ => ∅
      end
  | Fail _ => ∅
  end.

Definition local_inventory {W} (sys : Sys W) (local remote : string)
    (skip : option SkipCallback) (w : W) : list string :=
  local_paths sys local skip (filepath_Walk sys local (list_remote sys remote w).1).

(** The classifications of one path. *)
Definition of_path (p : string) (tr : list (string * DiffResult)) : list (string * DiffResult) :=
  filter (fun em => em.1 = p) tr.

(** What the observed diff returns. *)
Definition diff_err {W} (sys : Sys W) ro local remote skip
    (cb : WalkDiffsCallback W) (w : W) : option error :=
  (WalkDiffs (logged sys) ro local remote skip (traced (lift_cb cb)) ([], w)).2.

(** Two readers of the same two bytes: in one read, and in two. *)
Definition whole_reader : Reader := [(bytes_of_string "12", None)].
Definition split_reader : Reader :=
  [(bytes_of_string "1", None); (bytes_of_string "2", None)].

(** A callback that fails when called with a Mismatch. *)
Definition fails_on_mismatch : WalkDiffsCallback World :=
  fun _ d w =>
    (w, match d with
        | DiffResultMismatch => Some (Err "upload failed")
        | _ => None
        end).

(** The worlds of the runs evaluated below. *)
Definition w_mismatch : World :=
  world [("/l/a", "a1"); ("/l/b", "bb")] [("/r/a", "a2"); ("/r/c", "cc")] 0.

Definition w_push_fault : World :=
  world [("/home/u/projects/demo/x", "x1")] [("/demo/x", "x2")] 1.

Definition w_skip : World := world [("/l/a", "aa")] [("/r/a", "aa")] 0.
Definition skip_a : SkipCallback := fun p _ => String.eqb p "a".

Definition w_absent (faults : nat) : World := world [("/l/a", "aa")] [] faults.

Definition w_scenario : World :=
  world [("/l/a.txt", "aa"); ("/l/b.txt", "bb"); ("/l/x", "x1"); ("/l/y", "yyy")]
        [("/r/b.txt", "bb"); ("/r/c.txt", "cc"); ("/r/x", "x2"); ("/r/y", "y")] 0.

(** A result of the logged world without its log. *)
Definition forget {W A} (x : Logged W * A) : W * A := (x.1.2, x.2).

Definition forget3 {W A B} (x : A * Logged W * B) : A * W * B := (x.1.1, x.1.2.2, x.2).

(** service/dropbox.go (package service): the earlier [Download]. *)
Definition Download_service {W} (sys : Sys W) (remote local : string) (w : W)
    : W * option error :=
  match client_Download sys remote w with
  | (w1, Fail err) => (w1, Some err)
  | (w1, Ok body) =>
      match os_Create sys local w1 with
      | (w2, Some err) => (w2, Some err)
      | (w2, None) => io_Copy sys local body w2
      end
  end.

Definition no_MkdirAll (ev : Event) : Prop :=
  match ev with
  | EvMkdirAll _ _ _ => False
  | _ => True
  end.

Definition w_push : World :=
  world [("/home/u/projects/demo/a.txt", "H1"); ("/home/u/projects/demo/b.txt", "H2")]
        [("/demo/b.txt", "H2"); ("/demo/c.txt", "H3")] 0.

Definition demo : string := "/home/u/projects/demo".

(** * More of the repository *)

(** ** repo.go: modEnviron

    [range] over a [map[string]string]: the [i]-th [range] statement the
    function runs visits the entries in the order [env_range i]. *)
Record EnvRange : Type := mkEnvRange
  { env_range :> nat -> gmap string string -> list (string * string);
    env_range_perm : forall i m, env_range i m ≡ₚ map_to_list m }.

(** The slice [env] after [env = env[:0]]: it shares the array of
    [env2], of which [append] overwrites the elements, until the
    capacity is exceeded and [append] moves it to an array of its own. *)
Inductive EnvSlice : Type :=
  | Shared (n : nat)
  | Moved (l : list string).

(** [env = append(env, x)], on the array of [env2]. *)
Definition append_env (array : list string) (env : EnvSlice) (x : string)
    : list string * EnvSlice :=
  match env with
  | Shared n =>
      if (n <? length array)%nat then (<[n := x]> array, Shared (S n))
      else (array, Moved (take n array ++ [x]))
  | Moved l => (array, Moved (l ++ [x]))
  end.

Definition env_contents (array : list string) (env : EnvSlice) : list string :=
  match env with
  | Shared n => take n array
  | Moved l => l
  end.

(** [len(newVar) < len(v) && strings.HasPrefix(newVar, v) && v[len(newVar)] == '='] *)
Definition replaces (newVar v : string) : bool :=
  (String.length newVar <? String.length v)%nat
  && String.prefix v newVar
  && match String.get (String.length newVar) v with
     | Some c => Ascii.eqb c "="
     | None => false
     end.

Definition assignment (kv : string * string) : string := (kv.1 ++ "=" ++ kv.2)%string.

(** One turn of [for _, v := range env2]. *)
Definition modEnviron_step (order : EnvRange)
    (st : list string * EnvSlice * gmap string string) (i : nat)
    : list string * EnvSlice * gmap string string :=
  let '(array, env, newVars) := st in
  let v := default EmptyString (array !! i) in
  let '(array1, env1, newVars1) :=
    match List.find (fun kv => replaces kv.1 v) (order i newVars) with
    | Some kv =>
        let '(a, e) := append_env array env (assignment kv) in
        (a, e, delete kv.1 newVars)
    | None => (array, env, newVars)
    end in
  let '(array2, env2) := append_env array1 env1 v in
  (array2, env2, newVars1).

(** [modEnviron], on the environment [environ] that [os.Environ()]
    returns in a slice with room for [spare] more strings. *)
Definition modEnviron (order : EnvRange) (environ : list string) (spare : nat)
    (newVars : gmap string string) : list string :=
  let '(array, env, newVars1) :=
    foldl (modEnviron_step order)
          ((environ ++ replicate spare EmptyString)%list, Shared 0, newVars)
          (seq 0 (length environ)) in
  let '(array', env') :=
    foldl (fun st kv => append_env st.1 st.2 (assignment kv)) (array, env)
          (order (length environ) newVars1) in
  env_contents array' env'.

(** ** repo.go: Id *)

(** ProjectRepository.Id *)
Definition Id (name : string) : string :=
  hex (SHA256.Sum256 (bytes_of_string ("Project##" ++ name))).

(** ** repo.go: List *)

(** The part of [os.FileInfo] that [List] reads of an entry of the
    directory. *)
Record DirEntry : Type := mkDirEntry { de_Name : string; de_IsDir : bool }.

Section RepoList.

Context {W : Type}.
Variable sys : Sys W.
Variable ioutil_ReadDir : string -> W -> result (list DirEntry).

(** Package regexp. *)
Variable Regexp : Type.
Variable regexp_Compile : string -> result Regexp.
Variable MatchString : Regexp -> string -> bool.

Fixpoint compile_filters (filters : list string) (compiledFilters : list Regexp)
    : result (list Regexp) :=
  match filters with
  | [] => Ok compiledFilters
  | filter :: rest =>
      match regexp_Compile filter with
      | Fail err => Fail err
      | Ok re => compile_filters rest (compiledFilters ++ [re])
      end
  end.

(** [for _, re := range compiledFilters { if !re.MatchString(itemName)
    { canWrite = true; break } }] *)
Fixpoint canWrite_loop (compiledFilters : list Regexp) (itemName : string)
    (canWrite : bool) : bool :=
  match compiledFilters with
  | [] => canWrite
  | re :: rest =>
      if negb (MatchString re itemName) then true
      else canWrite_loop rest itemName canWrite
  end.

Fixpoint list_matches (compiledFilters : list Regexp) (finfo : list DirEntry)
    (matches : list string) : list string :=
  match finfo with
  | [] => matches
  | f :: rest =>
      if negb (de_IsDir f) then list_matches compiledFilters rest matches
      else
        let itemName := de_Name f in
        if canWrite_loop compiledFilters itemName true
        then list_matches compiledFilters rest (matches ++ [itemName])
        else list_matches compiledFilters rest matches
  end.

(** ProjectRepository.List *)
Definition RepoList (fr : ProjectRepository) (filters : list string) (w : W)
    : result (list string) :=
  let folder := RepoPath sys fr "" in
  match ioutil_ReadDir folder w with
  | Fail err => Fail err
  | Ok finfo =>
      match compile_filters filters [] with
      | Fail err => Fail err
      | Ok compiledFilters => Ok (list_matches compiledFilters finfo [])
      end
  end.

End RepoList.

Arguments compile_filters {Regexp} _ _ _.
Arguments canWrite_loop {Regexp} _ _ _ _.
Arguments list_matches {Regexp} _ _ _ _.
Arguments RepoList {W} _ _ {Regexp} _ _ _ _ _.

(** The names of the directories among the entries. *)
Definition directories (finfo : list DirEntry) : list string :=
  omap (fun f => if de_IsDir f then Some (de_Name f) else None) finfo.

(** ** backup.go, and ProjectRepository.Backup and Restore *)

Record BackupService (W : Type) : Type := mkBackupService
  { bs_Backup : string -> list string -> W -> W * option error;
    bs_Restore : string -> string -> W -> W * option error }.
Arguments bs_Backup {W} _ _ _ _.
Arguments bs_Restore {W} _ _ _ _.

(** What the backup code calls besides the collaborators of the
    synchronisation: the terminal, the programs of the host, and two
    more calls of the file system. *)
Record Host (W : Type) : Type := mkHost
  { cli_Confirm : string -> W -> W * bool;
    exec_LookPath : string -> W -> result string;
    cmd_Run : list string -> W -> W * option error;
    os_TempDir : W -> string;
    os_Rename : string -> string -> W -> W * option error;
    copy_Copy : string -> string -> W -> W * option error }.
Arguments cli_Confirm {W} _ _ _.
Arguments exec_LookPath {W} _ _ _.
Arguments cmd_Run {W} _ _ _.
Arguments os_TempDir {W} _ _.
Arguments os_Rename {W} _ _ _ _.
Arguments copy_Copy {W} _ _ _ _.

Definition ErrNoResticRepos : error := Err "No restic repos added".
Definition ErrResticNotFound : error := Err "Restic executable not found".

Section Backup.

Context {W : Type}.
Variable sys : Sys W.
Variable host : Host W.

(** The command [restic --repo r backup folder]. *)
Definition backup_command (restic r folder : string) : list string :=
  [restic; "--repo"; r; "backup"; folder]%string.

Definition restore_command (restic repository tmpdir folder : string) : list string :=
  [restic; "--repo"; repository; "restore"; "latest"; "--target"; tmpdir;
   "--path"; folder]%string.

(** [for _, r := range repos { ... }] of [Restic.Backup] *)
Fixpoint run_backups (restic folder : string) (repos : list string) (w : W)
    : W * option error :=
  match repos with
  | [] => (w, None)
  | r :: rest =>
      match cmd_Run host (backup_command restic r folder) w with
      | (w', Some err) => (w', Some err)
      | (w', None) => run_backups restic folder rest w'
      end
  end.

(** Restic.Backup *)
Definition Restic_Backup (folder : string) (repos : list string) (w : W)
    : W * option error :=
  match repos with
  | [] => (w, Some ErrNoResticRepos)
  | _ =>
      match exec_LookPath host "restic" w with
      | Fail err =>
          if decide (err = ErrNotExist) then (w, Some ErrResticNotFound) else (w, Some err)
      | Ok restic => run_backups restic folder repos w
      end
  end.

(** Restic.Restore *)
Definition Restic_Restore (folder repository : string) (w : W) : W * option error :=
  match exec_LookPath host "restic" w with
  | Fail err =>
      if decide (err = ErrNotExist) then (w, Some ErrResticNotFound) else (w, Some err)
  | Ok restic =>
      let hashed := SHA256.Sum256 (bytes_of_string folder) in
      let tmpdir := path_Join sys (os_TempDir host w) ("proj-restic-mount_" ++ hex hashed) in
      let '(w1, _) := os_RemoveAll sys tmpdir w in
      match cmd_Run host (restore_command restic repository tmpdir folder) w1 with
      | (w2, Some err) => (w2, Some err)
      | (w2, None) =>
          let '(w3, err) :=
            match os_Rename host (path_Join sys tmpdir folder) folder w2 with
            | (w3, Some _) => copy_Copy host (path_Join sys tmpdir folder) folder w3
            | (w3, None) => (w3, None)
            end in
          let '(w4, _) := os_RemoveAll sys tmpdir w3 in
          (w4, err)
      end
  end.

Definition Restic : BackupService W :=
  {| bs_Backup := Restic_Backup; bs_Restore := Restic_Restore |}.

(** ProjectRepository.Backup *)
Definition RepoBackup (fr : ProjectRepository) (bs : BackupService W) (name : string)
    (repos : list string) (w : W) : W * option error :=
  bs_Backup bs (RepoPath sys fr name) repos w.

(** ProjectRepository.Restore *)
Definition RepoRestore (fr : ProjectRepository) (bs : BackupService W) (name repo : string)
    (w : W) : W * option error :=
  let folder := RepoPath sys fr name in
  let '(w0, r) := os_Stat sys folder w in
  if decide (error_of r = Some ErrNotExist) then bs_Backup bs folder [repo] w0
  else
    let '(w1, yes) :=
      cli_Confirm host
        ("the project " ++ name
         ++ " already exists, are you sure you want to restore from a backup?")%string w0 in
    if negb yes then (w1, None) else bs_Backup bs folder [repo] w1.

End Backup.

(** ** The collaborators in a world that carries more

    A call of the plain world made in a world that carries a value of
    [L] beside it, which the call leaves as it is. *)
Definition carrying {W L A} (op : W -> W * A) : L * W -> (L * W) * A :=
  fun lw => let '(w', a) := op lw.2 in ((lw.1, w'), a).

Definition carried {W} (L : Type) (sys : Sys W) : Sys (L * W) :=
  {| filepath_Rel := filepath_Rel sys;
     path_Join := path_Join sys;
     path_Dir := path_Dir sys;
     filepath_Walk := fun root lw => filepath_Walk sys root lw.2;
     os_Open := fun name => carrying (os_Open sys name);
     os_Stat := fun name => carrying (os_Stat sys name);
     os_MkdirAll := fun path perm => carrying (os_MkdirAll sys path perm);
     os_Create := fun path => carrying (os_Create sys path);
     os_RemoveAll := fun path => carrying (os_RemoveAll sys path);
     io_Copy := fun path body => carrying (io_Copy sys path body);
     time_Now := fun lw => time_Now sys lw.2;
     client_ListFolder := fun arg => carrying (client_ListFolder sys arg);
     client_CreateFolderV2 := fun path => carrying (client_CreateFolderV2 sys path);
     client_DeleteV2 := fun path => carrying (client_DeleteV2 sys path);
     client_Upload := fun commit body => carrying (client_Upload sys commit body);
     client_UploadSessionStart := fun body => carrying (client_UploadSessionStart sys body);
     client_UploadSessionAppendV2 := fun cursor body =>
       carrying (client_UploadSessionAppendV2 sys cursor body);
     client_UploadSessionFinish := fun cursor commit body =>
       carrying (client_UploadSessionFinish sys cursor commit body);
     client_Download := fun path => carrying (client_Download sys path) |}.

(** The host with the commands it runs recorded, in order. *)
Definition commands {W} (host : Host W) : Host (list (list string) * W) :=
  {| cli_Confirm := fun question => carrying (cli_Confirm host question);
     exec_LookPath := fun file cw => exec_LookPath host file cw.2;
     cmd_Run := fun args cw =>
       let '(w', err) := cmd_Run host args cw.2 in (((cw.1 ++ [args])%list, w'), err);
     os_TempDir := fun cw => os_TempDir host cw.2;
     os_Rename := fun oldpath newpath => carrying (os_Rename host oldpath newpath);
     copy_Copy := fun src dest => carrying (copy_Copy host src dest) |}.

(** The calls of a callback with what it returned, in order. *)
Definition Call : Type := string * DiffResult * option error.

Definition recorded {W} (cb : WalkDiffsCallback W) : WalkDiffsCallback (list Call * W) :=
  fun file diff cw =>
    let '(w', err) := cb file diff cw.2 in (((cw.1 ++ [(file, diff, err)])%list, w'), err).

(** ** The earlier dropbox.go (github.com/tj/go-dropbox) *)

(** [dropbox.Metadata], the fields the code reads. *)
Record Metadata : Type := mkMetadata
  { Tag : string; md_PathDisplay : string; md_ContentHash : string }.

(** An error of the earlier client with, when it is a [*dropbox.Error],
    its status code. *)
Record ClientError : Type := mkClientError
  { ce_error : error; ce_StatusCode : option Z }.

(** A call returns, or the program panics. *)
Inductive outcome (A : Type) : Type :=
  | Returns (a : A)
  | Panics (msg : string).
Arguments Returns {A} a.
Arguments Panics {A} msg.

Record MetadataRange : Type := mkMetadataRange
  { metadata_keys :> gmap string Metadata -> list string;
    metadata_keys_perm : forall m, metadata_keys m ≡ₚ (map_to_list m).*1 }.

(** [s[n:]] *)
Fixpoint string_drop (n : nat) (s : string) : string :=
  match n, s with
  | O, _ => s
  | S n', String _ s' => string_drop n' s'
  | S _, EmptyString => EmptyString
  end.

(** [strings.Replace(s, old, "", 1)]: [s] without the first occurrence
    of [old]. *)
Fixpoint remove_first (old s : string) : string :=
  if String.prefix old s then string_drop (String.length old) s
  else match s with
       | EmptyString => EmptyString
       | String c s' => String c (remove_first old s')
       end.

(** [if len(strippedFile) > 0 && strippedFile[0] == '/' ||
    strippedFile[0] == '\\' { strippedFile = strippedFile[1:] }]: the
    conjunction binds tighter, and the second index is evaluated on the
    empty string. *)
Definition strip_separator (strippedFile : string) : outcome string :=
  match strippedFile with
  | EmptyString => Panics "runtime error: index out of range [0] with length 0"
  | String c s' =>
      if Ascii.eqb c "/" || Ascii.eqb c "\" then Returns s' else Returns strippedFile
  end.

Section Earlier.

Context {W : Type}.
Variable sys : Sys W.
Variable range_order : MetadataRange.
Variable Files_ListFolder : ListFolderArg -> W -> W * (list Metadata + ClientError).
Variable dropbox_ContentHash : Reader -> result string.

(** Dropbox.HashLocal *)
Definition earlier_HashLocal (file : string) (w : W) : W * result string :=
  match os_Open sys file w with
  | (w', Fail err) => (w', Fail err)
  | (w', Ok f) => (w', dropbox_ContentHash (f_reader f))
  end.

Fixpoint earlier_remote_files (remote : string) (entries : list Metadata)
    (remoteFiles : gmap string Metadata) : gmap string Metadata :=
  match entries with
  | [] => remoteFiles
  | ent :: rest =>
      if negb (String.eqb (Tag ent) "folder")
      then earlier_remote_files remote rest
             (<[remove_first remote (md_PathDisplay ent) := ent]> remoteFiles)
      else earlier_remote_files remote rest remoteFiles
  end.

Definition earlier_walkFn (local : string) (cb : WalkDiffsCallback W) (e : WalkEntry)
    (remoteFiles : gmap string Metadata) (w : W)
    : outcome (gmap string Metadata * W * option error) :=
  match we_walkErr e with
  | Some walkErr => Returns (remoteFiles, w, Some walkErr)
  | None =>
    if IsDir (we_info e) then Returns (remoteFiles, w, None)
    else
      match strip_separator (remove_first local (we_file e)) with
      | Panics msg => Panics msg
      | Returns strippedFile =>
          match remoteFiles !! strippedFile with
          | None =>
              let '(w', err) := cb strippedFile DiffResultOnlyExistsLocal w in
              Returns (remoteFiles, w', err)
          | Some metadata =>
              match earlier_HashLocal (we_file e) w with
              | (w1, Fail err) => Returns (remoteFiles, w1, Some err)
              | (w1, Ok hash) =>
                  if negb (String.eqb (md_ContentHash metadata) hash) then
                    match cb strippedFile DiffResultMismatch w1 with
                    | (w', Some err) => Returns (remoteFiles, w', Some err)
                    | (w', None) => Returns (delete strippedFile remoteFiles, w', None)
                    end
                  else Returns (delete strippedFile remoteFiles, w1, None)
              end
          end
      end
  end.

Fixpoint earlier_Walk (local : string) (cb : WalkDiffsCallback W) (entries : list WalkEntry)
    (remoteFiles : gmap string Metadata) (w : W)
    : outcome (gmap string Metadata * W * option error) :=
  match entries with
  | [] => Returns (remoteFiles, w, None)
  | e :: rest =>
      match earlier_walkFn local cb e remoteFiles w with
      | Returns (remoteFiles', w', None) => earlier_Walk local cb rest remoteFiles' w'
      | stop => stop
      end
  end.

(** Dropbox.WalkDiffs *)
Definition earlier_WalkDiffs (local remote : string) (cb : WalkDiffsCallback W) (w : W)
    : outcome (W * option error) :=
  let listed :=
    match Files_ListFolder (mkListFolderArg remote false true false) w with
    | (w1, inl entries) => (w1, Ok entries)
    | (w1, inr err) =>
        match ce_StatusCode err with
        | Some code => if negb (code =? 409) then (w1, Fail (ce_error err)) else (w1, Ok [])
        | None => (w1, Fail (ce_error err))
        end
    end in
  match listed with
  | (w1, Fail err) => Returns (w1, Some err)
  | (w1, Ok entries) =>
      let remoteFiles := earlier_remote_files remote entries ∅ in
      match earlier_Walk local cb (filepath_Walk sys local w1) remoteFiles w1 with
      | Panics msg => Panics msg
      | Returns (_, w2, Some err) => Returns (w2, Some err)
      | Returns (remoteFiles', w2, None) =>
          Returns (only_remote cb (range_order remoteFiles') w2)
      end
  end.

End Earlier.

(** The calls of a callback are [quiet] when none returned an error. *)
Definition quiet (calls : list Call) : Prop := Forall (fun c => c.2 = None) calls.

(** Only the last call may have returned an error, and then it is the
    error that is returned. *)
Definition first_error_returned (calls : list Call) (err : option error) : Prop :=
  quiet calls
  \/ exists front file diff e,
       calls = (front ++ [(file, diff, Some e)])%list /\ quiet front /\ err = Some e.

(** ** The vocabulary of the further properties *)

(** [0-9a-f] *)
Definition is_lower_hex (c : ascii) : bool :=
  let n := N_of_ascii c in
  ((48 <=? n) && (n <=? 57) || (97 <=? n) && (n <=? 102))%N.

(** The bytes a request of an upload carries. *)
Definition request_body (ev : Event) : list byte :=
  match ev with
  | EvUpload _ body _ | EvUploadSessionStart body _
  | EvUploadSessionAppendV2 _ body _ | EvUploadSessionFinish _ _ body _ => body
  | _ => []
  end.

Definition sent (log : list Event) : list byte := flat_map request_body log.

(** [offsets_agree n log]: after [n] bytes, every cursor of [log] has
    for offset the number of bytes the requests before it carried. *)
Fixpoint offsets_agree (n : Z) (log : list Event) : bool :=
  match log with
  | [] => true
  | ev :: rest =>
      match ev with
      | EvUploadSessionAppendV2 cursor _ _ | EvUploadSessionFinish cursor _ _ _ =>
          Offset cursor =? n
      | _ => true
      end && offsets_agree (n + len (request_body ev)) rest
  end.

(** The requests of one upload, by size: one [Upload], or a session of
    full chunks closed by a [Finish]. *)
Definition whole_chunks (ev : Event) : Prop :=
  match ev with
  | EvUploadSessionStart body _ | EvUploadSessionAppendV2 _ body _ => len body = chunkSize
  | EvUpload _ body _ | EvUploadSessionFinish _ _ body _ => len body <= chunkSize
  | _ => True
  end.

(** Two worlds that differ in the upload session at most. *)
Definition same_files (w w' : World) : Prop :=
  w_local w' = w_local w /\ w_dirs w' = w_dirs w /\ w_remote w' = w_remote w
  /\ w_folders w' = w_folders w /\ w_faults w' = w_faults w.

(** What the walk and the last loop of [WalkDiffs] add to the log: files
    opened to be hashed, and classifications. *)
Definition compare_event (ev : Event) : Prop :=
  match ev with
  | EvOpen _ _ | EvCallback _ _ => True
  | _ => False
  end.

(** Changes of the local tree, and of the remote files. *)
Definition local_write (ev : Event) : Prop :=
  match ev with
  | EvMkdirAll _ _ _ | EvCreate _ _ | EvRemoveAll _ _ | EvCopy _ _ _ => True
  | _ => False
  end.

Definition remote_write (ev : Event) : Prop :=
  match ev with
  | EvDeleteV2 _ _ | EvUpload _ _ _ | EvUploadSessionStart _ _
  | EvUploadSessionAppendV2 _ _ _ | EvUploadSessionFinish _ _ _ _ => True
  | _ => False
  end.

Definition is_download (ev : Event) : Prop :=
  match ev with EvDownload _ _ => True | _ => False end.

(** The file entries of a listing with their relative paths. *)
Definition listed_at {W} (sys : Sys W) (remote : string) (entList : list IsMetadata)
    (p : string) (v : FileMetadata) : Prop :=
  FileEntry v ∈ entList /\ filepath_Rel sys remote (PathDisplay v) = Ok p.

(** What a push leaves alone, and what a pull leaves alone. *)
Definition push_keeps (ev : Event) : Prop := ~ local_write ev /\ ~ is_download ev.
Definition pull_keeps (ev : Event) : Prop := ~ remote_write ev.

(** A shared slice lies within its array. *)
Definition well_formed (array : list string) (env : EnvSlice) : Prop :=
  match env with
  | Shared n => (n <= length array)%nat
  | Moved _ => True
  end.

(** No file of the walk has a key of the remote files. *)
Definition keys_apart (local : string) (rf : gmap string Metadata)
    (entries : list WalkEntry) : Prop :=
  forall e p, e ∈ entries -> we_walkErr e = None -> IsDir (we_info e) = false ->
    strip_separator (remove_first local (we_file e)) = Returns p -> rf !! p = None.

Definition only_local (c : Call) : Prop := c.1.2 = DiffResultOnlyExistsLocal.

(** Requests of an upload, and of a deletion. *)
Definition is_upload (ev : Event) : Prop :=
  match ev with
  | EvUpload _ _ _ | EvUploadSessionStart _ _
  | EvUploadSessionAppendV2 _ _ _ | EvUploadSessionFinish _ _ _ _ => True
  | _ => False
  end.

Definition is_delete (ev : Event) : Prop :=
  match ev with EvDeleteV2 _ _ => True | _ => False end.

(** A call with a classification other than Match. *)
Definition not_Match (c : Call) : Prop := c.1.2 <> DiffResultMatch.

(** The calls that returned an error were all for a Mismatch. *)
Definition lost_on_Mismatch_only (calls : list Call) : Prop :=
  Forall (fun c => c.2 = None \/ c.1.2 = DiffResultMismatch) calls.

(** The last call returned the error that is returned, and the errors
    of the calls before it were for a Mismatch. *)
Definition error_kept (calls : list Call) (err : option error) : Prop :=
  lost_on_Mismatch_only calls
  \/ exists front file diff e,
       calls = (front ++ [(file, diff, Some e)])%list
       /\ lost_on_Mismatch_only front /\ err = Some e.

(** The host with the commands it runs recorded in order, each with
    what [Run] returned. *)
Definition Ran : Type := list string * option error.

Definition running {W} (host : Host W) : Host (list Ran * W) :=
  {| cli_Confirm := fun question => carrying (cli_Confirm host question);
     exec_LookPath := fun file cw => exec_LookPath host file cw.2;
     cmd_Run := fun args cw =>
       let '(w', err) := cmd_Run host args cw.2 in (((cw.1 ++ [(args, err)])%list, w'), err);
     os_TempDir := fun cw => os_TempDir host cw.2;
     os_Rename := fun oldpath newpath => carrying (os_Rename host oldpath newpath);
     copy_Copy := fun src dest => carrying (copy_Copy host src dest) |}.

(** The backups of the first [n] repositories, all run with success. *)
Definition backed_up (restic folder : string) (repos : list string) (n : nat) : list Ran :=
  map (fun r => (backup_command restic r folder, None)) (take n repos).

(** An operation carried out: by the methods of [*Dropbox], and by
    [os.RemoveAll] for the removal of a local file. *)
Definition perform {W} (sys : Sys W) (a : Action) (w : W) : W * option error :=
  match a with
  | ActUpload local remote => Dropbox_Upload sys local remote w
  | ActDownload local remote => Dropbox_Download sys local remote w
  | ActDelete remote => Dropbox_Delete sys remote w
  | ActRemoveLocal path => os_RemoveAll sys path w
  end.

(** The callback of the design: it answers each classification with
    the one operation [action] gives it, and with nothing where it
    gives none.  The callbacks of repo.go are compared with it. *)
Definition answer {W} (sys : Sys W) (action : string * DiffResult -> option Action)
    : WalkDiffsCallback W :=
  fun file diff w =>
    match action (file, diff) with
    | Some a => perform sys a w
    | None => (w, None)
    end.

(** Two logged worlds with the same world and the same classifications. *)
Definition alike {W} (lw1 lw2 : Logged W) : Prop :=
  lw1.2 = lw2.2 /\ emissions lw1.1 = emissions lw2.1.

(** What a call returned. *)
Definition event_err (ev : Event) : option error :=
  match ev with
  | EvCallback _ _ | EvService _ => None
  | EvOpen _ err | EvStat _ err | EvMkdirAll _ _ err | EvCreate _ err
  | EvRemoveAll _ err | EvCopy _ _ err | EvListFolder _ err
  | EvCreateFolderV2 _ err | EvDeleteV2 _ err | EvUpload _ _ err
  | EvUploadSessionStart _ err | EvUploadSessionAppendV2 _ _ err
  | EvUploadSessionFinish _ _ _ err | EvDownload _ err => err
  end.

(** A request of an upload to [remote]: one that commits does so at
    [remote] with the mode [overwrite]. *)
Definition upload_request (remote : string) (ev : Event) : Prop :=
  match ev with
  | EvUpload commit _ _ | EvUploadSessionFinish _ commit _ _ =>
      ci_Path commit = remote /\ ci_Mode commit = "overwrite"%string
  | EvUploadSessionStart _ _ | EvUploadSessionAppendV2 _ _ _ => True
  | _ => False
  end.

Definition is_commit (ev : Event) : Prop :=
  match ev with
  | EvUpload _ _ _ | EvUploadSessionFinish _ _ _ _ => True
  | _ => False
  end.

(** The requests of one upload of [bytes] to [remote] that returned
    [err]: requests of an upload, of which only the last may have
    failed and only the last may commit; [err] is what the last
    returned, and when it is nil the last request committed and the
    requests carried [bytes], once and in order. *)
Definition upload_run (remote : string) (bytes : list byte) (evs : list Event)
    (err : option error) : Prop :=
  exists front ev,
    evs = (front ++ [ev])%list
    /\ Forall (upload_request remote) evs
    /\ Forall (fun e => event_err e = None /\ ~ is_commit e) front
    /\ event_err ev = err
    /\ (err = None -> is_commit ev /\ sent evs = bytes).

(** The calls of one [Dropbox.Download] of [remote] to [local] that
    returned [err], when the backend answered [fetched]: the request,
    then the directories of [local], then the file created, then the
    bytes fetched written to it; the first call that fails is the last,
    and [err] is what the last call returned. *)
Inductive download_calls {W} (sys : Sys W) (local remote : string)
    : result (list byte) -> list Event -> option error -> Prop :=
  | download_not_fetched e :
      download_calls sys local remote (Fail e) [EvDownload remote (Some e)] (Some e)
  | download_no_directory body e :
      download_calls sys local remote (Ok body)
        [EvDownload remote None; EvMkdirAll (path_Dir sys local) perm_0775 (Some e)]
        (Some e)
  | download_not_created body e :
      download_calls sys local remote (Ok body)
        [EvDownload remote None; EvMkdirAll (path_Dir sys local) perm_0775 None;
         EvCreate local (Some e)]
        (Some e)
  | download_copied body err :
      download_calls sys local remote (Ok body)
        [EvDownload remote None; EvMkdirAll (path_Dir sys local) perm_0775 None;
         EvCreate local None; EvCopy local body err]
        err.

(** The names of a slash-separated path; an absolute path begins with
    the empty name. *)
Fixpoint path_names (p : string) : list string :=
  match p with
  | EmptyString => [EmptyString]
  | String c p' =>
      if Ascii.eqb c "/" then EmptyString :: path_names p'
      else match path_names p' with
           | x :: l => String c x :: l
           | [] => [String c EmptyString]
           end
  end.

(** A clean absolute path of a file: it begins with a separator, and
    none of its names is empty, [.] or [..]. *)
Definition clean_path (p : string) : bool :=
  match path_names p with
  | EmptyString :: x :: l =>
      forallb (fun n => negb (String.eqb n "") && negb (String.eqb n ".")
                        && negb (String.eqb n ".."))%string (x :: l)
  | _ => false
  end.

(** Where the simulated world is a file system or an account as they
    are: a file can be put at [path], after its directories were made,
    when [path] is clean, no file lies above it, and it is not a
    directory (no file lies below it, and no directory at or below
    it). *)
Definition can_hold (path : string) (files : gmap string (list byte)) (dirs : list string)
    : bool :=
  clean_path path
  && forallb (fun pc => negb (String.prefix (pc.1 ++ "/") path)
                        && negb (String.prefix (path ++ "/") pc.1))
       (map_to_list files)
  && forallb (fun d => negb (String.eqb d path) && negb (String.prefix (path ++ "/") d))
       dirs.

Definition can_create (path : string) (w : World) : bool :=
  can_hold path (w_local w) (w_dirs w).

Definition can_commit (path : string) (w : World) : bool :=
  can_hold path (w_remote w) (w_folders w).

(** ** The inputs of the further runs *)

(** A system with another listing, and one with another walk. *)
Definition with_ListFolder {W}
    (listing : ListFolderArg -> W -> W * result (list IsMetadata)) (sys : Sys W) : Sys W :=
  {| filepath_Rel := filepath_Rel sys;
     path_Join := path_Join sys;
     path_Dir := path_Dir sys;
     filepath_Walk := filepath_Walk sys;
     os_Open := os_Open sys;
     os_Stat := os_Stat sys;
     os_MkdirAll := os_MkdirAll sys;
     os_Create := os_Create sys;
     os_RemoveAll := os_RemoveAll sys;
     io_Copy := io_Copy sys;
     time_Now := time_Now sys;
     client_ListFolder := listing;
     client_CreateFolderV2 := client_CreateFolderV2 sys;
     client_DeleteV2 := client_DeleteV2 sys;
     client_Upload := client_Upload sys;
     client_UploadSessionStart := client_UploadSessionStart sys;
     client_UploadSessionAppendV2 := client_UploadSessionAppendV2 sys;
     client_UploadSessionFinish := client_UploadSessionFinish sys;
     client_Download := client_Download sys |}.

Definition with_Walk {W} (walk : string -> W -> list WalkEntry) (sys : Sys W) : Sys W :=
  {| filepath_Rel := filepath_Rel sys;
     path_Join := path_Join sys;
     path_Dir := path_Dir sys;
     filepath_Walk := walk;
     os_Open := os_Open sys;
     os_Stat := os_Stat sys;
     os_MkdirAll := os_MkdirAll sys;
     os_Create := os_Create sys;
     os_RemoveAll := os_RemoveAll sys;
     io_Copy := io_Copy sys;
     time_Now := time_Now sys;
     client_ListFolder := client_ListFolder sys;
     client_CreateFolderV2 := client_CreateFolderV2 sys;
     client_DeleteV2 := client_DeleteV2 sys;
     client_Upload := client_Upload sys;
     client_UploadSessionStart := client_UploadSessionStart sys;
     client_UploadSessionAppendV2 := client_UploadSessionAppendV2 sys;
     client_UploadSessionFinish := client_UploadSessionFinish sys;
     client_Download := client_Download sys |}.

(** A reader whose first read fails. *)
Definition failing_reader : Reader := [([], Some (Err "read /l/x: input/output error"))].

(** The local [x] of [w_x12], open. *)
Definition file_x1 : File :=
  mkFile [(bytes_of_string "x1", None)] (Ok (mkFileInfo false 2)).

(** A listing of [/r] with its folder and one file, and a backend that
    lists a file under a path that is not absolute. *)
Definition listing_x : list IsMetadata := [FolderEntry "/r"; FileEntry md_x2].

Definition md_relative : FileMetadata := mkFileMetadata "x" 2 "".

Definition sim_relative : Sys World :=
  with_ListFolder (fun _ w => (w, Ok [FileEntry md_relative])) sim.

(** A folder with two directories and a file, and as package regexp a
    matcher of prefixes. *)
Definition readdir_demo : string -> World -> result (list DirEntry) :=
  fun _ _ => Ok [mkDirEntry "alpha" true; mkDirEntry "notes.txt" false; mkDirEntry "beta" true].

Definition compile_demo : string -> result string := fun filter => Ok filter.

Definition match_demo : string -> string -> bool := fun re s => String.prefix re s.

(** The earlier client: a listing of [/r] with the file [x], and a
    listing that fails with the status 409. *)
Definition earlier_listing : ListFolderArg -> World -> World * (list Metadata + ClientError) :=
  fun _ w => (w, inl [mkMetadata "folder" "/r" ""; mkMetadata "file" "/r/x" "0a"]).

Definition earlier_conflict : ListFolderArg -> World -> World * (list Metadata + ClientError) :=
  fun _ w => (w, inr (mkClientError (Err "path/not_found/") (Some 409))).

Definition metadata_order : MetadataRange :=
  {| metadata_keys := fun m => (map_to_list m).*1;
     metadata_keys_perm := fun m => reflexivity _ |}.

Definition no_hash : Reader -> result string := fun _ => Ok EmptyString.

Definition fails_always : WalkDiffsCallback World :=
  fun _ _ w => (w, Some (Err "upload failed")).

(** The simulated system with a walk that visits a root that is a
    file. *)
Definition sim_file_root : Sys World :=
  with_Walk (fun root w =>
               match w_local w !! root with
               | Some c => [mkWalkEntry root (mkFileInfo false (len c)) None]
               | None => sim_Walk root w
               end) sim.

(** The remote files of [w_mismatch]. *)
Definition md_a2 : FileMetadata :=
  mkFileMetadata "/r/a" 2 (declared_hash (bytes_of_string "a2")).
Definition md_cc : FileMetadata :=
  mkFileMetadata "/r/c" 2 (declared_hash (bytes_of_string "cc")).

(** The listing of [/r] in [w_mismatch], and its inventory. *)
Definition listing_mismatch : list IsMetadata :=
  [FolderEntry "/r"; FileEntry md_a2; FileEntry md_cc].

Definition inventory_mismatch : gmap string FileMetadata :=
  <["c"%string := md_cc]> (<["a"%string := md_a2]> ∅).


(** A host on which the backup of the repository [b] fails. *)
Definition host_demo : Host (list string) :=
  {| cli_Confirm := fun _ w => (w, true);
     exec_LookPath := fun _ _ => Ok "/usr/bin/restic"%string;
     cmd_Run := fun args w =>
       (w ++ [default EmptyString (args !! 2%nat)],
        if String.eqb (default EmptyString (args !! 2%nat)) "b"
        then Some (Err "exit status 1") else None)%list;
     os_TempDir := fun _ => "/tmp"%string;
     os_Rename := fun _ _ w => (w, None);
     copy_Copy := fun _ _ w => (w, None) |}.

(* ================================================================= *)
(** * Properties *)

(** ** Logs only grow *)

Lemma appends_refl {W} P (lw : Logged W) : appends P lw lw.
Proof. exists []. split; [by rewrite app_nil_r | constructor]. Qed.

Lemma appends_trans {W} P (lw1 lw2 lw3 : Logged W) :
  appends P lw1 lw2 -> appends P lw2 lw3 -> appends P lw1 lw3.
Proof.
  intros (e1 & H1 & F1) (e2 & H2 & F2). exists (e1 ++ e2)%list. split.
  - by rewrite H2, H1, app_assoc.
  - by apply Forall_app.
Qed.

Lemma appends_mono {W} (P Q : Event -> Prop) (lw lw' : Logged W) :
  (forall ev, P ev -> Q ev) -> appends P lw lw' -> appends Q lw lw'.
Proof.
  intros HPQ (evs & H & F). exists evs. split; [done |].
  eapply Forall_impl; eauto.
Qed.

Lemma appends_record {W} (P : Event -> Prop) ev (lw : Logged W) :
  P ev -> appends P lw (record ev lw).
Proof. intros H. exists [ev]. split; [done | by repeat constructor]. Qed.

Lemma appends_after_record {W} (P : Event -> Prop) ev (lw lw' : Logged W) :
  P ev -> appends P (record ev lw) lw' -> appends P lw lw'.
Proof. intros H H'. eapply appends_trans; [by apply appends_record | done]. Qed.

Lemma appends_log_err {W} (P : Event -> Prop) ev (op : W -> W * option error) lw :
  (forall err, P (ev err)) -> appends P lw (log_err ev op lw).1.
Proof.
  intros H. unfold log_err. destruct (op lw.2) as [w' err]. simpl.
  exists [ev err]. split; [done | by repeat constructor].
Qed.

Lemma appends_log_res {W A} (P : Event -> Prop) ev (op : W -> W * result A) lw :
  (forall err, P (ev err)) -> appends P lw (log_res ev op lw).1.
Proof.
  intros H. unfold log_res. destruct (op lw.2) as [w' r]. simpl.
  exists [ev (error_of r)]. split; [done | by repeat constructor].
Qed.

Lemma appends_lift_cb {W} (P : Event -> Prop) (cb : WalkDiffsCallback W) file diff lw :
  appends P lw (lift_cb cb file diff lw).1.
Proof.
  unfold lift_cb. destruct (cb file diff lw.2) as [w' err]. simpl.
  exists []. split; [by rewrite app_nil_r | constructor].
Qed.

Section LoggedDropbox.

Context {W : Type}.
Variable sys : Sys W.

Lemma upload_append_appends (P : Event -> Prop) fuel sid size written f lw :
  (forall c b e, P (EvUploadSessionAppendV2 c b e)) ->
  appends P lw (upload_append (logged sys) fuel sid size written f lw).1.
Proof.
  intros HP. revert written f lw.
  induction fuel as [| fuel IH]; intros written f lw; simpl.
  - destruct (chunkSize <? size - written); apply appends_refl.
  - destruct (chunkSize <? size - written); [| apply appends_refl].
    destruct (split_at chunkSize f) as [chunk f'].
    pose proof (appends_log_err P
      (EvUploadSessionAppendV2 (mkCursor sid (uint64 written)) chunk)
      (client_UploadSessionAppendV2 sys (mkCursor sid (uint64 written)) chunk) lw
      (HP _ _)) as Hstep.
    destruct (log_err _ _ lw) as [lw' [err |]]; simpl in *; [done |].
    eapply appends_trans; [exact Hstep | apply IH].
Qed.

Lemma Dropbox_Upload_appends local remote lw :
  appends (upload_event local remote) lw (Dropbox_Upload (logged sys) local remote lw).1.
Proof.
  unfold Dropbox_Upload. simpl.
  pose proof (appends_log_res (upload_event local remote) (EvOpen local)
                (os_Open sys local) lw (fun _ => eq_refl)) as Hopen.
  destruct (log_res (EvOpen local) (os_Open sys local) lw) as [lw0 [file | err]];
    simpl in *; [| done].
  destruct (f_Stat file) as [info | err]; simpl; [| done].
  destruct (chunkSize <? FileSize info).
  - destruct (split_at chunkSize (content (f_reader file))) as [chunk f1].
    pose proof (appends_log_res (upload_event local remote) (EvUploadSessionStart chunk)
                  (client_UploadSessionStart sys chunk) lw0 (fun _ => I)) as Hstart.
    destruct (log_res _ _ lw0) as [lw1 [sid | err]]; simpl in *;
      [| by eapply appends_trans].
    pose proof (upload_append_appends (upload_event local remote)
                  (Z.to_nat (FileSize info / chunkSize)) sid (FileSize info)
                  chunkSize f1 lw1 (fun _ _ _ => I)) as Happ.
    destruct (upload_append _ _ _ _ _ _ lw1) as [lw2 [[written f2] | err]]; simpl in *.
    + eapply appends_trans; [exact Hopen |].
      eapply appends_trans; [exact Hstart |].
      eapply appends_trans; [exact Happ |].
      apply appends_log_err. intros err. by split.
    + eapply appends_trans; [exact Hopen |]. by eapply appends_trans.
  - eapply appends_trans; [exact Hopen |].
    apply appends_log_err. intros err. by split.
Qed.

Lemma Dropbox_Delete_appends remote lw :
  appends (delete_event remote) lw (Dropbox_Delete (logged sys) remote lw).1.
Proof. unfold Dropbox_Delete. simpl. by apply appends_log_err. Qed.

Lemma Dropbox_Download_appends local remote lw :
  appends (download_event local remote) lw (Dropbox_Download (logged sys) local remote lw).1.
Proof.
  unfold Dropbox_Download. simpl.
  pose proof (appends_log_res (download_event local remote) (EvDownload remote)
                (client_Download sys remote) lw (fun _ => eq_refl)) as H1.
  destruct (log_res _ _ lw) as [lw1 [body | err]]; simpl in *; [| done].
  pose proof (appends_log_err (download_event local remote)
                (EvMkdirAll (path_Dir sys local) perm_0775)
                (os_MkdirAll sys (path_Dir sys local) perm_0775) lw1 (fun _ => I)) as H2.
  destruct (log_err _ _ lw1) as [lw2 [err |]]; simpl in *; [by eapply appends_trans |].
  pose proof (appends_log_err (download_event local remote) (EvCreate local)
                (os_Create sys local) lw2 (fun _ => eq_refl)) as H3.
  destruct (log_err _ _ lw2) as [lw3 [err |]]; simpl in *.
  - eapply appends_trans; [exact H1 |]. by eapply appends_trans.
  - eapply appends_trans; [exact H1 |].
    eapply appends_trans; [exact H2 |].
    eapply appends_trans; [exact H3 |].
    by apply appends_log_err.
Qed.

End LoggedDropbox.

(** ** An invariant principle for WalkDiffs

    A property of the world that the collaborators' calls preserve, and
    that the callback preserves whenever it is called with a
    classification other than [DiffResultMatch], holds after
    [WalkDiffs]. *)

Section Invariant.

Context {W : Type}.
Variable sys : Sys W.
Variable range_order : RangeOrder.
Variable Inv : W -> Prop.
Variable cb : WalkDiffsCallback W.

Hypothesis Inv_ListFolder : forall arg w, Inv w -> Inv (client_ListFolder sys arg w).1.
Hypothesis Inv_CreateFolderV2 : forall p w, Inv w -> Inv (client_CreateFolderV2 sys p w).1.
Hypothesis Inv_Open : forall p w, Inv w -> Inv (os_Open sys p w).1.
Hypothesis Inv_cb : forall f d w, d <> DiffResultMatch -> Inv w -> Inv (cb f d w).1.

Lemma HashLocal_invariant file w : Inv w -> Inv (HashLocal sys file w).1.
Proof.
  intros H. unfold HashLocal. pose proof (Inv_Open file w H) as H'.
  by destruct (os_Open sys file w) as [w' [f | err]].
Qed.

Lemma walkFn_invariant local skip e rf w :
  Inv w -> Inv (walkFn sys local skip cb e rf w).1.2.
Proof.
  intros H. unfold walkFn.
  destruct (we_walkErr e); [done |].
  destruct (IsDir (we_info e)); [done |].
  destruct (filepath_Rel sys local (we_file e)) as [p | err]; [| done].
  destruct (skipped skip p (we_info e)); [done |].
  destruct (rf !! p) as [md |].
  - destruct (negb (Size md =? uint64 (FileSize (we_info e)))).
    + pose proof (Inv_cb p DiffResultMismatch w ltac:(done) H) as H'.
      by destruct (cb p DiffResultMismatch w) as [w' [err |]].
    + pose proof (HashLocal_invariant (we_file e) w H) as H1.
      destruct (HashLocal sys (we_file e) w) as [w1 [hash | err]]; [| done].
      destruct (negb (ContentHash_ md =? hash)%string); [| done].
      pose proof (Inv_cb p DiffResultMismatch w1 ltac:(done) H1) as H'.
      by destruct (cb p DiffResultMismatch w1) as [w' err].
  - pose proof (Inv_cb p DiffResultOnlyExistsLocal w ltac:(done) H) as H'.
    by destruct (cb p DiffResultOnlyExistsLocal w) as [w' err].
Qed.

Lemma Walk_invariant local skip entries rf w :
  Inv w -> Inv (Walk sys local skip cb entries rf w).1.2.
Proof.
  revert rf w. induction entries as [| e rest IH]; intros rf w H; simpl; [done |].
  pose proof (walkFn_invariant local skip e rf w H) as H'.
  destruct (walkFn sys local skip cb e rf w) as [[rf' w'] [err |]]; [done |].
  by apply IH.
Qed.

Lemma only_remote_invariant paths w :
  Inv w -> Inv (only_remote cb paths w).1.
Proof.
  revert w. induction paths as [| p rest IH]; intros w H; simpl; [done |].
  pose proof (Inv_cb p DiffResultOnlyExistsRemote w ltac:(done) H) as H'.
  destruct (cb p DiffResultOnlyExistsRemote w) as [w' [err |]]; [done |].
  by apply IH.
Qed.

Lemma list_remote_invariant remote w :
  Inv w -> Inv (list_remote sys remote w).1.
Proof.
  intros H. unfold list_remote.
  pose proof (Inv_ListFolder (mkListFolderArg remote false true false) w H) as H1.
  destruct (client_ListFolder sys _ w) as [w1 [entries | err]]; [done |].
  destruct (String.prefix _ _); [| done].
  pose proof (Inv_CreateFolderV2 remote w1 H1) as H2.
  by destruct (client_CreateFolderV2 sys remote w1) as [w2 [err' |]].
Qed.

Lemma WalkDiffs_invariant local remote skip w :
  Inv w -> Inv (WalkDiffs sys range_order local remote skip cb w).1.
Proof.
  intros H. unfold WalkDiffs.
  pose proof (list_remote_invariant remote w H) as H1.
  destruct (list_remote sys remote w) as [w1 [entList | err]]; [| done].
  destruct (remote_files sys remote entList ∅) as [rf | err]; [| done].
  pose proof (Walk_invariant local skip (filepath_Walk sys local w1) rf w1 H1) as H2.
  destruct (Walk sys local skip cb _ rf w1) as [[rf' w2] [err |]]; [done |].
  by apply only_remote_invariant.
Qed.

End Invariant.

(** ** Invariants of the log *)

Lemma appends_Forall {W} (P Q : Event -> Prop) (lw lw' : Logged W) :
  (forall ev, P ev -> Q ev) -> appends P lw lw' -> Forall Q lw.1 -> Forall Q lw'.1.
Proof.
  intros HPQ (evs & -> & F) H. apply Forall_app. split; [done |].
  eapply Forall_impl; eauto.
Qed.

Lemma log_res_grows {W A} Q (I : list Event -> Prop) ev (op : W -> W * result A) lw :
  grows_by Q I -> (forall e, Q (ev e)) -> I lw.1 -> I (log_res ev op lw).1.1.
Proof.
  intros HG HQ HI. unfold log_res. destruct (op lw.2) as [w' r]. simpl. by apply HG.
Qed.

Lemma log_err_grows {W} Q (I : list Event -> Prop) ev (op : W -> W * option error) lw :
  grows_by Q I -> (forall e, Q (ev e)) -> I lw.1 -> I (log_err ev op lw).1.1.
Proof.
  intros HG HQ HI. unfold log_err. destruct (op lw.2) as [w' r]. simpl. by apply HG.
Qed.

Lemma appends_grows {W} Q (I : list Event -> Prop) (lw lw' : Logged W) :
  grows_by Q I -> appends Q lw lw' -> I lw.1 -> I lw'.1.
Proof.
  intros HG (evs & -> & F). generalize (lw.1). clear lw lw'.
  induction F as [| ev evs HQ F IH]; intros log HI.
  - by rewrite app_nil_r.
  - replace (log ++ ev :: evs)%list with ((log ++ [ev]) ++ evs)%list
      by (by rewrite <- app_assoc). apply IH. by apply HG.
Qed.

Lemma WalkDiffs_log_invariant {W} (sys : Sys W) range_order
    (I : list Event -> Prop) (cb : WalkDiffsCallback (Logged W)) local remote skip lw :
  grows_by walk_event I ->
  (forall f d lw, d <> DiffResultMatch -> I lw.1 -> I (traced cb f d lw).1.1) ->
  I lw.1 ->
  I (WalkDiffs (logged sys) range_order local remote skip (traced cb) lw).1.1.
Proof.
  intros HG Hcb HI.
  apply (WalkDiffs_invariant (logged sys) range_order (fun lw => I lw.1) (traced cb)); auto.
  - intros arg lw0 H0. simpl. by eapply log_res_grows.
  - intros p lw0 H0. simpl. by eapply log_err_grows.
  - intros p lw0 H0. simpl. by eapply log_res_grows.
Qed.

Lemma no_Match_grows (Q : Event -> Prop) :
  (forall ev, Q ev -> no_Match ev) -> grows_by Q (Forall no_Match).
Proof.
  intros HQ log ev Hev HI. apply Forall_app. split; [done |].
  repeat constructor. by apply HQ.
Qed.

Lemma no_Match_emissions log file :
  Forall no_Match log -> (file, DiffResultMatch) ∉ emissions log.
Proof.
  intros H Hin. unfold emissions in Hin. apply list_elem_of_omap in Hin.
  destruct Hin as (ev & Hev & Hem). rewrite Forall_forall in H.
  specialize (H ev Hev). destruct ev; simplify_eq/=. done.
Qed.

Lemma Upload_callback_appends {W} (sys : Sys W) ro folder remoteFolder file diff lw :
  appends service_event lw
    (Upload_callback (logged sys) (observed (DropboxService (logged sys) ro))
       folder remoteFolder file diff lw).1.
Proof.
  unfold Upload_callback. destruct diff; simpl.
  - apply appends_refl.
  - eapply appends_after_record; cycle 1.
    { eapply appends_mono; [| apply Dropbox_Upload_appends]. intros ev. by destruct ev. }
    exact I.
  - eapply appends_after_record; cycle 1.
    { eapply appends_mono; [| apply Dropbox_Delete_appends]. intros ev. by destruct ev. }
    exact I.
  - eapply appends_after_record; cycle 1.
    { eapply appends_mono; [| apply Dropbox_Upload_appends]. intros ev. by destruct ev. }
    exact I.
Qed.

Lemma Pull_callback_appends {W} (sys : Sys W) ro folder remoteFolder file diff lw :
  appends service_event lw
    (Pull_callback (logged sys) (observed (DropboxService (logged sys) ro))
       folder remoteFolder file diff lw).1.
Proof.
  unfold Pull_callback. destruct diff; simpl.
  - apply appends_refl.
  - eapply appends_after_record; cycle 1.
    { eapply appends_mono; [| apply Dropbox_Download_appends]. intros ev. by destruct ev. }
    exact I.
  - eapply appends_after_record; cycle 1.
    { eapply appends_mono; [| apply Dropbox_Download_appends]. intros ev. by destruct ev. }
    exact I.
  - by apply appends_log_err.
Qed.

Lemma traced_no_Match {W} (cb : WalkDiffsCallback (Logged W)) :
  (forall f d lw, appends no_Match lw (cb f d lw).1) ->
  forall f d (lw : Logged W), d <> DiffResultMatch ->
    Forall no_Match lw.1 -> Forall no_Match (traced cb f d lw).1.1.
Proof.
  intros Hcb f d lw Hd HI. unfold traced.
  eapply (appends_Forall no_Match); [done | apply Hcb |].
  simpl. apply Forall_app. split; [done |]. repeat constructor. by destruct d.
Qed.

(** C10. [WalkDiffs] never calls its callback with [DiffResultMatch]:
    whatever the world, the skip predicate and the callback, no
    classification in the log of a diff is a Match, and none is in the
    log of a push or of a pull, whose Match branches are therefore never
    taken. *)
Theorem WalkDiffs_never_emits_Match {W} (sys : Sys W) ro local remote skip
    (cb : WalkDiffsCallback W) fr name (w : W) (file : string) :
  ((file, DiffResultMatch) ∉ emissions (diff_log sys ro local remote skip cb w))
  /\ ((file, DiffResultMatch) ∉ emissions (push_log sys ro fr name w))
  /\ ((file, DiffResultMatch) ∉ emissions (pull_log sys ro fr name w)).
Proof.
  assert (Hwalk : grows_by walk_event (Forall no_Match)).
  { apply no_Match_grows. intros ev. by destruct ev. }
  split; [| split]; apply no_Match_emissions.
  - unfold diff_log. apply WalkDiffs_log_invariant; [done | | constructor].
    apply traced_no_Match. intros f d lw. apply appends_lift_cb.
  - unfold push_log, Upload. simpl.
    destruct (log_res _ _ _) as [lw0 [info | err]] eqn:E.
    + simpl. apply WalkDiffs_log_invariant; [done | |].
      * apply traced_no_Match. intros f d lw.
        eapply appends_mono; [| apply Upload_callback_appends].
        intros ev. by destruct ev.
      * unfold log_res in E. simpl in E.
        destruct (os_Stat sys _ w) as [w' r]. simplify_eq/=. by repeat constructor.
    + unfold log_res in E. simpl in E.
      destruct (os_Stat sys _ w) as [w' r]. simplify_eq/=.
      destruct (decide (err = ErrNotExist)); simpl; by repeat constructor.
  - unfold pull_log, Pull. simpl.
    destruct (log_err _ _ _) as [lw1 err] eqn:E.
    apply WalkDiffs_log_invariant; [done | |].
    + apply traced_no_Match. intros f d lw.
      eapply appends_mono; [| apply Pull_callback_appends].
      intros ev. by destruct ev.
    + unfold log_err in E. simpl in E.
      destruct (os_MkdirAll sys _ _ w) as [w' r]. simplify_eq/=. by repeat constructor.
Qed.

(** ** What a push and a pull do with each classification *)

Lemma emission_top ev : top ev = None -> emission ev = None.
Proof. by destruct ev. Qed.

Lemma follows_quiet action log ev :
  top ev = None -> follows action log -> follows action (log ++ [ev]).
Proof.
  intros Htop H. unfold follows, emissions in *.
  rewrite !omap_app. simpl. rewrite Htop, (emission_top _ Htop). simpl.
  by rewrite !app_nil_r.
Qed.

Lemma follows_callback action log f d :
  action (f, d) = None -> follows action log -> follows action (log ++ [EvCallback f d]).
Proof.
  intros Ha H. unfold follows, emissions in *.
  rewrite !omap_app. simpl. rewrite flat_map_app. simpl.
  rewrite Ha. simpl. by rewrite H.
Qed.

Lemma follows_action action log f d ev a :
  action (f, d) = Some a -> top ev = Some (inr a) ->
  follows action log -> follows action (log ++ [EvCallback f d] ++ [ev]).
Proof.
  intros Ha Hev H. unfold follows, emissions in *.
  rewrite !omap_app. simpl. rewrite Hev. simpl.
  assert (emission ev = None) as -> by (by destruct ev).
  simpl. rewrite flat_map_app. simpl.
  rewrite Ha. simpl. by rewrite H.
Qed.

Lemma push_inv_grows action (Q : Event -> Prop) :
  (forall ev, Q ev -> top ev = None /\ commit_overwrites ev) ->
  grows_by Q (push_inv action).
Proof.
  intros HQ log ev Hev [H1 H2]. destruct (HQ ev Hev) as [Ht Hc]. split.
  - by apply follows_quiet.
  - apply Forall_app. split; [done | by repeat constructor].
Qed.

Lemma upload_event_quiet local remote ev :
  upload_event local remote ev -> top ev = None /\ commit_overwrites ev.
Proof. destruct ev; simpl; try done. all: by intros [_ ?]. Qed.

Lemma delete_event_quiet remote ev :
  delete_event remote ev -> top ev = None /\ commit_overwrites ev.
Proof. by destruct ev. Qed.

Lemma download_event_quiet local remote ev :
  download_event local remote ev -> top ev = None /\ commit_overwrites ev.
Proof. by destruct ev. Qed.

Lemma walk_event_quiet ev : walk_event ev -> top ev = None /\ commit_overwrites ev.
Proof. by destruct ev. Qed.

Lemma push_inv_step action log f d a ev :
  action (f, d) = Some a -> top ev = Some (inr a) -> commit_overwrites ev ->
  push_inv action log -> push_inv action ((log ++ [EvCallback f d]) ++ [ev]).
Proof.
  intros Ha Hev Hc [H1 H2]. split.
  - rewrite <- app_assoc. by eapply follows_action.
  - rewrite !Forall_app. repeat split; try done; by repeat constructor.
Qed.

Lemma Upload_callback_push_inv {W} (sys : Sys W) ro folder remoteFolder f d lw :
  push_inv (push_action sys folder remoteFolder) lw.1 ->
  push_inv (push_action sys folder remoteFolder)
    (traced (Upload_callback (logged sys) (observed (DropboxService (logged sys) ro))
               folder remoteFolder) f d lw).1.1.
Proof.
  intros HI. unfold traced, Upload_callback.
  destruct d; simpl.
  - destruct HI as [H1 H2]. split; [by apply follows_callback |].
    apply Forall_app. split; [done | by repeat constructor].
  - eapply (appends_grows (upload_event _ _));
      [apply push_inv_grows, upload_event_quiet | apply Dropbox_Upload_appends |].
    simpl. by eapply push_inv_step.
  - eapply (appends_grows (delete_event _));
      [apply push_inv_grows, delete_event_quiet | apply Dropbox_Delete_appends |].
    simpl. by eapply push_inv_step.
  - eapply (appends_grows (upload_event _ _));
      [apply push_inv_grows, upload_event_quiet | apply Dropbox_Upload_appends |].
    simpl. by eapply push_inv_step.
Qed.

(** Seen from the caller, the log of a push is its classifications, each
    followed at once by its operation; every commit has the mode
    [overwrite]. *)
Lemma push_log_inv {W} (sys : Sys W) ro fr name (w : W) :
  push_inv (push_action sys (RepoPath sys fr name) ("/" ++ name)%string)
    (push_log sys ro fr name w).
Proof.
  set (folder := RepoPath sys fr name). set (remoteFolder := ("/" ++ name)%string).
  unfold push_log, Upload. simpl. fold folder. fold remoteFolder.
  destruct (log_res _ _ _) as [lw0 [info | err]] eqn:E;
    unfold log_res in E; simpl in E;
    destruct (os_Stat sys _ w) as [w0 r]; simplify_eq/=.
  - apply WalkDiffs_log_invariant.
    + apply push_inv_grows, walk_event_quiet.
    + intros f d lw _. apply Upload_callback_push_inv.
    + simpl. split; [reflexivity | by repeat constructor].
  - destruct (decide (err = ErrNotExist)); simpl;
      (split; [reflexivity | by repeat constructor]).
Qed.

Lemma follows_grows action (Q : Event -> Prop) :
  (forall ev, Q ev -> top ev = None) -> grows_by Q (follows action).
Proof. intros HQ log ev Hev H. apply follows_quiet; auto. Qed.

Lemma Pull_callback_follows {W} (sys : Sys W) ro folder remoteFolder f d lw :
  follows (pull_action sys folder remoteFolder) lw.1 ->
  follows (pull_action sys folder remoteFolder)
    (traced (Pull_callback (logged sys) (observed (DropboxService (logged sys) ro))
               folder remoteFolder) f d lw).1.1.
Proof.
  intros HI. unfold traced, Pull_callback.
  destruct d; simpl.
  - by apply follows_callback.
  - eapply (appends_grows (download_event _ _));
      [apply follows_grows; intros ev Hev; eapply download_event_quiet, Hev
      | apply Dropbox_Download_appends |].
    simpl. rewrite <- app_assoc. by eapply follows_action.
  - eapply (appends_grows (download_event _ _));
      [apply follows_grows; intros ev Hev; eapply download_event_quiet, Hev
      | apply Dropbox_Download_appends |].
    simpl. rewrite <- app_assoc. by eapply follows_action.
  - unfold log_err. simpl.
    destruct (os_RemoveAll sys (path_Join sys folder f) lw.2) as [w' err]. simpl.
    rewrite <- app_assoc. by eapply follows_action.
Qed.

(** The same of a pull. *)
Lemma pull_log_follows {W} (sys : Sys W) ro fr name (w : W) :
  follows (pull_action sys (RepoPath sys fr name) ("/" ++ name)%string)
    (pull_log sys ro fr name w).
Proof.
  set (folder := RepoPath sys fr name). set (remoteFolder := ("/" ++ name)%string).
  unfold pull_log, Pull. simpl. fold folder. fold remoteFolder.
  destruct (log_err _ _ _) as [lw1 err] eqn:E.
  unfold log_err in E; simpl in E.
  destruct (os_MkdirAll sys _ _ w) as [w0 r]; simplify_eq/=.
  apply WalkDiffs_log_invariant.
  - apply follows_grows. intros ev Hev. eapply walk_event_quiet, Hev.
  - intros f d lw _. apply Pull_callback_follows.
  - reflexivity.
Qed.

(** ** One step of the walk on a path present on both sides *)

Lemma HashLocal_logged {W} (sys : Sys W) file log (w : W) :
  HashLocal (logged sys) file (log, w)
  = ((log ++ [EvOpen file (error_of (os_Open sys file w).2)])%list,
     (HashLocal sys file w).1, (HashLocal sys file w).2).
Proof.
  unfold HashLocal. simpl. unfold log_res. simpl.
  by destruct (os_Open sys file w) as [w1 [f | err]].
Qed.




(** ** The classifications of a walk *)

Lemma emissions_app log1 log2 : emissions (log1 ++ log2) = (emissions log1 ++ emissions log2)%list.
Proof. apply omap_app. Qed.

Lemma traced_lift_cb {W} (cb : WalkDiffsCallback W) f d log (w : W) :
  traced (lift_cb cb) f d (log, w)
  = ((log ++ [EvCallback f d])%list, (cb f d w).1, (cb f d w).2).
Proof.
  unfold traced, lift_cb, record. simpl. by destruct (cb f d w).
Qed.

Lemma walkFn_spec {W} (sys : Sys W) local skip (cb : WalkDiffsCallback W) e rf log (w : W)
    rf' log' w' err :
  walkFn (logged sys) local skip (traced (lift_cb cb)) e rf (log, w) = (rf', (log', w'), err) ->
  exists tr, emissions log' = (emissions log ++ tr)%list
             /\ step_ok (local_path sys local skip e) rf tr rf' err.
Proof.
  unfold walkFn, local_path, step_ok. simpl.
  destruct (we_walkErr e) as [walkErr |].
  { intros [= <- <- <- <-]. exists []. by rewrite app_nil_r. }
  destruct (IsDir (we_info e)).
  { intros [= <- <- <- <-]. exists []. by rewrite app_nil_r. }
  destruct (filepath_Rel sys local (we_file e)) as [p | rerr].
  2: { intros [= <- <- <- <-]. exists []. by rewrite app_nil_r. }
  destruct (skipped skip p (we_info e)).
  { intros [= <- <- <- <-]. exists []. by rewrite app_nil_r. }
  destruct (rf !! p) as [md |] eqn:Hrf.
  - destruct (negb (Size md =? uint64 (FileSize (we_info e)))).
    + rewrite traced_lift_cb.
      destruct (cb p DiffResultMismatch w) as [w1 [cerr |]]; simpl;
        intros [= <- <- <- <-]; exists [(p, DiffResultMismatch)];
        rewrite emissions_app; (split; [done |]); split; auto.
    + rewrite HashLocal_logged.
      destruct (HashLocal sys (we_file e) w) as [w1 [hash | herr]]; simpl.
      * destruct (negb (ContentHash_ md =? hash)%string).
        -- rewrite traced_lift_cb. simpl. intros [= <- <- <- <-].
           exists [(p, DiffResultMismatch)]. rewrite !emissions_app. simpl.
           rewrite app_nil_r. split; [done |]. split; auto.
        -- intros [= <- <- <- <-]. exists []. rewrite emissions_app. simpl.
           split; [done |]. split; auto.
      * intros [= <- <- <- <-]. exists []. rewrite emissions_app. simpl.
        split; [done |]. split; auto.
  - rewrite traced_lift_cb. intros [= <- <- <- <-].
    exists [(p, DiffResultOnlyExistsLocal)]. by rewrite emissions_app.
Qed.

Lemma step_ok_subseteq lp rf tr rf' err : step_ok lp rf tr rf' err -> rf' ⊆ rf.
Proof.
  unfold step_ok. destruct lp as [p |]; [| by intros [_ ->]].
  destruct (rf !! p); [| by intros [_ ->]].
  intros [_ [-> | [-> _]]]; [apply delete_subseteq | done].
Qed.

Lemma walk_ok_stop lp rf tr rf' err rest :
  step_ok lp rf tr rf' (Some err) ->
  walk_ok (match lp with Some p => p :: rest | None => rest end) rf tr rf' (Some err).
Proof.
  intros Hok. pose proof (step_ok_subseteq _ _ _ _ _ Hok) as Hsub.
  unfold step_ok in Hok. split; try done.
  - destruct lp as [p |].
    + destruct (rf !! p); destruct Hok as [Htr _].
      * destruct Htr as [-> | ->]; simpl;
          [apply sublist_skip, sublist_nil_l | apply sublist_nil_l].
      * subst tr. simpl. apply sublist_skip, sublist_nil_l.
    + destruct Hok as [-> _]. apply sublist_nil_l.
  - intros q d Hin. destruct lp as [p |].
    + destruct (rf !! p) eqn:Hrf; destruct Hok as [Htr _].
      * destruct Htr as [-> | ->]; [| by apply elem_of_nil in Hin].
        apply list_elem_of_singleton in Hin as [= -> ->]. right. by rewrite Hrf.
      * subst tr. apply list_elem_of_singleton in Hin as [= -> ->]. by left.
    + destruct Hok as [-> _]. by apply elem_of_nil in Hin.
  - intros _ q Hin. destruct lp as [p |].
    + destruct (rf !! p) eqn:Hrf; destruct Hok as [Htr _].
      * destruct Htr as [-> | ->]; [| by apply elem_of_nil in Hin].
        by apply list_elem_of_singleton in Hin.
      * subst tr. by apply list_elem_of_singleton in Hin as [= ->].
    + destruct Hok as [-> _]. by apply elem_of_nil in Hin.
Qed.

Lemma walk_ok_continue lp rf tr1 rf1 rest tr2 rf' err :
  step_ok lp rf tr1 rf1 None ->
  walk_ok rest rf1 tr2 rf' err ->
  walk_ok (match lp with Some p => p :: rest | None => rest end) rf (tr1 ++ tr2) rf' err.
Proof.
  intros Hok [IHa IHb IHc IHd IHe IHf IHg].
  pose proof (step_ok_subseteq _ _ _ _ _ Hok) as Hsub.
  unfold step_ok in Hok.
  destruct lp as [p |].
  2: { destruct Hok as [-> ->]. simpl. by split. }
  destruct (rf !! p) as [md |] eqn:Hrf.
  - destruct Hok as [Htr [-> | [_ ?]]]; [| done].
    assert (Hin2 : forall q d, (q, d) ∈ tr2 -> q ∈ rest).
    { intros q d Hin. apply (sublist_subseteq _ _ IHa).
      apply list_elem_of_fmap. by exists (q, d). }
    split.
    + rewrite fmap_app. destruct Htr as [-> | ->]; simpl;
        [by apply sublist_skip | by apply sublist_cons].
    + intros q d Hin. apply elem_of_app in Hin as [Hin | Hin].
      * destruct Htr as [-> | ->]; [| by apply elem_of_nil in Hin].
        apply list_elem_of_singleton in Hin as [= -> ->]. right. by rewrite Hrf.
      * destruct (IHb q d Hin) as [-> | [-> Hsome]]; [by left | right].
        split; [done |]. eapply lookup_weaken_is_Some; eauto.
    + intros Hnd q Hin. apply NoDup_cons in Hnd as [Hp Hnd].
      apply elem_of_app in Hin as [Hin | Hin].
      * destruct Htr as [-> | ->]; [| by apply elem_of_nil in Hin].
        by apply list_elem_of_singleton in Hin.
      * pose proof (IHc Hnd q Hin) as Hq.
        assert (q <> p) by (intros ->; apply Hp; eauto).
        by rewrite lookup_delete_ne in Hq.
    + by etrans.
    + intros Herr q. rewrite (IHe Herr q).
      destruct (decide (q = p)) as [-> | Hne].
      * rewrite lookup_delete_eq.
        rewrite (decide_True (P := p ∈ p :: rest)) by (by left).
        by destruct (decide (p ∈ rest)).
      * rewrite lookup_delete_ne by done.
        destruct (decide (q ∈ rest)) as [Hin | Hnin], (decide (q ∈ p :: rest)) as [Hin' | Hnin'];
          try done.
        -- exfalso. apply Hnin'. by right.
        -- apply elem_of_cons in Hin' as [-> | Hin']; done.
    + intros Herr q Hin Hq. apply elem_of_app. right.
      apply elem_of_cons in Hin as [-> | Hin]; [congruence |].
      apply (IHf Herr q Hin). eapply lookup_weaken_None; eauto.
    + intros ->. by rewrite lookup_empty in Hrf.
  - destruct Hok as [-> ->]. split; simpl.
    + by apply sublist_skip.
    + intros q d Hin. apply elem_of_cons in Hin as [[= -> ->] | Hin]; [by left |].
      by apply IHb.
    + intros Hnd q Hin. apply NoDup_cons in Hnd as [Hp Hnd].
      apply elem_of_cons in Hin as [[= ->] | Hin]; [done |]. by apply IHc.
    + done.
    + intros Herr q. rewrite (IHe Herr q).
      destruct (decide (q ∈ rest)) as [Hin | Hnin], (decide (q ∈ p :: rest)) as [Hin' | Hnin'];
        try done.
      * exfalso. apply Hnin'. by right.
      * apply elem_of_cons in Hin' as [-> | Hin']; done.
    + intros Herr q Hin Hq.
      apply elem_of_cons in Hin as [-> | Hin]; [by left |].
      right. by apply IHf.
    + intros Hrf0 Herr. by rewrite (IHg Hrf0 Herr).
Qed.

Section WalkSpec.

Context {W : Type}.
Variable sys : Sys W.
Variable local : string.
Variable skip : option SkipCallback.
Variable cb : WalkDiffsCallback W.

Lemma Walk_spec entries rf log (w : W) rf' log' w' err :
  Walk (logged sys) local skip (traced (lift_cb cb)) entries rf (log, w)
  = (rf', (log', w'), err) ->
  exists tr, emissions log' = (emissions log ++ tr)%list
             /\ walk_ok (local_paths sys local skip entries) rf tr rf' err.
Proof.
  revert rf log w. induction entries as [| e rest IH]; intros rf log w; cbn [Walk].
  - intros [= <- <- <- <-]. exists []. rewrite app_nil_r. split; [done |].
    split; try done.
    all: try (intros p d Hin; by apply elem_of_nil in Hin).
    all: try (intros _ p Hin; by apply elem_of_nil in Hin).
  - destruct (walkFn (logged sys) local skip (traced (lift_cb cb)) e rf (log, w))
      as [[rf1 [log1 w1]] [err1 |]] eqn:Hstep;
      apply walkFn_spec in Hstep as (tr1 & Hem1 & Hok).
    + intros [= <- <- <- <-]. exists tr1. split; [done |].
      unfold local_paths. simpl. by apply walk_ok_stop.
    + intros Hrest. apply IH in Hrest as (tr2 & Hem2 & Hwalk).
      exists (tr1 ++ tr2)%list. split; [by rewrite Hem2, Hem1, app_assoc |].
      unfold local_paths. simpl.
      eapply (walk_ok_continue (local_path sys local skip e)); eauto.
Qed.

(** The loop over the remaining remote files emits them as OnlyRemote,
    in the order of the range, up to the first error. *)
Lemma only_remote_spec paths log (w : W) log' w' err :
  only_remote (traced (lift_cb cb)) paths (log, w) = ((log', w'), err) ->
  exists n, emissions log'
            = (emissions log ++ map (fun p => (p, DiffResultOnlyExistsRemote)) (take n paths))%list
            /\ (err = None -> take n paths = paths).
Proof.
  revert log w. induction paths as [| p rest IH]; intros log w; simpl.
  - intros [= <- <- <-]. exists 0%nat. by rewrite app_nil_r.
  - rewrite traced_lift_cb.
    destruct (cb p DiffResultOnlyExistsRemote w) as [w1 [err1 |]]; simpl.
    + intros [= <- <- <-]. exists 1%nat. rewrite emissions_app. simpl.
      split; [by destruct rest | done].
    + intros Hrest. apply IH in Hrest as (n & Hem & Hall).
      exists (S n). rewrite Hem, emissions_app. simpl.
      split; [by rewrite <- app_assoc | intros Herr; by rewrite Hall].
Qed.

End WalkSpec.

(** ** A whole diff *)

Lemma of_path_notin p (tr : list (string * DiffResult)) :
  p ∉ tr.*1 -> of_path p tr = [].
Proof.
  unfold of_path. induction tr as [| [q d] tr IH]; intros Hnin; [done |].
  rewrite fmap_cons, not_elem_of_cons in Hnin. destruct Hnin as [Hne Hnin].
  simpl in Hne. rewrite filter_cons_False by (simpl; intros ->; by apply Hne). by apply IH.
Qed.

Lemma of_path_unique p d (tr : list (string * DiffResult)) :
  NoDup (tr.*1) -> (p, d) ∈ tr -> of_path p tr = [(p, d)].
Proof.
  unfold of_path. induction tr as [| [q c] tr IH]; intros Hnd Hin.
  { by apply elem_of_nil in Hin. }
  rewrite fmap_cons in Hnd. apply NoDup_cons in Hnd as [Hq Hnd]. simpl in Hq.
  apply elem_of_cons in Hin as [[= <- <-] | Hin].
  - rewrite filter_cons_True by done. f_equal. by apply of_path_notin.
  - assert (q <> p).
    { intros ->. apply Hq. apply list_elem_of_fmap. by exists (p, d). }
    rewrite filter_cons_False by done. by apply IH.
Qed.

Lemma of_path_keys p c (ks : list string) :
  NoDup ks ->
  of_path p (map (fun q => (q, c)) ks) = if decide (p ∈ ks) then [(p, c)] else [].
Proof.
  intros Hnd. destruct (decide (p ∈ ks)) as [Hin | Hnin].
  - apply of_path_unique.
    + replace ((map (fun q => (q, c)) ks).*1) with ks; [done |].
      clear. induction ks; simpl; [done | by f_equal].
    + apply list_elem_of_fmap. by exists p.
  - apply of_path_notin. intros Hin. apply Hnin.
    apply list_elem_of_fmap in Hin as ([q d] & -> & Hin).
    apply list_elem_of_fmap in Hin as (q' & [= -> ->] & Hin). done.
Qed.

Lemma of_path_app p tr1 tr2 : of_path p (tr1 ++ tr2) = (of_path p tr1 ++ of_path p tr2)%list.
Proof. apply filter_app. Qed.

Lemma range_order_NoDup (ro : RangeOrder) (m : gmap string FileMetadata) : NoDup (ro m).
Proof. rewrite (range_keys_perm ro m). apply NoDup_fst_map_to_list. Qed.

Lemma range_order_elem_of (ro : RangeOrder) (m : gmap string FileMetadata) p :
  p ∈ ro m <-> is_Some (m !! p).
Proof.
  rewrite (range_keys_perm ro m). rewrite list_elem_of_fmap. split.
  - intros ([q md] & -> & Hin). apply elem_of_map_to_list in Hin. by exists md.
  - intros [md Hmd]. exists (p, md). split; [done |]. by apply elem_of_map_to_list.
Qed.

Lemma walk_ok_nothing L rf e : walk_ok L rf [] rf (Some e).
Proof.
  split; try done.
  - apply sublist_nil_l.
  - intros p d Hin. by apply elem_of_nil in Hin.
  - intros _ p Hin. by apply elem_of_nil in Hin.
Qed.

Section DiffSpec.

Context {W : Type}.
Variable sys : Sys W.
Variable ro : RangeOrder.
Variable local remote : string.
Variable skip : option SkipCallback.
Variable cb : WalkDiffsCallback W.

Lemma list_remote_logged log (w : W) :
  exists evs,
    list_remote (logged sys) remote (log, w)
    = ((log ++ evs)%list, (list_remote sys remote w).1, (list_remote sys remote w).2)
    /\ emissions evs = [].
Proof.
  unfold list_remote. simpl. unfold log_res, log_err. simpl.
  destruct (client_ListFolder sys _ w) as [w1 [entries | err]]; simpl.
  { by eexists [_]. }
  destruct (String.prefix _ _).
  - destruct (client_CreateFolderV2 sys remote w1) as [w2 [err' |]]; simpl;
      eexists [_; _]; by rewrite <- app_assoc.
  - by eexists [_].
Qed.

(** The classifications of a diff: those of the walk, then the remaining
    remote files as OnlyRemote, all of them when the diff returns nil. *)
Lemma WalkDiffs_spec (w : W) :
  let run := WalkDiffs (logged sys) ro local remote skip (traced (lift_cb cb)) ([], w) in
  exists tr rf' errw n,
    emissions run.1.1
    = (tr ++ map (fun p => (p, DiffResultOnlyExistsRemote)) (take n (ro rf')))%list
    /\ walk_ok (local_inventory sys local remote skip w) (remote_inventory sys remote w)
         tr rf' errw
    /\ (run.2 = None -> errw = None /\ take n (ro rf') = ro rf')
    /\ (errw <> None -> n = 0%nat).
Proof.
  intros run. subst run. unfold WalkDiffs, local_inventory, remote_inventory.
  destruct (list_remote_logged [] w) as (evs & -> & Hevs). simpl.
  destruct (list_remote sys remote w) as [w1 [entList | lerr]]; simpl.
  2: { exists [], ∅, (Some lerr), 0%nat. rewrite Hevs. simpl.
       split; [done |]. split; [apply walk_ok_nothing | done]. }
  change (remote_files (logged sys) remote entList ∅)
    with (remote_files sys remote entList ∅).
  destruct (remote_files sys remote entList ∅) as [rf | rerr]; simpl.
  2: { exists [], ∅, (Some rerr), 0%nat. rewrite Hevs. simpl.
       split; [done |]. split; [apply walk_ok_nothing | done]. }
  destruct (Walk (logged sys) local skip (traced (lift_cb cb)) (filepath_Walk sys local w1)
              rf (evs, w1)) as [[rf' [log1 w2]] errw] eqn:Hwalk.
  apply Walk_spec in Hwalk as (tr & Hem & Hok). rewrite Hevs in Hem. simpl in Hem.
  destruct errw as [e |]; simpl.
  - exists tr, rf', (Some e), 0%nat. rewrite Hem. simpl. by rewrite app_nil_r.
  - destruct (only_remote (traced (lift_cb cb)) (ro rf') (log1, w2)) as [[log2 w3] err] eqn:Hrem.
    apply only_remote_spec in Hrem as (n & Hem2 & Hall). simpl.
    exists tr, rf', None, n. rewrite Hem2, Hem. split; [done |]. split; [done |].
    split; [| done]. intros ->. split; [done | by apply Hall].
Qed.

End DiffSpec.

(** C3. Over a local tree whose files have distinct relative paths, no
    path is passed to the callback twice; and in a diff that returns nil
    every relative path is classified exactly once: a path only local is
    passed to the callback once, as OnlyLocal; a path only remote once,
    as OnlyRemote; a path on both sides once as Mismatch or not at all
    (a Match, which is not emitted); a path on neither side never. *)
Theorem each_path_classified_once {W} (sys : Sys W) ro local remote skip
    (cb : WalkDiffsCallback W) (w : W) (p : string) :
  let L := local_inventory sys local remote skip w in
  let R := remote_inventory sys remote w in
  let tr := emissions (diff_log sys ro local remote skip cb w) in
  NoDup L ->
  NoDup (tr.*1)
  /\ (diff_err sys ro local remote skip cb w = None ->
      (p ∈ L -> R !! p = None -> of_path p tr = [(p, DiffResultOnlyExistsLocal)])
      /\ (p ∉ L -> is_Some (R !! p) -> of_path p tr = [(p, DiffResultOnlyExistsRemote)])
      /\ (p ∈ L -> is_Some (R !! p) ->
          of_path p tr = [(p, DiffResultMismatch)] \/ of_path p tr = [])
      /\ (p ∉ L -> R !! p = None -> of_path p tr = [])).
Proof.
  intros L R tr HL. subst tr. unfold diff_log, diff_err in *.
  destruct (WalkDiffs_spec sys ro local remote skip cb w)
    as (tr & rf' & errw & n & -> & Hok & Hnil & Hzero).
  fold L R in Hok. destruct Hok as [Ha Hb Hc Hd He Hf Hg].
  assert (Hnd : NoDup (tr.*1)) by (by eapply sublist_NoDup).
  assert (Htr : forall q d, (q, d) ∈ tr -> q ∈ L).
  { intros q d Hin. apply (sublist_subseteq _ _ Ha). apply list_elem_of_fmap. by exists (q, d). }
  assert (Hfst : forall l : list string,
             (map (fun q => (q, DiffResultOnlyExistsRemote)) l).*1 = l).
  { intros l. induction l; simpl; [done | by f_equal]. }
  split.
  - rewrite fmap_app, Hfst. destruct errw as [e |].
    + rewrite (Hzero ltac:(done)), take_0, app_nil_r. done.
    + apply NoDup_app. split; [done |]. split.
      * intros q Hq1 Hq2. apply list_elem_of_fmap in Hq1 as ([q1 d1] & -> & Hin1).
        apply (sublist_subseteq _ _ (sublist_take _ _)) in Hq2.
        apply range_order_elem_of in Hq2. rewrite (He eq_refl) in Hq2. simpl in Hq2.
        rewrite decide_True in Hq2 by eauto. by destruct Hq2.
      * apply (sublist_NoDup _ (ro rf')); [apply range_order_NoDup | apply sublist_take].
  - intros Herr. destruct (Hnil Herr) as [-> ->].
    specialize (He eq_refl). specialize (Hf eq_refl).
    assert (Hkeys : forall q, q ∈ ro rf' <-> (q ∉ L) /\ is_Some (R !! q)).
    { intros q. rewrite range_order_elem_of, He.
      destruct (decide (q ∈ L)) as [HqL | HqL]; split.
      - by intros [? ?].
      - by intros [? _].
      - by intros ?.
      - by intros [_ ?]. }
    assert (Hrem : of_path p (map (fun q => (q, DiffResultOnlyExistsRemote)) (ro rf'))
                   = if decide (p ∈ ro rf') then [(p, DiffResultOnlyExistsRemote)] else []).
    { apply of_path_keys, range_order_NoDup. }
    rewrite of_path_app, Hrem.
    repeat split.
    + intros HpL HpR. rewrite decide_False.
      2: { rewrite Hkeys. intros [_ [? ?]]. congruence. }
      rewrite app_nil_r. apply of_path_unique; [done |]. by apply Hf.
    + intros HpL HpR. rewrite decide_True by (by apply Hkeys).
      rewrite of_path_notin; [done |].
      intros Hin. apply list_elem_of_fmap in Hin as ([q d] & -> & Hin). eauto.
    + intros HpL HpR. rewrite decide_False.
      2: { rewrite Hkeys. by intros [? _]. }
      rewrite app_nil_r.
      destruct (decide (p ∈ tr.*1)) as [Hin | Hnin].
      * left. apply list_elem_of_fmap in Hin as ([q d] & -> & Hin). simpl in *.
        apply of_path_unique; [done |].
        destruct (Hb q d Hin) as [-> | [-> _]]; [| done].
        apply (Hc HL) in Hin. rewrite Hin in HpR. by destruct HpR.
      * right. by apply of_path_notin.
    + intros HpL HpR. rewrite decide_False.
      2: { rewrite Hkeys. intros [_ [? ?]]. congruence. }
      rewrite app_nil_r. apply of_path_notin.
      intros Hin. apply list_elem_of_fmap in Hin as ([q d] & -> & Hin). eauto.
Qed.

Lemma local_path_Some {W} (sys : Sys W) local skip e p :
  local_path sys local skip e = Some p <->
  we_walkErr e = None /\ IsDir (we_info e) = false
  /\ filepath_Rel sys local (we_file e) = Ok p
  /\ skipped skip p (we_info e) = false.
Proof.
  unfold local_path. destruct (we_walkErr e).
  { split; [done | by intros [? _]]. }
  destruct (IsDir (we_info e)).
  { split; [done | by intros (_ & ? & _)]. }
  destruct (filepath_Rel sys local (we_file e)) as [q | err].
  2: { split; [done | by intros (_ & _ & ? & _)]. }
  destruct (skipped skip q (we_info e)) eqn:Hs.
  - split; [done |]. intros (_ & _ & [= ->] & ?). congruence.
  - split.
    + intros [= ->]. by rewrite Hs.
    + by intros (_ & _ & [= ->] & _).
Qed.

Lemma elem_of_local_paths {W} (sys : Sys W) local skip entries p :
  p ∈ local_paths sys local skip entries <->
  exists e, e ∈ entries /\ we_walkErr e = None /\ IsDir (we_info e) = false
            /\ filepath_Rel sys local (we_file e) = Ok p
            /\ skipped skip p (we_info e) = false.
Proof.
  unfold local_paths. rewrite list_elem_of_omap.
  split; intros (e & He & H); exists e; (split; [done |]); by apply local_path_Some.
Qed.

(** C2, as the code has it. A file for which the skip predicate returns
    true is left out of the walk: every OnlyLocal or Mismatch
    classification is of a file of the walk that the predicate does not
    skip, and no Match is emitted at all.  The remote inventory is not
    filtered: in a diff that returns nil, a remote path that no
    unskipped local file has is emitted as OnlyRemote, also when a
    skipped local file has it. *)
Theorem skipped_file_left_out_of_walk {W} (sys : Sys W) ro local remote skip
    (cb : WalkDiffsCallback W) (w : W) :
  let L := local_inventory sys local remote skip w in
  let R := remote_inventory sys remote w in
  let tr := emissions (diff_log sys ro local remote skip cb w) in
  (forall p d, (p, d) ∈ tr ->
     (d = DiffResultOnlyExistsRemote /\ is_Some (R !! p))
     \/ ((d = DiffResultOnlyExistsLocal \/ d = DiffResultMismatch)
         /\ exists e, e ∈ filepath_Walk sys local (list_remote sys remote w).1
                      /\ we_walkErr e = None /\ IsDir (we_info e) = false
                      /\ filepath_Rel sys local (we_file e) = Ok p
                      /\ skipped skip p (we_info e) = false))
  /\ (diff_err sys ro local remote skip cb w = None ->
      forall p, p ∉ L -> is_Some (R !! p) -> (p, DiffResultOnlyExistsRemote) ∈ tr).
Proof.
  intros L R tr. subst tr. unfold diff_log, diff_err in *.
  destruct (WalkDiffs_spec sys ro local remote skip cb w)
    as (tr & rf' & errw & n & -> & Hok & Hnil & Hzero).
  fold L R in Hok. destruct Hok as [Ha Hb Hc Hd He Hf Hg].
  split.
  - intros p d Hin. apply elem_of_app in Hin as [Hin | Hin].
    + right. split.
      * destruct (Hb p d Hin) as [-> | [-> _]]; auto.
      * apply elem_of_local_paths. apply (sublist_subseteq _ _ Ha).
        apply list_elem_of_fmap. by exists (p, d).
    + left. apply list_elem_of_fmap in Hin as (q & [= -> ->] & Hin).
      split; [done |]. apply (sublist_subseteq _ _ (sublist_take _ _)) in Hin.
      apply range_order_elem_of in Hin. eapply lookup_weaken_is_Some; eauto.
  - intros Herr p HpL HpR. destruct (Hnil Herr) as [-> ->].
    apply elem_of_app. right. apply list_elem_of_fmap. exists p. split; [done |].
    apply range_order_elem_of. rewrite (He eq_refl). by rewrite decide_False.
Qed.

Lemma range_order_empty (ro : RangeOrder) : ro ∅ = [].
Proof.
  apply Permutation_nil_r. rewrite (range_keys_perm ro ∅).
  by rewrite map_to_list_empty.
Qed.

(** C8, as the code has it. When the listing fails: an error whose
    message does not start with [path/not_found/] is returned as it is,
    with no callback.  Otherwise the remote folder is created; an error
    of that call is returned, with no callback; when it succeeds the
    remote inventory is empty, every classification is OnlyLocal, and a
    diff that returns nil has classified every local file so. *)
Theorem absent_namespace {W} (sys : Sys W) ro local remote skip
    (cb : WalkDiffsCallback W) (w w1 : W) err :
  let arg := mkListFolderArg remote false true false in
  let create := client_CreateFolderV2 sys remote w1 in
  let run := WalkDiffs (logged sys) ro local remote skip (traced (lift_cb cb)) ([], w) in
  client_ListFolder sys arg w = (w1, Fail err) ->
  (String.prefix "path/not_found/" (Error err) = false ->
     run = (([EvListFolder arg (Some err)], w1), Some err))
  /\ (String.prefix "path/not_found/" (Error err) = true ->
      (forall err', create.2 = Some err' ->
         run = (([EvListFolder arg (Some err); EvCreateFolderV2 remote (Some err')],
                 create.1), Some err'))
      /\ (create.2 = None ->
          (forall f d, (f, d) ∈ emissions run.1.1 -> d = DiffResultOnlyExistsLocal)
          /\ (run.2 = None ->
              emissions run.1.1
              = map (fun p => (p, DiffResultOnlyExistsLocal))
                    (local_paths sys local skip (filepath_Walk sys local create.1))))).
Proof.
  intros arg create run Hlist. subst run. split; [| intros Hfound; split].
  - intros Hpre. unfold WalkDiffs, list_remote. simpl. unfold log_res. simpl.
    fold arg. rewrite Hlist. simpl. by rewrite Hpre.
  - intros err' Hcreate. unfold WalkDiffs, list_remote. simpl. unfold log_res, log_err. simpl.
    fold arg. rewrite Hlist. simpl. rewrite Hfound. fold create.
    destruct create as [w2 o]. simpl in *. by subst o.
  - intros Hcreate.
    destruct (WalkDiffs_spec sys ro local remote skip cb w)
      as (tr & rf' & errw & n & -> & Hok & Hnil & Hzero).
    assert (Hrem : list_remote sys remote w = (create.1, Ok [])).
    { unfold list_remote. fold arg. rewrite Hlist, Hfound. fold create.
      destruct create as [w2 o]. simpl in *. by subst o. }
    unfold local_inventory, remote_inventory in Hok. rewrite Hrem in Hok. simpl in Hok.
    destruct Hok as [Ha Hb Hc Hd He Hf Hg].
    assert (rf' = ∅) as ->.
    { apply map_eq. intros i. rewrite lookup_empty.
      eapply lookup_weaken_None; [apply lookup_empty | exact Hd]. }
    rewrite range_order_empty, take_nil. simpl. rewrite app_nil_r. split.
    + intros f d Hin. destruct (Hb f d Hin) as [-> | [_ Hsome]]; [done |].
      rewrite lookup_empty in Hsome. by destruct Hsome.
    + intros Herr. destruct (Hnil Herr) as [-> _]. by apply Hg.
Qed.

(** ** Runs in the simulated world *)

Example sha256_abc :
  hex (SHA256.Sum256 (bytes_of_string "abc"))
  = "ba7816bf8f01cfea414140de5dae2223b00361a396177a9cb410ff61f20015ad"%string.
Proof. vm_compute. reflexivity. Qed.

Example sha256_empty :
  hex (SHA256.Sum256 [])
  = "e3b0c44298fc1c149afbf4c8996fb92427ae41e4649b934ca495991b7852b855"%string.
Proof. vm_compute. reflexivity. Qed.

Example sha256_two_blocks :
  hex (SHA256.Sum256 (repeat "a"%byte 120))
  = "2f3d335432c70b580af0e8e1b3674a7c020d683aa5f73aaaedfdc55af904c21c"%string.
Proof. vm_compute. reflexivity. Qed.

(** C1, at two readers of the same bytes. [ContentHash] takes a read
    that does not fill the buffer for the end of the stream: of the
    reader that delivers "12" in two reads it hashes the first byte
    only, and the result differs from the hash of the reader that
    delivers both bytes at once. *)
Theorem ContentHash_depends_on_reads :
  content split_reader = content whole_reader
  /\ ContentHash whole_reader
     = Ok "778cd1ef949ae90bddcffbb0143f043a086641c8d768a83ff0881d7fcdbfab3c"%string
  /\ ContentHash split_reader
     = Ok "9c2e4d8fe97d881430de4e754b4205b9c27ce96715231cffc4337340cb110280"%string
  /\ ContentHash split_reader = ContentHash [(bytes_of_string "1", None)]
  /\ ContentHash split_reader <> ContentHash whole_reader.
Proof. vm_compute. repeat split; try reflexivity. discriminate. Qed.

(** C9, at a path whose sizes agree and whose hashes differ. The
    callback returns an error for the Mismatch of [a]; the walk goes on,
    [b] and [c] are passed to the callback after it, and the diff
    returns nil. *)
Theorem callback_error_lost_on_hash_mismatch :
  fails_on_mismatch "a" DiffResultMismatch w_mismatch
  = (w_mismatch, Some (Err "upload failed"))
  /\ emissions (diff_log sim default_order "/l" "/r" None fails_on_mismatch w_mismatch)
     = [("a", DiffResultMismatch); ("b", DiffResultOnlyExistsLocal);
        ("c", DiffResultOnlyExistsRemote)]%string
  /\ diff_err sim default_order "/l" "/r" None fails_on_mismatch w_mismatch = None.
Proof. vm_compute. repeat split; reflexivity. Qed.

(** C5, at a push whose one upload fails. The local [x] and the remote
    [x] have the same size and different contents; the backend rejects
    the upload; the push returns nil all the same, the remote file is
    what it was, and the diff that follows classifies [x] as Mismatch:
    a second push uploads it again. *)
Theorem push_not_idempotent_after_lost_error :
  let first := Upload (logged sim) repo0 "demo"
                 (observed (DropboxService (logged sim) default_order)) ([], w_push_fault) in
  first.2 = None
  /\ last first.1.1
     = Some (EvUpload (mkCommitInfo "/demo/x" "overwrite" 0) (bytes_of_string "x1")
               (Some (Err "connection reset by peer")))
  /\ under "/demo" (w_remote first.1.2) = [("/demo/x"%string, bytes_of_string "x2")]
  /\ emissions (diff_log sim default_order "/home/u/projects/demo" "/demo" None
                  never_fails first.1.2)
     = [("x", DiffResultMismatch)]%string
  /\ omap top (push_log sim default_order repo0 "demo" first.1.2)
     = [inl ("x", DiffResultMismatch);
        inr (ActUpload "/home/u/projects/demo/x" "/demo/x")]%string.
Proof. cbv zeta. repeat split; vm_compute; reflexivity. Qed.

(** C2, at a skipped local file that also exists remotely: the path is
    passed to the callback, as OnlyRemote. *)
Lemma skipped_file_emitted_only_remote :
  filepath_Walk sim "/l" w_skip
  = [mkWalkEntry "/l" (mkFileInfo true 4096) None;
     mkWalkEntry "/l/a" (mkFileInfo false 2) None]
  /\ filepath_Rel sim "/l" "/l/a" = Ok "a"%string
  /\ skipped (Some skip_a) "a" (mkFileInfo false 2) = true
  /\ emissions (diff_log sim default_order "/l" "/r" (Some skip_a) never_fails w_skip)
     = [("a", DiffResultOnlyExistsRemote)]%string.
Proof. vm_compute. repeat split; reflexivity. Qed.

Lemma skipped_file_left_out_of_walk_witness :
  diff_err sim default_order "/l" "/r" (Some skip_a) never_fails w_skip = None
  /\ ("a"%string ∉ local_inventory sim "/l" "/r" (Some skip_a) w_skip)
  /\ is_Some (remote_inventory sim "/r" w_skip !! "a"%string)
  /\ (("a"%string, DiffResultOnlyExistsRemote)
        ∈ emissions (diff_log sim default_order "/l" "/r" (Some skip_a) never_fails w_skip)).
Proof.
  assert (H1 : diff_err sim default_order "/l" "/r" (Some skip_a) never_fails w_skip = None)
    by (vm_compute; reflexivity).
  assert (H2 : "a"%string ∉ local_inventory sim "/l" "/r" (Some skip_a) w_skip)
    by (vm_compute; apply not_elem_of_nil).
  assert (H3 : is_Some (remote_inventory sim "/r" w_skip !! "a"%string))
    by (vm_compute; eexists; reflexivity).
  do 3 (split; [assumption |]).
  exact (proj2 (skipped_file_left_out_of_walk sim default_order "/l" "/r" (Some skip_a)
                  never_fails w_skip) H1 "a"%string H2 H3).
Defined.

(** C8, at a namespace that does not exist while the backend rejects
    the next request: the listing answers not-found, the folder cannot
    be created, and the diff fails without a callback although a local
    file exists. *)
Lemma absent_namespace_diff_fails :
  (client_ListFolder sim (mkListFolderArg "/r" false true false) (w_absent 1)).2
  = Fail (Err "path/not_found/.")
  /\ local_inventory sim "/l" "/r" None (w_absent 1) = ["a"%string]
  /\ diff_err sim default_order "/l" "/r" None never_fails (w_absent 1)
     = Some (Err "connection reset by peer")
  /\ emissions (diff_log sim default_order "/l" "/r" None never_fails (w_absent 1)) = [].
Proof. vm_compute. repeat split; reflexivity. Qed.

Lemma absent_namespace_witness :
  client_ListFolder sim (mkListFolderArg "/r" false true false) (w_absent 0)
  = (w_absent 0, Fail (Err "path/not_found/."))
  /\ emissions (diff_log sim default_order "/l" "/r" None never_fails (w_absent 0))
     = [("a"%string, DiffResultOnlyExistsLocal)].
Proof.
  split; [reflexivity |].
  refine (proj2 (proj2 (proj2 (absent_namespace sim default_order "/l" "/r" None never_fails
            (w_absent 0) (w_absent 0) (Err "path/not_found/.") eq_refl) eq_refl) eq_refl) _).
  vm_compute. reflexivity.
Defined.

Lemma each_path_classified_once_witness :
  NoDup (local_inventory sim "/l" "/r" None w_scenario)
  /\ diff_err sim default_order "/l" "/r" None never_fails w_scenario = None
  /\ of_path "c.txt" (emissions (diff_log sim default_order "/l" "/r" None never_fails w_scenario))
     = [("c.txt"%string, DiffResultOnlyExistsRemote)].
Proof.
  assert (H1 : NoDup (local_inventory sim "/l" "/r" None w_scenario))
    by (apply (bool_decide_unpack _); vm_compute; reflexivity).
  assert (H2 : diff_err sim default_order "/l" "/r" None never_fails w_scenario = None)
    by (vm_compute; reflexivity).
  do 2 (split; [assumption |]).
  refine (proj1 (proj2 (proj2 (each_path_classified_once sim default_order "/l" "/r" None
            never_fails w_scenario "c.txt" H1) H2)) _ _).
  - apply (bool_decide_unpack _). vm_compute. reflexivity.
  - vm_compute. eexists. reflexivity.
Defined.

(** ** Observation changes nothing

    Forgetting the log, a run in the logged world is the run in the
    plain world: the properties of observed runs are properties of the
    program. *)

Lemma log_err_forget {W} ev (op : W -> W * option error) lw :
  forget (log_err ev op lw) = op lw.2.
Proof. unfold forget, log_err. by destruct (op lw.2). Qed.

Lemma log_res_forget {W A} ev (op : W -> W * result A) lw :
  forget (log_res ev op lw) = op lw.2.
Proof. unfold forget, log_res. by destruct (op lw.2). Qed.

Lemma forget_eq {W A} (x : Logged W * A) (y : W * A) :
  forget x = y -> exists log, x = ((log, y.1), y.2).
Proof. destruct x as [[log w] a]. intros <-. by exists log. Qed.

Section Forget.

Context {W : Type}.
Variable sys : Sys W.
Variable ro : RangeOrder.

Lemma HashLocal_forget file (lw : Logged W) :
  forget (HashLocal (logged sys) file lw) = HashLocal sys file lw.2.
Proof.
  unfold HashLocal. simpl.
  destruct (forget_eq _ _ (log_res_forget (EvOpen file) (os_Open sys file) lw)) as [log ->].
  by destruct (os_Open sys file lw.2) as [w' [f | err]].
Qed.

Lemma upload_append_forget fuel sid size written f (lw : Logged W) :
  forget (upload_append (logged sys) fuel sid size written f lw)
  = upload_append sys fuel sid size written f lw.2.
Proof.
  revert written f lw. induction fuel as [| fuel IH]; intros written f lw; simpl.
  - by destruct (chunkSize <? size - written).
  - destruct (chunkSize <? size - written); [| done].
    destruct (split_at chunkSize f) as [chunk f'].
    destruct (forget_eq _ _ (log_err_forget
      (EvUploadSessionAppendV2 (mkCursor sid (uint64 written)) chunk)
      (client_UploadSessionAppendV2 sys (mkCursor sid (uint64 written)) chunk) lw))
      as [log ->].
    destruct (client_UploadSessionAppendV2 sys _ chunk lw.2) as [w' [err |]]; [done |].
    simpl. by rewrite IH.
Qed.

Lemma Dropbox_Upload_forget local remote (lw : Logged W) :
  forget (Dropbox_Upload (logged sys) local remote lw) = Dropbox_Upload sys local remote lw.2.
Proof.
  unfold Dropbox_Upload. simpl.
  destruct (forget_eq _ _ (log_res_forget (EvOpen local) (os_Open sys local) lw)) as [log0 ->].
  destruct (os_Open sys local lw.2) as [w0 [file | err]]; simpl; [| done].
  destruct (f_Stat file) as [info | err]; [| done].
  destruct (chunkSize <? FileSize info).
  - destruct (split_at chunkSize (content (f_reader file))) as [chunk f1].
    destruct (forget_eq _ _ (log_res_forget (EvUploadSessionStart chunk)
      (client_UploadSessionStart sys chunk) (log0, w0))) as [log1 ->]. simpl.
    destruct (client_UploadSessionStart sys chunk w0) as [w1 [sid | err]]; simpl; [| done].
    destruct (forget_eq _ _ (upload_append_forget
      (Z.to_nat (FileSize info / chunkSize)) sid (FileSize info) chunkSize f1 (log1, w1)))
      as [log2 ->]. simpl.
    destruct (upload_append sys _ sid _ chunkSize f1 w1) as [w2 [[written f2] | err]];
      simpl; [| done].
    apply log_err_forget.
  - apply log_err_forget.
Qed.

Lemma Dropbox_Delete_forget remote (lw : Logged W) :
  forget (Dropbox_Delete (logged sys) remote lw) = Dropbox_Delete sys remote lw.2.
Proof. apply log_err_forget. Qed.

Lemma Dropbox_Download_forget local remote (lw : Logged W) :
  forget (Dropbox_Download (logged sys) local remote lw)
  = Dropbox_Download sys local remote lw.2.
Proof.
  unfold Dropbox_Download. simpl.
  destruct (forget_eq _ _ (log_res_forget (EvDownload remote)
    (client_Download sys remote) lw)) as [log1 ->].
  destruct (client_Download sys remote lw.2) as [w1 [body | err]]; simpl; [| done].
  destruct (forget_eq _ _ (log_err_forget (EvMkdirAll (path_Dir sys local) perm_0775)
    (os_MkdirAll sys (path_Dir sys local) perm_0775) (log1, w1))) as [log2 ->]. simpl.
  destruct (os_MkdirAll sys (path_Dir sys local) perm_0775 w1) as [w2 [err |]]; simpl; [done |].
  destruct (forget_eq _ _ (log_err_forget (EvCreate local)
    (os_Create sys local) (log2, w2))) as [log3 ->]. simpl.
  destruct (os_Create sys local w2) as [w3 [err |]]; simpl; [done |].
  apply log_err_forget.
Qed.

Variable cb' : WalkDiffsCallback (Logged W).
Variable cb : WalkDiffsCallback W.
Hypothesis cb_forget : forall f d lw, forget (cb' f d lw) = cb f d lw.2.

Lemma traced_forget f d lw : forget (traced cb' f d lw) = cb f d lw.2.
Proof. unfold traced. by rewrite cb_forget. Qed.

Lemma walkFn_forget local skip e rf (lw : Logged W) :
  forget3 (walkFn (logged sys) local skip (traced cb') e rf lw)
  = walkFn sys local skip cb e rf lw.2.
Proof.
  unfold walkFn. simpl.
  destruct (we_walkErr e); [done |].
  destruct (IsDir (we_info e)); [done |].
  destruct (filepath_Rel sys local (we_file e)) as [p | err]; [| done].
  destruct (skipped skip p (we_info e)); [done |].
  destruct (rf !! p) as [md |].
  - destruct (negb (Size md =? uint64 (FileSize (we_info e)))).
    + destruct (forget_eq _ _ (traced_forget p DiffResultMismatch lw)) as [log ->].
      by destruct (cb p DiffResultMismatch lw.2) as [w' [err |]].
    + destruct (forget_eq _ _ (HashLocal_forget (we_file e) lw)) as [log ->].
      destruct (HashLocal sys (we_file e) lw.2) as [w1 [hash | err]]; simpl; [| done].
      destruct (negb (ContentHash_ md =? hash)%string); [| done].
      destruct (forget_eq _ _ (traced_forget p DiffResultMismatch (log, w1))) as [log' ->].
      simpl. by destruct (cb p DiffResultMismatch w1) as [w' err].
  - destruct (forget_eq _ _ (traced_forget p DiffResultOnlyExistsLocal lw)) as [log ->].
    by destruct (cb p DiffResultOnlyExistsLocal lw.2) as [w' err].
Qed.

Lemma Walk_forget local skip entries rf (lw : Logged W) :
  forget3 (Walk (logged sys) local skip (traced cb') entries rf lw)
  = Walk sys local skip cb entries rf lw.2.
Proof.
  revert rf lw. induction entries as [| e rest IH]; intros rf lw; cbn [Walk]; [done |].
  pose proof (walkFn_forget local skip e rf lw) as Hstep.
  destruct (walkFn (logged sys) local skip (traced cb') e rf lw) as [[rf1 lw1] err1].
  unfold forget3 in Hstep. simpl in Hstep. rewrite <- Hstep.
  destruct err1; [done |]. apply IH.
Qed.

Lemma only_remote_forget paths (lw : Logged W) :
  forget (only_remote (traced cb') paths lw) = only_remote cb paths lw.2.
Proof.
  revert lw. induction paths as [| p rest IH]; intros lw; simpl; [done |].
  destruct (forget_eq _ _ (traced_forget p DiffResultOnlyExistsRemote lw)) as [log ->].
  destruct (cb p DiffResultOnlyExistsRemote lw.2) as [w' [err |]]; [done |].
  simpl. by rewrite IH.
Qed.

Lemma list_remote_forget remote (lw : Logged W) :
  forget (list_remote (logged sys) remote lw) = list_remote sys remote lw.2.
Proof.
  destruct lw as [log w]. destruct (list_remote_logged sys remote log w) as (evs & -> & _).
  unfold forget. simpl. by destruct (list_remote sys remote w).
Qed.

Lemma WalkDiffs_forget local remote skip (lw : Logged W) :
  forget (WalkDiffs (logged sys) ro local remote skip (traced cb') lw)
  = WalkDiffs sys ro local remote skip cb lw.2.
Proof.
  unfold WalkDiffs.
  destruct (forget_eq _ _ (list_remote_forget remote lw)) as [log1 ->].
  destruct (list_remote sys remote lw.2) as [w1 [entList | err]]; simpl; [| done].
  change (remote_files (logged sys) remote entList ∅)
    with (remote_files sys remote entList ∅).
  destruct (remote_files sys remote entList ∅) as [rf | err]; [| done].
  pose proof (Walk_forget local skip (filepath_Walk sys local w1) rf (log1, w1)) as Hwalk.
  simpl in Hwalk.
  destruct (Walk (logged sys) local skip (traced cb') _ rf (log1, w1)) as [[rf' lw2] errw].
  unfold forget3 in Hwalk. simpl in Hwalk. rewrite <- Hwalk.
  destruct errw; [done |]. apply only_remote_forget.
Qed.

End Forget.

(** The observed diff, push and pull are the plain ones. *)
Lemma diff_observed {W} (sys : Sys W) ro local remote skip (cb : WalkDiffsCallback W) lw :
  forget (WalkDiffs (logged sys) ro local remote skip (traced (lift_cb cb)) lw)
  = WalkDiffs sys ro local remote skip cb lw.2.
Proof.
  apply WalkDiffs_forget. intros f d lw'. unfold forget, lift_cb.
  by destruct (cb f d lw'.2).
Qed.

Lemma push_observed {W} (sys : Sys W) ro fr name (lw : Logged W) :
  forget (Upload (logged sys) fr name (observed (DropboxService (logged sys) ro)) lw)
  = Upload sys fr name (DropboxService sys ro) lw.2.
Proof.
  unfold Upload. simpl.
  destruct (forget_eq _ _ (log_res_forget (EvStat (RepoPath sys fr name))
    (os_Stat sys (RepoPath sys fr name)) lw)) as [log0 Heq].
  unfold RepoPath in *. simpl in *. rewrite Heq.
  destruct (os_Stat sys _ lw.2) as [w0 [info | err]]; simpl.
  - apply WalkDiffs_forget. intros f d lw'. unfold Upload_callback.
    destruct d; simpl; try done.
    + exact (Dropbox_Upload_forget sys _ _ (record _ lw')).
    + exact (Dropbox_Delete_forget sys _ (record _ lw')).
    + exact (Dropbox_Upload_forget sys _ _ (record _ lw')).
  - by destruct (decide (err = ErrNotExist)).
Qed.

Lemma pull_observed {W} (sys : Sys W) ro fr name (lw : Logged W) :
  forget (Pull (logged sys) fr name (observed (DropboxService (logged sys) ro)) lw)
  = Pull sys fr name (DropboxService sys ro) lw.2.
Proof.
  unfold Pull. simpl.
  destruct (forget_eq _ _ (log_err_forget (EvMkdirAll (RepoPath sys fr name) projectFolderPerm)
    (os_MkdirAll sys (RepoPath sys fr name) projectFolderPerm) lw)) as [log0 Heq].
  unfold RepoPath in *. simpl in *. rewrite Heq.
  destruct (os_MkdirAll sys _ _ lw.2) as [w0 err]; simpl.
  apply WalkDiffs_forget. intros f d lw'. unfold Pull_callback.
  destruct d; simpl; try done.
  - exact (Dropbox_Download_forget sys _ _ (record _ lw')).
  - exact (Dropbox_Download_forget sys _ _ (record _ lw')).
  - apply log_err_forget.
Qed.

(** ** ContentHash: termination, and readers that fill the buffer *)

Lemma len_app {A} (a b : list A) : len (a ++ b) = len a + len b.
Proof. unfold len. rewrite length_app. lia. Qed.

Lemma len_nonneg {A} (l : list A) : 0 <= len l.
Proof. unfold len. lia. Qed.

Lemma len_cons {A} (x : A) l : len (x :: l) = 1 + len l.
Proof. unfold len. simpl. lia. Qed.

Lemma split_at_app {A} n (l a b : list A) : split_at n l = (a, b) -> l = (a ++ b)%list.
Proof.
  revert n a b. induction l as [| x l IH]; intros n a b; simpl.
  - by intros [= <- <-].
  - destruct (n <=? 0); [by intros [= <- <-] |].
    destruct (split_at (n - 1) l) as [a' b'] eqn:E. intros [= <- <-].
    simpl. f_equal. by eapply IH.
Qed.

Lemma split_at_len {A} n (l a b : list A) :
  0 <= n <= len l -> split_at n l = (a, b) -> len a = n.
Proof.
  revert n a b. induction l as [| x l IH]; intros n a b Hn; simpl.
  - intros [= <- <-]. unfold len in *. simpl in *. lia.
  - destruct (n <=? 0) eqn:Hle.
    + intros [= <- <-]. apply Z.leb_le in Hle. unfold len. simpl. lia.
    + apply Z.leb_gt in Hle. destruct (split_at (n - 1) l) as [a' b'] eqn:E.
      intros [= <- <-]. rewrite len_cons. rewrite len_cons in Hn.
      rewrite (IH (n - 1) a' b'); [lia | lia | done].
Qed.

Lemma split_at_all {A} n (l : list A) : len l <= n -> split_at n l = (l, []).
Proof.
  revert n. induction l as [| x l IH]; intros n Hn; simpl; [done |].
  rewrite len_cons in Hn. pose proof (len_nonneg l).
  destruct (n <=? 0) eqn:Hle; [apply Z.leb_le in Hle; lia |].
  by rewrite IH by lia.
Qed.

Lemma hashBlockSize_pos : 0 < hashBlockSize.
Proof. reflexivity. Qed.

Lemma reader_fuel_cons d e (rest : Reader) :
  reader_fuel ((d, e) :: rest)
  = S (length rest + Z.to_nat ((len d + len (content rest)) / hashBlockSize)).
Proof. unfold reader_fuel, content. simpl. by rewrite len_app. Qed.

(** A read of a reader that is not exhausted leaves less to read. *)
Lemma Read_fuel (r : Reader) :
  r <> [] -> (reader_fuel (Read r hashBlockSize).2 < reader_fuel r)%nat.
Proof.
  pose proof hashBlockSize_pos as HB.
  destruct r as [| [d e] rest]; [done |]. intros _.
  unfold Read. rewrite reader_fuel_cons.
  pose proof (len_nonneg d). pose proof (len_nonneg (content rest)).
  destruct (len d <=? hashBlockSize) eqn:Hle.
  - simpl. unfold reader_fuel.
    assert (len (content rest) / hashBlockSize
            <= (len d + len (content rest)) / hashBlockSize)
      by (apply Z.div_le_mono; lia).
    lia.
  - apply Z.leb_gt in Hle.
    destruct (split_at hashBlockSize d) as [a b] eqn:E. simpl.
    rewrite reader_fuel_cons.
    pose proof (split_at_len hashBlockSize d a b ltac:(lia) E) as Ha.
    apply split_at_app in E. subst d. rewrite len_app in *.
    pose proof (len_nonneg b).
    replace (len a + len b + len (content rest))
      with (1 * hashBlockSize + (len b + len (content rest))) by lia.
    rewrite Z.div_add_l by lia.
    assert (0 <= (len b + len (content rest)) / hashBlockSize)
      by (apply Z.div_pos; lia).
    lia.
Qed.

(** The loop always returns: the fuel [ContentHash] gives it is enough. *)
Lemma ContentHash_loop_returns fuel (r : Reader) n err acc :
  (reader_fuel r < fuel)%nat -> is_Some (ContentHash_loop fuel r n err acc).
Proof.
  revert r n err acc. induction fuel as [| fuel IH]; intros r n err acc Hfuel; [lia |].
  cbn [ContentHash_loop].
  destruct ((n =? hashBlockSize) && is_nil err); [| by eexists].
  pose proof (Read_fuel r) as Hread.
  destruct r as [| c rest].
  - cbn [Read fatal_read_error]. rewrite decide_True by done.
    destruct fuel; cbn [ContentHash_loop]; by eexists.
  - destruct (Read (c :: rest) hashBlockSize) as [[data err'] r'].
    destruct (fatal_read_error err'); [by eexists |].
    apply IH. simpl in Hread. specialize (Hread ltac:(done)). lia.
Qed.

Lemma ContentHash_as_loop (r : Reader) :
  ContentHash_loop (S (reader_fuel r)) r hashBlockSize None [] = Some (ContentHash r).
Proof.
  unfold ContentHash. cbn [ContentHash_loop].
  rewrite Z.eqb_refl. cbn [is_nil andb].
  pose proof (Read_fuel r) as Hread.
  destruct r as [| c rest].
  - reflexivity.
  - destruct (Read (c :: rest) hashBlockSize) as [[data err'] r'].
    destruct (fatal_read_error err'); [done |].
    simpl in Hread. specialize (Hread ltac:(done)).
    destruct (ContentHash_loop_returns (reader_fuel (c :: rest)) r' (len data) err'
                (hash_block data []) Hread) as [res Hres].
    by rewrite Hres.
Qed.

Lemma chop_fuel n f f' (l : list byte) :
  0 < n -> (length l <= f)%nat -> (length l <= f')%nat -> chop f n l = chop f' n l.
Proof.
  intros Hn. revert f' l. induction f as [| f IH]; intros f' l Hf Hf'.
  - destruct l; [| simpl in Hf; lia]. by destruct f'.
  - destruct l as [| x l]; [by destruct f' |].
    destruct f' as [| f']; [simpl in Hf'; lia |].
    cbn [chop]. destruct (split_at n (x :: l)) as [a b] eqn:E.
    f_equal.
    assert (length b <= length l)%nat.
    { simpl in E. destruct (n <=? 0) eqn:Hle; [apply Z.leb_le in Hle; lia |].
      destruct (split_at (n - 1) l) as [a' b'] eqn:E'. injection E as <- <-.
      apply split_at_app in E'. subst l. rewrite length_app. lia. }
    simpl in Hf, Hf'. apply IH; lia.
Qed.

Lemma blocks_of_short (b : list byte) :
  b <> [] -> len b <= hashBlockSize -> blocks_of b = [b].
Proof.
  intros Hb Hlen. unfold blocks_of. destruct b as [| x b]; [done |].
  cbn [length chop]. rewrite split_at_all by done. by destruct (length b).
Qed.

Lemma blocks_of_long (b a b' : list byte) :
  hashBlockSize < len b -> split_at hashBlockSize b = (a, b') ->
  blocks_of b = a :: blocks_of b'.
Proof.
  intros Hlen E. unfold blocks_of. destruct b as [| x b].
  { unfold len in Hlen. simpl in Hlen. pose proof hashBlockSize_pos. lia. }
  cbn [length chop]. rewrite E. f_equal.
  apply chop_fuel; [apply hashBlockSize_pos | | done].
  pose proof (split_at_len hashBlockSize (x :: b) a b'
                ltac:(pose proof hashBlockSize_pos; lia) E) as Ha.
  apply split_at_app in E. apply (f_equal length) in E.
  rewrite length_app in E. simpl in E.
  unfold len in Ha. pose proof hashBlockSize_pos. lia.
Qed.

Lemma ContentHash_loop_whole fuel (b : list byte) e acc :
  (reader_fuel [(b, e)] < fuel)%nat ->
  fatal_read_error e = None ->
  ContentHash_loop fuel [(b, e)] hashBlockSize None acc
  = Some (Ok (hex (SHA256.Sum256 (acc ++ flat_map SHA256.Sum256 (blocks_of b))))).
Proof.
  pose proof hashBlockSize_pos as HB.
  revert b acc. induction fuel as [| fuel IH]; intros b acc Hfuel He; [lia |].
  cbn [ContentHash_loop]. rewrite Z.eqb_refl. cbn [is_nil andb Read].
  destruct (len b <=? hashBlockSize) eqn:Hle.
  - apply Z.leb_le in Hle. rewrite He.
    destruct ((len b =? hashBlockSize) && is_nil e) eqn:Hcond.
    + apply andb_prop in Hcond as [Hfull Hnil]. apply Z.eqb_eq in Hfull.
      rewrite reader_fuel_cons in Hfuel. unfold content in Hfuel. simpl in Hfuel.
      change (len []) with 0 in Hfuel. rewrite Z.add_0_r, Hfull, Z.div_same in Hfuel by lia.
      destruct fuel as [| fuel]; [simpl in Hfuel; lia |].
      cbn [ContentHash_loop]. rewrite Hfull, Z.eqb_refl, Hnil. cbn [andb Read fatal_read_error].
      rewrite decide_True by done.
      assert (Hexit : forall f acc', ContentHash_loop f [] (len (@nil byte)) (Some EOF) acc'
                                = Some (Ok (hex (SHA256.Sum256 acc')))).
      { intros f acc'. by destruct f. }
      rewrite Hexit. unfold hash_block. change (len []) with 0. rewrite Hfull.
      cbn [Z.ltb Z.compare]. assert ((0 <? hashBlockSize) = true) as -> by reflexivity.
      rewrite blocks_of_short; [cbn [flat_map]; by rewrite app_nil_r | | lia].
      intros ->. change (len []) with 0 in Hfull. lia.
    + assert (Hexit : ContentHash_loop fuel [] (len b) e (hash_block b acc)
                      = Some (Ok (hex (SHA256.Sum256 (hash_block b acc))))).
      { destruct fuel; cbn [ContentHash_loop]; by rewrite Hcond. }
      rewrite Hexit. unfold hash_block. destruct b as [| x b].
      * by rewrite app_nil_r.
      * rewrite len_cons. pose proof (len_nonneg b).
        assert ((0 <? 1 + len b) = true) as -> by (apply Z.ltb_lt; lia).
        rewrite blocks_of_short; [cbn [flat_map]; by rewrite app_nil_r | done | done].
  - apply Z.leb_gt in Hle.
    destruct (split_at hashBlockSize b) as [a b'] eqn:E.
    cbn [fatal_read_error].
    pose proof (split_at_len hashBlockSize b a b' ltac:(lia) E) as Ha.
    pose proof (Read_fuel [(b, e)] ltac:(done)) as Hread.
    unfold Read in Hread. assert ((len b <=? hashBlockSize) = false) as Hle' by (by apply Z.leb_gt).
    rewrite Hle', E in Hread. simpl in Hread.
    rewrite Ha, IH by (done || lia).
    unfold hash_block. rewrite Ha. assert ((0 <? hashBlockSize) = true) as -> by reflexivity.
    rewrite (blocks_of_long b a b') by done. cbn [flat_map]. by rewrite <- app_assoc.
Qed.

(** X1. A reader that gives its whole content to fill the buffer, with
    a nil error or EOF, is hashed to the content hash the backend
    declares: the SHA-256, in hexadecimal, of the SHA-256 digests of
    the blocks of 4 MiB of the content, put end to end. *)
Lemma ContentHash_whole (d : list byte) e :
  fatal_read_error e = None -> ContentHash [(d, e)] = Ok (declared_hash d).
Proof.
  intros He. pose proof (ContentHash_as_loop [(d, e)]) as H.
  rewrite ContentHash_loop_whole in H by (lia || done).
  by injection H as <-.
Qed.

(** X2. A first read that returns fewer bytes than the buffer holds,
    with a nil error, ends the hash: the result is the hash of those
    bytes alone, and what the reader would deliver next is never
    read. *)
Lemma ContentHash_short_read (d : list byte) (rest : Reader) :
  len d < hashBlockSize ->
  ContentHash ((d, None) :: rest) = Ok (hex (SHA256.Sum256 (hash_block d []))).
Proof.
  intros Hshort. unfold ContentHash. cbn [Read].
  assert ((len d <=? hashBlockSize) = true) as -> by (apply Z.leb_le; lia).
  cbn [fatal_read_error].
  assert (Hexit : forall fuel, ContentHash_loop fuel rest (len d) None (hash_block d [])
                          = Some (Ok (hex (SHA256.Sum256 (hash_block d []))))).
  { intros fuel. assert ((len d =? hashBlockSize) = false) as Hne by (apply Z.eqb_neq; lia).
    destruct fuel; cbn [ContentHash_loop]; by rewrite Hne. }
  by rewrite Hexit.
Qed.

(** ** The loops have fuel enough, and errors that are not lost *)

(** The loop of [Upload] ends because its condition fails, not for want
    of fuel. *)
Lemma upload_append_exit {W} (sys : Sys W) fuel sid size written f (w w' : W) written' f' :
  size - written <= chunkSize * (Z.of_nat fuel + 1) ->
  upload_append sys fuel sid size written f w = (w', Ok (written', f')) ->
  size - written' <= chunkSize.
Proof.
  revert written f w. induction fuel as [| fuel IH]; intros written f w Hfuel; cbn [upload_append].
  - destruct (chunkSize <? size - written) eqn:Hc.
    + apply Z.ltb_lt in Hc. lia.
    + apply Z.ltb_ge in Hc. by intros [= <- <- <-].
  - destruct (chunkSize <? size - written) eqn:Hc.
    + destruct (split_at chunkSize f) as [chunk f1].
      destruct (client_UploadSessionAppendV2 sys _ chunk w) as [w1 [err |]]; [done |].
      apply IH. lia.
    + apply Z.ltb_ge in Hc. by intros [= <- <- <-].
Qed.

Lemma Dropbox_Upload_fuel (size : Z) :
  size - chunkSize <= chunkSize * (Z.of_nat (Z.to_nat (size / chunkSize)) + 1).
Proof.
  assert (Hc : 0 < chunkSize) by reflexivity.
  destruct (Z.le_gt_cases 0 size) as [Hs | Hs].
  - pose proof (Z.div_pos size chunkSize Hs Hc).
    rewrite Z2Nat.id by done.
    pose proof (Z.mul_div_le size chunkSize Hc).
    pose proof (Z.mul_succ_div_gt size chunkSize Hc). lia.
  - assert (size / chunkSize < 0) by (apply Z.div_lt_upper_bound; lia).
    lia.
Qed.

Section ErrorsReturned.

Context {W : Type}.
Variable sys : Sys W.
Variable ro : RangeOrder.
Variable local : string.
Variable skip : option SkipCallback.
Variable cb : WalkDiffsCallback W.

(** Outside the branch that hashes, what the callback returns is what
    the walk function returns. *)
Lemma walkFn_only_local e rf (w : W) p :
  local_path sys local skip e = Some p -> rf !! p = None ->
  walkFn sys local skip cb e rf w
  = (rf, (cb p DiffResultOnlyExistsLocal w).1, (cb p DiffResultOnlyExistsLocal w).2).
Proof.
  intros Hp Hrf. apply local_path_Some in Hp as (He & Hd & Hr & Hs).
  unfold walkFn. rewrite He, Hd, Hr, Hs, Hrf.
  by destruct (cb p DiffResultOnlyExistsLocal w).
Qed.

Lemma walkFn_size_mismatch e rf (w : W) p md err :
  local_path sys local skip e = Some p -> rf !! p = Some md ->
  Size md <> uint64 (FileSize (we_info e)) ->
  (cb p DiffResultMismatch w).2 = Some err ->
  walkFn sys local skip cb e rf w = (rf, (cb p DiffResultMismatch w).1, Some err).
Proof.
  intros Hp Hrf Hsize Hcb. apply local_path_Some in Hp as (He & Hd & Hr & Hs).
  unfold walkFn. rewrite He, Hd, Hr, Hs, Hrf.
  apply Z.eqb_neq in Hsize. rewrite Hsize. simpl.
  destruct (cb p DiffResultMismatch w) as [w' o]. simpl in Hcb. by subst o.
Qed.

(** An error of the walk function ends the walk and the diff. *)
Lemma Walk_stops e rest rf (w : W) rf' w' err :
  walkFn sys local skip cb e rf w = (rf', w', Some err) ->
  Walk sys local skip cb (e :: rest) rf w = (rf', w', Some err).
Proof. intros H. cbn [Walk]. by rewrite H. Qed.

Lemma WalkDiffs_stops remote (w w1 : W) entList rf rf' w2 err :
  list_remote sys remote w = (w1, Ok entList) ->
  remote_files sys remote entList ∅ = Ok rf ->
  Walk sys local skip cb (filepath_Walk sys local w1) rf w1 = (rf', w2, Some err) ->
  WalkDiffs sys ro local remote skip cb w = (w2, Some err).
Proof. intros H1 H2 H3. unfold WalkDiffs. by rewrite H1, H2, H3. Qed.

Lemma only_remote_stops p rest (w : W) err :
  (cb p DiffResultOnlyExistsRemote w).2 = Some err ->
  only_remote cb (p :: rest) w = ((cb p DiffResultOnlyExistsRemote w).1, Some err).
Proof.
  intros H. cbn [only_remote].
  destruct (cb p DiffResultOnlyExistsRemote w) as [w' o]. simpl in H. by subst o.
Qed.

(** X27. In the branch that hashes, it is dropped: for a file on both
    sides whose sizes agree and whose hash is not the declared one, the
    walk function calls the callback with a Mismatch, takes the path
    off the remaining remote files and returns nil, whatever the
    callback returned. *)
Lemma walkFn_hash_mismatch e rf (w w1 : W) p md hash :
  local_path sys local skip e = Some p -> rf !! p = Some md ->
  Size md = uint64 (FileSize (we_info e)) ->
  HashLocal sys (we_file e) w = (w1, Ok hash) ->
  hash <> ContentHash_ md ->
  walkFn sys local skip cb e rf w = (delete p rf, (cb p DiffResultMismatch w1).1, None).
Proof.
  intros Hp Hrf Hsize Hhash Hne. apply local_path_Some in Hp as (He & Hd & Hr & Hs).
  unfold walkFn. rewrite He, Hd, Hr, Hs, Hrf.
  apply Z.eqb_eq in Hsize. rewrite Hsize, Hhash. simpl.
  assert ((ContentHash_ md =? hash)%string = false) as ->
    by (apply String.eqb_neq; congruence).
  simpl. by destruct (cb p DiffResultMismatch w1).
Qed.

End ErrorsReturned.

(** ** The scenarios of the design document, in the simulated world *)

(** Scenario 1: the diff, the push, and the diff after the push. *)
Example scenario_push :
  let pushed := Upload sim repo0 "demo" (DropboxService sim default_order) w_push in
  emissions (diff_log sim default_order demo "/demo" None never_fails w_push)
  = [("a.txt", DiffResultOnlyExistsLocal); ("c.txt", DiffResultOnlyExistsRemote)]%string
  /\ pushed.2 = None
  /\ under "/demo" (w_remote pushed.1)
     = [("/demo/a.txt"%string, bytes_of_string "H1");
        ("/demo/b.txt"%string, bytes_of_string "H2")]
  /\ under demo (w_local pushed.1) = under demo (w_local w_push)
  /\ emissions (diff_log sim default_order demo "/demo" None never_fails pushed.1) = [].
Proof. cbv zeta. repeat split; vm_compute; reflexivity. Qed.

(** Scenario 2: the pull, and the diff after the pull. *)
Example scenario_pull :
  let pulled := Pull sim repo0 "demo" (DropboxService sim default_order) w_push in
  pulled.2 = None
  /\ under demo (w_local pulled.1)
     = [("/home/u/projects/demo/b.txt"%string, bytes_of_string "H2");
        ("/home/u/projects/demo/c.txt"%string, bytes_of_string "H3")]
  /\ under "/demo" (w_remote pulled.1) = under "/demo" (w_remote w_push)
  /\ emissions (diff_log sim default_order demo "/demo" None never_fails pulled.1) = [].
Proof. cbv zeta. repeat split; vm_compute; reflexivity. Qed.

(** Scenario 3: equal sizes, different hashes. *)
Example scenario_hash_mismatch :
  emissions (diff_log sim default_order "/l" "/r" None never_fails w_x12)
  = [("x", DiffResultMismatch)]%string.
Proof. vm_compute. reflexivity. Qed.

(** ** The earlier Download

    service/dropbox.go (package service) has an earlier [Download], with
    its arguments in the other order, that [ProjectRepository.Pull] of
    package proj does not call. *)

(** X23. The [Download] of package service creates the local file
    without making its directories: none of its calls is
    [os.MkdirAll]. *)
Lemma Download_service_appends {W} (sys : Sys W) remote local (lw : Logged W) :
  appends no_MkdirAll lw (Download_service (logged sys) remote local lw).1.
Proof.
  unfold Download_service. simpl.
  pose proof (appends_log_res no_MkdirAll (EvDownload remote)
                (client_Download sys remote) lw (fun _ => I)) as H1.
  destruct (log_res _ _ lw) as [lw1 [body | err]]; simpl in *; [| done].
  pose proof (appends_log_err no_MkdirAll (EvCreate local)
                (os_Create sys local) lw1 (fun _ => I)) as H2.
  destruct (log_err _ _ lw1) as [lw2 [err |]]; simpl in *; [by eapply appends_trans |].
  eapply appends_trans; [exact H1 |].
  eapply appends_trans; [exact H2 |].
  by apply appends_log_err.
Qed.

(** * Further properties *)

(** ** ContentHash: what it returns *)

Lemma Sum256_length (msg : list byte) : length (SHA256.Sum256 msg) = 32%nat.
Proof.
  unfold SHA256.Sum256, SHA256.digest_words. rewrite length_map.
  generalize (SHA256.blocks (length (SHA256.to_words (SHA256.pad (map Byte.to_N msg))) `div` 16)
                SHA256.init (SHA256.to_words (SHA256.pad (map Byte.to_N msg)))).
  intros h. reflexivity.
Qed.

Lemma hex_cons b rest :
  hex (b :: rest)
  = String (hex_digit (N.shiftr (Byte.to_N b) 4))
      (String (hex_digit (N.land (Byte.to_N b) 15)) (hex rest)).
Proof. reflexivity. Qed.

Lemma hex_length (bs : list byte) : String.length (hex bs) = (2 * length bs)%nat.
Proof.
  induction bs as [| b bs IH]; [reflexivity |].
  rewrite hex_cons. cbn [String.length length]. rewrite IH. lia.
Qed.

Lemma hex_digit_lower n : is_lower_hex (hex_digit n) = true.
Proof.
  destruct n as [| p]; [reflexivity |].
  do 4 (destruct p as [p | p |]; try reflexivity).
Qed.

Lemma hex_lower (bs : list byte) : forallb is_lower_hex (list_ascii_of_string (hex bs)) = true.
Proof.
  induction bs as [| b bs IH]; [reflexivity |].
  rewrite hex_cons. cbn [list_ascii_of_string forallb].
  by rewrite !hex_digit_lower, IH.
Qed.

Lemma ContentHash_loop_Ok fuel (r : Reader) n err acc h :
  ContentHash_loop fuel r n err acc = Some (Ok h) ->
  exists m, h = hex (SHA256.Sum256 m).
Proof.
  revert r n err acc. induction fuel as [| fuel IH]; intros r n err acc; cbn [ContentHash_loop].
  - destruct ((n =? hashBlockSize) && is_nil err); [done |]. intros [= <-]. by eexists.
  - destruct ((n =? hashBlockSize) && is_nil err).
    + destruct (Read r hashBlockSize) as [[data err'] r'].
      destruct (fatal_read_error err'); [done |]. apply IH.
    + intros [= <-]. by eexists.
Qed.

(** X4. Whatever the reader, a hash that [ContentHash] returns is the
    hexadecimal form of one SHA-256 digest: 64 characters, each a digit
    or a letter from a to f in lower case. *)
Theorem ContentHash_is_a_sha256_in_hex (r : Reader) (h : string) :
  ContentHash r = Ok h ->
  String.length h = 64%nat /\ forallb is_lower_hex (list_ascii_of_string h) = true.
Proof.
  intros H. pose proof (ContentHash_as_loop r) as Hloop. rewrite H in Hloop.
  apply ContentHash_loop_Ok in Hloop as [m ->].
  split; [by rewrite hex_length, Sum256_length | apply hex_lower].
Qed.


Lemma Read_errors (r : Reader) buflen :
  (forall e, fatal_read_error (Read r buflen).1.2 = Some e ->
     e <> EOF /\ exists d, (d, Some e) ∈ r)
  /\ (forall d e, (d, Some e) ∈ (Read r buflen).2 -> exists d', (d', Some e) ∈ r).
Proof.
  destruct r as [| [d e] rest]; cbn [Read].
  - split.
    + intros e. cbn [fst snd fatal_read_error]. by rewrite decide_True.
    + intros d e Hin. by apply elem_of_nil in Hin.
  - destruct (len d <=? buflen).
    + cbn [fst snd]. split.
      * intros e0. destruct e as [e |]; [| done]. cbn [fatal_read_error].
        destruct (decide (e = EOF)); [done |]. intros [= <-]. split; [done |].
        exists d. apply elem_of_cons. by left.
      * intros d0 e0 Hin. exists d0. apply elem_of_cons. by right.
    + destruct (split_at buflen d) as [a b]. cbn [fst snd]. split; [done |].
      intros d0 e0 Hin. apply elem_of_cons in Hin as [[= -> ->] | Hin].
      * exists d. apply elem_of_cons. by left.
      * exists d0. apply elem_of_cons. by right.
Qed.

Lemma ContentHash_loop_Fail fuel (r : Reader) n err acc e :
  ContentHash_loop fuel r n err acc = Some (Fail e) ->
  e <> EOF /\ exists d, (d, Some e) ∈ r.
Proof.
  revert r n err acc. induction fuel as [| fuel IH]; intros r n err acc; cbn [ContentHash_loop].
  - by destruct ((n =? hashBlockSize) && is_nil err).
  - destruct ((n =? hashBlockSize) && is_nil err); [| done].
    destruct (Read_errors r hashBlockSize) as [H1 H2].
    destruct (Read r hashBlockSize) as [[data err'] r']. cbn [fst snd] in *.
    destruct (fatal_read_error err') as [e' |] eqn:Hf.
    + intros [= <-]. by apply H1.
    + intros H. apply IH in H as [Hne [d Hd]]. split; [done |]. by eapply H2.
Qed.

(** X3. [ContentHash] fails only with an error that a read of its
    reader returned, and never with [io.EOF]: a reader none of whose
    reads fails with another error is always hashed. *)
Theorem ContentHash_fails_with_read_error (r : Reader) (e : error) :
  ContentHash r = Fail e -> e <> EOF /\ exists d, (d, Some e) ∈ r.
Proof.
  intros H. pose proof (ContentHash_as_loop r) as Hloop. rewrite H in Hloop.
  by apply ContentHash_loop_Fail in Hloop.
Qed.


(** ** Dropbox.Upload: what it sends *)

Lemma sent_app l1 l2 : sent (l1 ++ l2) = (sent l1 ++ sent l2)%list.
Proof. unfold sent. by rewrite flat_map_app. Qed.

Lemma offsets_agree_app n l1 l2 :
  offsets_agree n (l1 ++ l2) = offsets_agree n l1 && offsets_agree (n + len (sent l1)) l2.
Proof.
  revert n. induction l1 as [| ev l1 IH]; intros n.
  - cbn. by rewrite Z.add_0_r.
  - cbn [app offsets_agree]. rewrite IH.
    change (sent (ev :: l1)) with (request_body ev ++ sent l1)%list.
    rewrite len_app, Z.add_assoc. by rewrite andb_assoc.
Qed.

Lemma uint64_small x : 0 <= x < 2 ^ 64 -> uint64 x = x.
Proof. intros H. unfold uint64. by apply Z.mod_small. Qed.

(** The loop of the session, observed: what it sends is the front of
    what is left of the file, in full chunks. *)
Lemma upload_append_logged {W} (sys : Sys W) fuel sid size written f log (w : W) :
  exists evs,
    let run := upload_append (logged sys) fuel sid size written f (log, w) in
    run.1.1 = (log ++ evs)%list
    /\ (forall written' f', run.2 = Ok (written', f') ->
          (sent evs ++ f')%list = f
          /\ written' = written + chunkSize * Z.of_nat (length evs)
          /\ (written <= size -> written' <= size))
    /\ (0 <= written -> size < 2 ^ 64 -> len f = size - written ->
          offsets_agree written evs = true
          /\ Forall whole_chunks evs
          /\ len (sent evs) = chunkSize * Z.of_nat (length evs)).
Proof.
  revert written f log w. induction fuel as [| fuel IH]; intros written f log w;
    cbn [upload_append].
  - exists []. destruct (chunkSize <? size - written); cbn; rewrite app_nil_r.
    all: split; [done |]; split; [by intros ? ? [= <- <-]; split; [| split; [lia |]] | done].
  - destruct (chunkSize <? size - written) eqn:Hc.
    2: { exists []. cbn. rewrite app_nil_r.
         split; [done |]; split; [by intros ? ? [= <- <-]; split; [| split; [lia |]] | done]. }
    apply Z.ltb_lt in Hc.
    destruct (split_at chunkSize f) as [chunk f1] eqn:E.
    cbn [client_UploadSessionAppendV2 logged]. unfold log_err. cbn [fst snd].
    destruct (client_UploadSessionAppendV2 sys (mkCursor sid (uint64 written)) chunk w)
      as [w1 [err |]].
    + eexists [_]. cbn [fst snd]. split; [done |]. split; [done |].
      intros Hw Hs Hf. assert (chunkSize = 2 ^ 24) as Hcs by reflexivity.
      pose proof (split_at_len chunkSize f chunk f1 ltac:(lia) E) as Hlen.
      cbn. rewrite uint64_small, Z.eqb_refl by lia. rewrite app_nil_r.
      split; [done |]. split; [by repeat constructor | lia].
    + destruct (IH (written + chunkSize) f1
                  (log ++ [EvUploadSessionAppendV2 (mkCursor sid (uint64 written)) chunk None])%list
                  w1) as (evs & H1 & H2 & H3).
      cbn zeta in *.
      exists (EvUploadSessionAppendV2 (mkCursor sid (uint64 written)) chunk None :: evs).
      split; [by rewrite H1, <- app_assoc |]. split.
      * intros written' f' Hres. destruct (H2 written' f' Hres) as (Ha & Hb & Hle).
        apply split_at_app in E. subst f.
        change (sent (?ev :: evs)) with (request_body ev ++ sent evs)%list.
        cbn [request_body]. rewrite <- app_assoc, Ha. split; [done |].
        cbn [length]. split; lia.
      * intros Hw Hs Hf. assert (chunkSize = 2 ^ 24) as Hcs by reflexivity.
        pose proof (split_at_len chunkSize f chunk f1 ltac:(lia) E) as Hlen.
        pose proof (split_at_app _ _ _ _ E) as Happ.
        assert (len f1 = size - (written + chunkSize)) as Hf1.
        { subst f. rewrite len_app in Hf. lia. }
        destruct (H3 ltac:(lia) Hs Hf1) as (Ha & Hb & Hd).
        cbn [offsets_agree request_body Offset].
        rewrite uint64_small, Z.eqb_refl, Hlen by lia. rewrite Ha.
        split; [done |]. split; [by constructor |].
        change (sent (?ev :: evs)) with (request_body ev ++ sent evs)%list.
        cbn [request_body]. rewrite len_app, Hd, Hlen. cbn [length]. lia.
Qed.

(** X5. An upload that returns nil has sent every byte of the file
    once and in order: the bodies of the requests it made after opening
    the file, one [Upload] or a session from [Start] to [Finish], put
    end to end are the content of the file. *)
Theorem Dropbox_Upload_sends_every_byte {W} (sys : Sys W) local remote log (w : W) file :
  let run := Dropbox_Upload (logged sys) local remote (log, w) in
  (os_Open sys local w).2 = Ok file ->
  run.2 = None ->
  exists evs,
    run.1.1 = (log ++ EvOpen local None :: evs)%list
    /\ sent evs = content (f_reader file).
Proof.
  intros run Hopen. subst run. unfold Dropbox_Upload.
  cbn [os_Open logged]. unfold log_res. cbn [fst snd].
  destruct (os_Open sys local w) as [w0 r]. cbn [snd] in Hopen. subst r.
  cbn [error_of]. destruct (f_Stat file) as [info | err]; [| done].
  cbn zeta. destruct (chunkSize <? FileSize info).
  - destruct (split_at chunkSize (content (f_reader file))) as [chunk f1] eqn:E.
    apply split_at_app in E.
    cbn [client_UploadSessionStart logged]. unfold log_res. cbn [fst snd].
    destruct (client_UploadSessionStart sys chunk w0) as [w1 [sid | err]]; [| done].
    cbn [error_of].
    destruct (upload_append_logged sys (Z.to_nat (FileSize info / chunkSize)) sid
                (FileSize info) chunkSize f1
                ((log ++ [EvOpen local None]) ++ [EvUploadSessionStart chunk None])%list w1)
      as (evs & H1 & H2 & _). cbn zeta in *.
    destruct (upload_append (logged sys) _ sid _ chunkSize f1 _) as [[log2 w2] [[written f2] | err]];
      [| done].
    cbn [fst snd] in *. destruct (H2 written f2 eq_refl) as (Ha & _).
    cbn [client_UploadSessionFinish logged]. unfold log_err. cbn [fst snd].
    destruct (client_UploadSessionFinish sys _ _ f2 w2) as [w3 err]. cbn [fst snd].
    intros ->. eexists (_ :: evs ++ [_])%list. split.
    + rewrite H1, <- !app_assoc. reflexivity.
    + change (sent (?ev :: ?l)) with (request_body ev ++ sent l)%list.
      rewrite sent_app. cbn. rewrite app_nil_r, E, <- Ha. done.
  - cbn [client_Upload logged]. unfold log_err. cbn [fst snd].
    destruct (client_Upload sys _ _ w0) as [w1 err]. cbn [fst snd]. intros ->.
    eexists [_]. split; [by rewrite <- app_assoc |]. cbn. by rewrite app_nil_r.
Qed.

(** X6. When the size [Stat] reports is the length of the file, every
    cursor an upload sends has for offset the number of bytes the
    requests before it carried, the first request of a session and
    every append carry exactly [chunkSize] bytes, and no request carries
    more. *)
Theorem Dropbox_Upload_offsets_agree {W} (sys : Sys W) local remote log (w : W) file info :
  let run := Dropbox_Upload (logged sys) local remote (log, w) in
  (os_Open sys local w).2 = Ok file ->
  f_Stat file = Ok info ->
  FileSize info = len (content (f_reader file)) ->
  FileSize info < 2 ^ 63 ->
  exists evs,
    run.1.1 = (log ++ EvOpen local None :: evs)%list
    /\ offsets_agree 0 evs = true
    /\ Forall whole_chunks evs.
Proof.
  intros run Hopen Hstat Hsize Hint. subst run. unfold Dropbox_Upload.
  cbn [os_Open logged]. unfold log_res. cbn [fst snd].
  destruct (os_Open sys local w) as [w0 r]. cbn [snd] in Hopen. subst r.
  cbn [error_of]. rewrite Hstat. cbn zeta.
  assert (chunkSize = 2 ^ 24) as Hcs by reflexivity.
  destruct (chunkSize <? FileSize info) eqn:Hc.
  - apply Z.ltb_lt in Hc.
    destruct (split_at chunkSize (content (f_reader file))) as [chunk f1] eqn:E.
    pose proof (split_at_len chunkSize (content (f_reader file)) chunk f1 ltac:(lia) E) as Hlen.
    apply split_at_app in E.
    assert (len f1 = FileSize info - chunkSize) as Hf1.
    { rewrite Hsize, E, len_app. lia. }
    cbn [client_UploadSessionStart logged]. unfold log_res. cbn [fst snd].
    destruct (client_UploadSessionStart sys chunk w0) as [w1 [sid | err]].
    2: { cbn [fst snd error_of]. eexists [_]. split; [by rewrite <- app_assoc |].
         split; [done | repeat constructor; exact Hlen]. }
    cbn [error_of].
    destruct (upload_append_logged sys (Z.to_nat (FileSize info / chunkSize)) sid
                (FileSize info) chunkSize f1
                ((log ++ [EvOpen local None]) ++ [EvUploadSessionStart chunk None])%list w1)
      as (evs & H1 & H2 & H3). cbn zeta in *.
    destruct (H3 ltac:(lia) ltac:(lia) Hf1) as (Hoff & Hchunks & Hsent).
    pose proof (upload_append_exit (logged sys) (Z.to_nat (FileSize info / chunkSize)) sid
                  (FileSize info) chunkSize f1
                  ((log ++ [EvOpen local None]) ++ [EvUploadSessionStart chunk None], w1)%list)
      as Hexit.
    destruct (upload_append (logged sys) _ sid _ chunkSize f1 _) as [[log2 w2] [[written f2] | err]].
    2: { cbn [fst snd] in *. eexists (_ :: evs). split; [by rewrite H1, <- !app_assoc |].
         cbn [offsets_agree request_body]. rewrite Z.add_0_l, Hlen, Hoff.
         split; [done | by constructor]. }
    cbn [fst snd] in *. destruct (H2 written f2 eq_refl) as (Ha & Hb & Hle).
    specialize (Hexit (log2, w2) written f2 (Dropbox_Upload_fuel _) eq_refl).
    cbn [client_UploadSessionFinish logged]. unfold log_err. cbn [fst snd].
    destruct (client_UploadSessionFinish sys _ _ f2 w2) as [w3 err]. cbn [fst snd].
    eexists (_ :: evs ++ [_])%list. split; [by rewrite H1, <- !app_assoc |].
    assert (len f2 = FileSize info - written) as Hf2.
    { apply (f_equal len) in Ha. rewrite len_app in Ha. lia. }
    split.
    + cbn [offsets_agree request_body]. rewrite Z.add_0_l, Hlen, offsets_agree_app, Hoff.
      cbn [offsets_agree Offset andb]. rewrite uint64_small by lia.
      rewrite Hsent. assert ((written =? chunkSize + chunkSize * Z.of_nat (length evs)) = true)
        as -> by (apply Z.eqb_eq; lia). done.
    + constructor; [done |]. apply Forall_app. split; [done |].
      repeat constructor. cbn. lia.
  - apply Z.ltb_ge in Hc.
    cbn [client_Upload logged]. unfold log_err. cbn [fst snd].
    destruct (client_Upload sys _ _ w0) as [w1 err]. cbn [fst snd].
    eexists [_]. split; [by rewrite <- app_assoc |]. split; [done |].
    repeat constructor. cbn. lia.
Qed.

(** ** A push and a pull, classification by classification *)

Lemma alike_app {W} log1 log2 evs1 evs2 (w : W) :
  emissions log1 = emissions log2 -> emissions evs1 = emissions evs2 ->
  alike ((log1 ++ evs1)%list, w) ((log2 ++ evs2)%list, w).
Proof.
  intros H1 H2. split; [done |]. cbn. unfold emissions in *. by rewrite !omap_app, H1, H2.
Qed.

Section Alike.

Context {W : Type}.
Variable sys : Sys W.
Variable ro : RangeOrder.
Variables cb1 cb2 : WalkDiffsCallback (Logged W).

Hypothesis cb_alike : forall f d lw1 lw2, alike lw1 lw2 ->
  alike (cb1 f d lw1).1 (cb2 f d lw2).1 /\ (cb1 f d lw1).2 = (cb2 f d lw2).2.

Lemma walkFn_alike local skip e rf lw1 lw2 :
  alike lw1 lw2 ->
  let r1 := walkFn (logged sys) local skip cb1 e rf lw1 in
  let r2 := walkFn (logged sys) local skip cb2 e rf lw2 in
  r1.1.1 = r2.1.1 /\ alike r1.1.2 r2.1.2 /\ r1.2 = r2.2.
Proof.
  intros Hal. cbv zeta. unfold walkFn.
  destruct (we_walkErr e); [done |].
  destruct (IsDir (we_info e)); [done |].
  change (filepath_Rel (logged sys)) with (filepath_Rel sys).
  destruct (filepath_Rel sys local (we_file e)) as [p | err]; [| done].
  destruct (skipped skip p (we_info e)); [done |].
  destruct (rf !! p) as [md |].
  - destruct (negb (Size md =? uint64 (FileSize (we_info e)))).
    + destruct (cb_alike p DiffResultMismatch lw1 lw2 Hal) as [Ha He].
      destruct (cb1 p DiffResultMismatch lw1) as [lw1' e1].
      destruct (cb2 p DiffResultMismatch lw2) as [lw2' e2].
      cbn [fst snd] in *. subst e2. by destruct e1.
    + destruct lw1 as [log1 w1], lw2 as [log2 w2]. destruct Hal as [Hw Hem].
      cbn [fst snd] in Hw, Hem. subst w2.
      rewrite !HashLocal_logged.
      assert (Hopen : alike ((log1 ++ [EvOpen (we_file e) (error_of (os_Open sys (we_file e) w1).2)])%list,
                             (HashLocal sys (we_file e) w1).1)
                            ((log2 ++ [EvOpen (we_file e) (error_of (os_Open sys (we_file e) w1).2)])%list,
                             (HashLocal sys (we_file e) w1).1)).
      { by apply alike_app. }
      destruct ((HashLocal sys (we_file e) w1).2) as [hash | err]; [| done].
      destruct (negb (ContentHash_ md =? hash)%string); [| done].
      destruct (cb_alike p DiffResultMismatch _ _ Hopen) as [Ha He].
      destruct (cb1 p DiffResultMismatch _) as [lw1' e1].
      destruct (cb2 p DiffResultMismatch _) as [lw2' e2].
      done.
  - destruct (cb_alike p DiffResultOnlyExistsLocal lw1 lw2 Hal) as [Ha He].
    destruct (cb1 p DiffResultOnlyExistsLocal lw1) as [lw1' e1].
    destruct (cb2 p DiffResultOnlyExistsLocal lw2) as [lw2' e2].
    cbn [fst snd] in *. by subst e2.
Qed.

Lemma Walk_alike local skip entries rf lw1 lw2 :
  alike lw1 lw2 ->
  let r1 := Walk (logged sys) local skip cb1 entries rf lw1 in
  let r2 := Walk (logged sys) local skip cb2 entries rf lw2 in
  r1.1.1 = r2.1.1 /\ alike r1.1.2 r2.1.2 /\ r1.2 = r2.2.
Proof.
  revert rf lw1 lw2. induction entries as [| e rest IH]; intros rf lw1 lw2 Hal;
    cbn [Walk]; [done |].
  destruct (walkFn_alike local skip e rf lw1 lw2 Hal) as (Hrf & Ha & He).
  cbv zeta in Hrf, Ha, He.
  destruct (walkFn (logged sys) local skip cb1 e rf lw1) as [[rf1 lw1'] e1].
  destruct (walkFn (logged sys) local skip cb2 e rf lw2) as [[rf2 lw2'] e2].
  cbn [fst snd] in *. subst rf2 e2. destruct e1; [done |]. by apply IH.
Qed.

Lemma only_remote_alike paths lw1 lw2 :
  alike lw1 lw2 ->
  alike (only_remote cb1 paths lw1).1 (only_remote cb2 paths lw2).1
  /\ (only_remote cb1 paths lw1).2 = (only_remote cb2 paths lw2).2.
Proof.
  revert lw1 lw2. induction paths as [| p rest IH]; intros lw1 lw2 Hal;
    cbn [only_remote]; [done |].
  destruct (cb_alike p DiffResultOnlyExistsRemote lw1 lw2 Hal) as [Ha He].
  destruct (cb1 p DiffResultOnlyExistsRemote lw1) as [lw1' e1].
  destruct (cb2 p DiffResultOnlyExistsRemote lw2) as [lw2' e2].
  cbn [fst snd] in *. subst e2. destruct e1; [done |]. by apply IH.
Qed.

Lemma WalkDiffs_alike local remote skip lw1 lw2 :
  alike lw1 lw2 ->
  alike (WalkDiffs (logged sys) ro local remote skip cb1 lw1).1
        (WalkDiffs (logged sys) ro local remote skip cb2 lw2).1
  /\ (WalkDiffs (logged sys) ro local remote skip cb1 lw1).2
     = (WalkDiffs (logged sys) ro local remote skip cb2 lw2).2.
Proof.
  destruct lw1 as [log1 w1], lw2 as [log2 w2]. intros [Hw Hem].
  cbn [fst snd] in Hw, Hem. subst w2. unfold WalkDiffs.
  destruct (list_remote_logged sys remote log1 w1) as (evs1 & -> & Hq1).
  destruct (list_remote_logged sys remote log2 w1) as (evs2 & -> & Hq2).
  assert (Hal : alike ((log1 ++ evs1)%list, (list_remote sys remote w1).1)
                      ((log2 ++ evs2)%list, (list_remote sys remote w1).1)).
  { apply alike_app; [done | by rewrite Hq1, Hq2]. }
  destruct ((list_remote sys remote w1).2) as [entList | err]; [| done].
  change (remote_files (logged sys) remote entList ∅)
    with (remote_files sys remote entList ∅).
  destruct (remote_files sys remote entList ∅) as [rf | err]; [| done].
  change (filepath_Walk (logged sys) local ((log1 ++ evs1)%list, (list_remote sys remote w1).1))
    with (filepath_Walk sys local (list_remote sys remote w1).1).
  change (filepath_Walk (logged sys) local ((log2 ++ evs2)%list, (list_remote sys remote w1).1))
    with (filepath_Walk sys local (list_remote sys remote w1).1).
  destruct (Walk_alike local skip (filepath_Walk sys local (list_remote sys remote w1).1) rf
              _ _ Hal) as (Hrf & Ha & He).
  cbv zeta in Hrf, Ha, He.
  destruct (Walk (logged sys) local skip cb1 _ rf _) as [[rf1 lw1'] e1].
  destruct (Walk (logged sys) local skip cb2 _ rf _) as [[rf2 lw2'] e2].
  cbn [fst snd] in *. subst rf2 e2. destruct e1; [done |].
  by apply only_remote_alike.
Qed.

End Alike.

Lemma appends_emissions {W} (Q : Event -> Prop) (lw lw' : Logged W) :
  (forall ev, Q ev -> emission ev = None) -> appends Q lw lw' ->
  emissions lw'.1 = emissions lw.1.
Proof.
  intros HQ (evs & -> & F). unfold emissions. rewrite omap_app.
  assert (omap emission evs = []) as ->; [| by rewrite app_nil_r].
  induction F as [| ev evs Hev F IH]; [done |]. cbn. by rewrite (HQ ev Hev).
Qed.

Lemma service_event_quiet ev : service_event ev -> emission ev = None.
Proof. by destruct ev. Qed.

Lemma answer_push {W} (sys : Sys W) ro folder remoteFolder f d (w : W) :
  answer sys (push_action sys folder remoteFolder) f d w
  = Upload_callback sys (DropboxService sys ro) folder remoteFolder f d w.
Proof. by destruct d. Qed.

Lemma answer_pull {W} (sys : Sys W) ro folder remoteFolder f d (w : W) :
  answer sys (pull_action sys folder remoteFolder) f d w
  = Pull_callback sys (DropboxService sys ro) folder remoteFolder f d w.
Proof. by destruct d. Qed.

Lemma Upload_callback_forget {W} (sys : Sys W) ro folder remoteFolder f d (lw : Logged W) :
  forget (Upload_callback (logged sys) (observed (DropboxService (logged sys) ro))
            folder remoteFolder f d lw)
  = Upload_callback sys (DropboxService sys ro) folder remoteFolder f d lw.2.
Proof.
  unfold Upload_callback. destruct d; simpl; try done.
  - exact (Dropbox_Upload_forget sys _ _ (record _ lw)).
  - exact (Dropbox_Delete_forget sys _ (record _ lw)).
  - exact (Dropbox_Upload_forget sys _ _ (record _ lw)).
Qed.

Lemma Pull_callback_forget {W} (sys : Sys W) ro folder remoteFolder f d (lw : Logged W) :
  forget (Pull_callback (logged sys) (observed (DropboxService (logged sys) ro))
            folder remoteFolder f d lw)
  = Pull_callback sys (DropboxService sys ro) folder remoteFolder f d lw.2.
Proof.
  unfold Pull_callback. destruct d; simpl; try done.
  - exact (Dropbox_Download_forget sys _ _ (record _ lw)).
  - exact (Dropbox_Download_forget sys _ _ (record _ lw)).
  - apply log_err_forget.
Qed.

(** An observed callback against the plain one that answers the same:
    the same world, the same result, the same classifications. *)
Lemma observed_callback_alike {W}
    (cbL : WalkDiffsCallback (Logged W)) (cb : WalkDiffsCallback W) :
  (forall f d lw, forget (cbL f d lw) = cb f d lw.2) ->
  (forall f d lw, appends service_event lw (cbL f d lw).1) ->
  forall f d lw1 lw2, alike lw1 lw2 ->
    alike (traced cbL f d lw1).1 (traced (lift_cb cb) f d lw2).1
    /\ (traced cbL f d lw1).2 = (traced (lift_cb cb) f d lw2).2.
Proof.
  intros Hforget Happ f d [log1 w1] [log2 w2] [Hw Hem]. cbn [fst snd] in Hw, Hem. subst w2.
  rewrite traced_lift_cb. unfold traced.
  pose proof (Hforget f d (record (EvCallback f d) (log1, w1))) as Hf.
  pose proof (appends_emissions _ _ _ service_event_quiet
                (Happ f d (record (EvCallback f d) (log1, w1)))) as He.
  destruct (cbL f d (record (EvCallback f d) (log1, w1))) as [[log1' w1'] e1].
  unfold forget in Hf. cbn [fst snd record] in Hf, He. cbn [fst snd].
  rewrite <- Hf. cbn [fst snd]. split; [| done]. split; [done |]. cbn [fst snd].
  by rewrite He, !emissions_app, Hem.
Qed.

(** The loop of a session, call by call. *)
Lemma upload_append_run {W} (sys : Sys W) remote fuel sid size written f log (w : W) :
  let run := upload_append (logged sys) fuel sid size written f (log, w) in
  exists evs,
    run.1.1 = (log ++ evs)%list
    /\ Forall (fun e => upload_request remote e /\ ~ is_commit e) evs
    /\ match run.2 with
       | Ok (written', f') =>
           Forall (fun e => event_err e = None) evs /\ (sent evs ++ f')%list = f
       | Fail err =>
           exists front ev, evs = (front ++ [ev])%list
             /\ Forall (fun e => event_err e = None) front /\ event_err ev = Some err
       end.
Proof.
  revert written f log w. induction fuel as [| fuel IH]; intros written f log w;
    cbn [upload_append].
  - exists []. destruct (chunkSize <? size - written); cbn; rewrite app_nil_r; by repeat split.
  - destruct (chunkSize <? size - written).
    2: { exists []. cbn. rewrite app_nil_r. by repeat split. }
    destruct (split_at chunkSize f) as [chunk f1] eqn:E. apply split_at_app in E.
    cbn [client_UploadSessionAppendV2 logged]. unfold log_err. cbn [fst snd].
    destruct (client_UploadSessionAppendV2 sys (mkCursor sid (uint64 written)) chunk w)
      as [w1 [err |]].
    + eexists [_]. cbn [fst snd]. split; [done |].
      split; [constructor; [split; [exact I | intros []] | constructor] |].
      by exists [], (EvUploadSessionAppendV2 (mkCursor sid (uint64 written)) chunk (Some err)).
    + destruct (IH (written + chunkSize) f1
                  (log ++ [EvUploadSessionAppendV2 (mkCursor sid (uint64 written)) chunk None])%list
                  w1) as (evs & H1 & H2 & H3).
      cbn zeta in *.
      exists (EvUploadSessionAppendV2 (mkCursor sid (uint64 written)) chunk None :: evs).
      split; [by rewrite H1, <- app_assoc |].
      split; [constructor; [split; [exact I | intros []] | done] |].
      destruct (upload_append (logged sys) fuel sid size (written + chunkSize) f1 _)
        as [lw2 [[written' f'] | err]]; cbn [snd] in *.
      * destruct H3 as [H3 H4]. split; [by constructor |].
        change (sent (?ev :: evs)) with (request_body ev ++ sent evs)%list.
        cbn [request_body]. by rewrite <- app_assoc, H4.
      * destruct H3 as (front & ev & -> & H3 & H4).
        exists (EvUploadSessionAppendV2 (mkCursor sid (uint64 written)) chunk None :: front), ev.
        split; [done |]. split; [by constructor | done].
Qed.

(** One upload, call by call. *)
Lemma Dropbox_Upload_run {W} (sys : Sys W) local remote log (w : W) :
  let run := Dropbox_Upload (logged sys) local remote (log, w) in
  match os_Open sys local w with
  | (w0, Fail e) => run = ((log ++ [EvOpen local (Some e)])%list, w0, Some e)
  | (w0, Ok file) =>
      match f_Stat file with
      | Fail e => run = ((log ++ [EvOpen local None])%list, w0, Some e)
      | Ok info =>
          exists evs, run.1.1 = (log ++ EvOpen local None :: evs)%list
                      /\ upload_run remote (content (f_reader file)) evs run.2
      end
  end.
Proof.
  cbv zeta. unfold Dropbox_Upload.
  cbn [os_Open logged]. unfold log_res. cbn [fst snd].
  destruct (os_Open sys local w) as [w0 [file | e]]; cbn [error_of]; [| done].
  destruct (f_Stat file) as [info | e]; [| done].
  cbn zeta. destruct (chunkSize <? FileSize info).
  - destruct (split_at chunkSize (content (f_reader file))) as [chunk f1] eqn:E.
    apply split_at_app in E.
    cbn [client_UploadSessionStart logged]. unfold log_res. cbn [fst snd].
    destruct (client_UploadSessionStart sys chunk w0) as [w1 [sid | err]]; cbn [error_of fst snd].
    2: { eexists [_]. split; [by rewrite <- app_assoc |].
         exists [], (EvUploadSessionStart chunk (Some err)).
         split; [done |]. split; [by repeat constructor |]. by repeat split. }
    destruct (upload_append_run sys remote (Z.to_nat (FileSize info / chunkSize)) sid
                (FileSize info) chunkSize f1
                ((log ++ [EvOpen local None]) ++ [EvUploadSessionStart chunk None])%list w1)
      as (evs & H1 & H2 & H3). cbn zeta in *.
    destruct (upload_append (logged sys) _ sid _ chunkSize f1 _)
      as [[log2 w2] [[written f2] | err]]; cbn [fst snd] in *.
    + destruct H3 as [H3 H4].
      cbn [client_UploadSessionFinish logged]. unfold log_err. cbn [fst snd].
      destruct (client_UploadSessionFinish sys _ _ f2 w2) as [w3 err]. cbn [fst snd].
      eexists (_ :: evs ++ [_])%list. split; [by rewrite H1, <- !app_assoc |].
      eexists (EvUploadSessionStart chunk None :: evs), _.
      split; [done |]. split.
      { constructor; [done |]. apply Forall_app. split.
        - eapply Forall_impl; [exact H2 | by intros ? [? _]].
        - by repeat constructor. }
      split.
      { constructor; [by split; [| intros []] |].
        rewrite Forall_forall in H2, H3. apply Forall_forall. intros ev Hev.
        split; [by apply H3 | by apply H2]. }
      split; [done |]. intros _. split; [done |].
      change (sent (?ev :: ?l)) with (request_body ev ++ sent l)%list.
      rewrite sent_app. cbn. by rewrite app_nil_r, E, <- H4.
    + destruct H3 as (front & ev & -> & H3 & H4).
      eexists (_ :: front ++ [ev])%list. split; [by rewrite H1, <- !app_assoc |].
      exists (EvUploadSessionStart chunk None :: front), ev.
      split; [done |]. split.
      { constructor; [done |]. eapply Forall_impl; [exact H2 | by intros ? [? _]]. }
      split.
      { constructor; [by split; [| intros []] |].
        apply Forall_app in H2 as [H2 _].
        rewrite Forall_forall in H2, H3. apply Forall_forall. intros ev' Hev.
        split; [by apply H3 | by apply H2]. }
      done.
  - cbn [client_Upload logged]. unfold log_err. cbn [fst snd].
    destruct (client_Upload sys _ _ w0) as [w1 err]. cbn [fst snd].
    eexists [_]. split; [by rewrite <- app_assoc |].
    eexists [], _. split; [done |]. split; [by repeat constructor |].
    split; [done |]. split; [done |]. intros _. split; [done |]. cbn. by rewrite app_nil_r.
Qed.

(** One deletion is one request. *)
Lemma Dropbox_Delete_run {W} (sys : Sys W) remote log (w : W) :
  Dropbox_Delete (logged sys) remote (log, w)
  = ((log ++ [EvDeleteV2 remote (client_DeleteV2 sys remote w).2])%list,
     (client_DeleteV2 sys remote w).1, (client_DeleteV2 sys remote w).2).
Proof.
  unfold Dropbox_Delete. cbn [client_DeleteV2 logged]. unfold log_err. cbn [fst snd].
  by destruct (client_DeleteV2 sys remote w).
Qed.

(** One download, call by call. *)
Lemma Dropbox_Download_calls {W} (sys : Sys W) local remote log (w : W) :
  let run := Dropbox_Download (logged sys) local remote (log, w) in
  exists evs,
    run.1.1 = (log ++ evs)%list
    /\ download_calls sys local remote (client_Download sys remote w).2 evs run.2.
Proof.
  cbv zeta. unfold Dropbox_Download. simpl. unfold log_res, log_err. simpl.
  destruct (client_Download sys remote w) as [w1 [body | e]]; simpl.
  2: { eexists. split; [reflexivity | constructor]. }
  destruct (os_MkdirAll sys (path_Dir sys local) perm_0775 w1) as [w2 [e |]]; simpl.
  { eexists. split; [by rewrite <- app_assoc | constructor]. }
  destruct (os_Create sys local w2) as [w3 [e |]]; simpl.
  { eexists. split; [by rewrite <- !app_assoc | constructor]. }
  destruct (io_Copy sys local body w3) as [w4 err]; simpl.
  eexists. split; [by rewrite <- !app_assoc | constructor].
Qed.

(** The observed push against the diff of the folder with the remote
    folder in which every classification is answered by its operation. *)
Lemma push_is_the_diff {W} (sys : Sys W) ro fr name (w w0 : W) info :
  let folder := RepoPath sys fr name in
  let remoteFolder := ("/" ++ name)%string in
  let pushed := Upload (logged sys) fr name (observed (DropboxService (logged sys) ro)) ([], w) in
  let diffed := WalkDiffs (logged sys) ro folder remoteFolder None
                  (traced (lift_cb (answer sys (push_action sys folder remoteFolder))))
                  ([], w0) in
  os_Stat sys folder w = (w0, Ok info) ->
  alike pushed.1 diffed.1 /\ pushed.2 = diffed.2.
Proof.
  intros folder remoteFolder pushed diffed Hstat. subst pushed diffed.
  unfold Upload. change (RepoPath (logged sys) fr name) with folder.
  cbn [os_Stat logged]. unfold log_res. cbn [fst snd]. rewrite Hstat.
  cbn [s_WalkDiffs observed DropboxService].
  apply WalkDiffs_alike; [| by split].
  apply observed_callback_alike.
  - intros f d lw. rewrite (answer_push sys ro). apply Upload_callback_forget.
  - intros f d lw. apply Upload_callback_appends.
Qed.

Lemma pull_is_the_diff {W} (sys : Sys W) ro fr name (w w1 : W) made :
  let folder := RepoPath sys fr name in
  let remoteFolder := ("/" ++ name)%string in
  let pulled := Pull (logged sys) fr name (observed (DropboxService (logged sys) ro)) ([], w) in
  let diffed := WalkDiffs (logged sys) ro folder remoteFolder None
                  (traced (lift_cb (answer sys (pull_action sys folder remoteFolder))))
                  ([], w1) in
  os_MkdirAll sys folder projectFolderPerm w = (w1, made) ->
  alike pulled.1 diffed.1 /\ pulled.2 = diffed.2.
Proof.
  intros folder remoteFolder pulled diffed Hmk. subst pulled diffed.
  unfold Pull. change (RepoPath (logged sys) fr name) with folder.
  cbn [os_MkdirAll logged]. unfold log_err. cbn [fst snd]. rewrite Hmk.
  cbn [s_WalkDiffs observed DropboxService].
  apply WalkDiffs_alike; [| by split].
  apply observed_callback_alike.
  - intros f d lw. rewrite (answer_pull sys ro). apply Pull_callback_forget.
  - intros f d lw. apply Pull_callback_appends.
Qed.

(** C6. A push maps each classification to one operation, applied in
    the order of the classifications.  When the folder of the project
    exists, the push is the diff of that folder against the remote
    folder in which each classification is answered by its operation:
    nothing for a Match, the upload of the local file to the
    corresponding remote path for a Mismatch or an OnlyLocal, the
    deletion of the remote file for an OnlyRemote; it returns what that
    diff returns, leaves the world that diff leaves and has its
    classifications.  Seen from the caller, the log is the
    classifications, each followed at once by its one operation, and
    every commit has the mode [overwrite].  An upload opens the local
    file and sends requests until one fails; when it returns nil the
    last request committed at the remote path with the mode
    [overwrite] and the requests carried the bytes of the file, once
    and in order.  A deletion is one [DeleteV2] of the path, whose
    result it returns. *)
Theorem push_maps_classifications {W} (sys : Sys W) ro fr name (w w0 : W) info :
  let folder := RepoPath sys fr name in
  let remoteFolder := ("/" ++ name)%string in
  let action := push_action sys folder remoteFolder in
  os_Stat sys folder w = (w0, Ok info) ->
  Upload sys fr name (DropboxService sys ro) w
  = WalkDiffs sys ro folder remoteFolder None (answer sys action) w0
  /\ emissions (push_log sys ro fr name w)
     = emissions (diff_log sys ro folder remoteFolder None (answer sys action) w0)
  /\ follows action (push_log sys ro fr name w)
  /\ Forall commit_overwrites (push_log sys ro fr name w)
  /\ (forall local remote log (w1 : W),
        let run := Dropbox_Upload (logged sys) local remote (log, w1) in
        match os_Open sys local w1 with
        | (w2, Fail e) => run = ((log ++ [EvOpen local (Some e)])%list, w2, Some e)
        | (w2, Ok file) =>
            match f_Stat file with
            | Fail e => run = ((log ++ [EvOpen local None])%list, w2, Some e)
            | Ok _ =>
                exists evs, run.1.1 = (log ++ EvOpen local None :: evs)%list
                            /\ upload_run remote (content (f_reader file)) evs run.2
            end
        end)
  /\ (forall remote log (w1 : W),
        Dropbox_Delete (logged sys) remote (log, w1)
        = ((log ++ [EvDeleteV2 remote (client_DeleteV2 sys remote w1).2])%list,
           (client_DeleteV2 sys remote w1).1, (client_DeleteV2 sys remote w1).2)).
Proof.
  intros folder remoteFolder action Hstat.
  destruct (push_is_the_diff sys ro fr name w w0 info Hstat) as [[Hw Hem] Herr].
  fold folder remoteFolder action in Hw, Hem, Herr.
  destruct (push_log_inv sys ro fr name w) as [Hfollows Hmode].
  split; [| split; [exact Hem | split; [exact Hfollows | split; [exact Hmode | split]]]].
  - pose proof (push_observed sys ro fr name ([], w)) as Hp.
    pose proof (diff_observed sys ro folder remoteFolder None (answer sys action) ([], w0))
      as Hd.
    cbn [snd] in Hp, Hd. rewrite <- Hp, <- Hd. unfold forget. by rewrite Hw, Herr.
  - intros local remote log w1. apply Dropbox_Upload_run.
  - intros remote log w1. apply Dropbox_Delete_run.
Qed.

(** C7. A pull maps each classification to one operation.  After
    [os.MkdirAll] of the folder of the project, whose result is
    ignored, the pull is the diff of that folder against the remote
    folder in which each classification is answered by its operation:
    nothing for a Match, the download of the remote file to the
    corresponding local path for a Mismatch or an OnlyRemote, the
    removal of the local file for an OnlyLocal.  Seen from the caller,
    the log is the classifications, each followed at once by its one
    operation.  A download fetches the remote file, makes the
    directories of the local path, creates the file and writes to it
    the bytes it fetched, in this order; the first call that fails is
    the last, and its error is returned. *)
Theorem pull_maps_classifications {W} (sys : Sys W) ro fr name (w w1 : W) made :
  let folder := RepoPath sys fr name in
  let remoteFolder := ("/" ++ name)%string in
  let action := pull_action sys folder remoteFolder in
  os_MkdirAll sys folder projectFolderPerm w = (w1, made) ->
  Pull sys fr name (DropboxService sys ro) w
  = WalkDiffs sys ro folder remoteFolder None (answer sys action) w1
  /\ emissions (pull_log sys ro fr name w)
     = emissions (diff_log sys ro folder remoteFolder None (answer sys action) w1)
  /\ follows action (pull_log sys ro fr name w)
  /\ (forall local remote log (w2 : W),
        let run := Dropbox_Download (logged sys) local remote (log, w2) in
        exists evs,
          run.1.1 = (log ++ evs)%list
          /\ download_calls sys local remote (client_Download sys remote w2).2 evs run.2).
Proof.
  intros folder remoteFolder action Hmk.
  destruct (pull_is_the_diff sys ro fr name w w1 made Hmk) as [[Hw Hem] Herr].
  fold folder remoteFolder action in Hw, Hem, Herr.
  split; [| split; [exact Hem | split; [apply pull_log_follows |]]].
  - pose proof (pull_observed sys ro fr name ([], w)) as Hp.
    pose proof (diff_observed sys ro folder remoteFolder None (answer sys action) ([], w1))
      as Hd.
    cbn [snd] in Hp, Hd. rewrite <- Hp, <- Hd. unfold forget. by rewrite Hw, Herr.
  - intros local remote log w2. apply Dropbox_Download_calls.
Qed.

Lemma push_maps_classifications_witness :
  let pushed := Upload sim repo0 "demo" (DropboxService sim default_order) w_push in
  os_Stat sim (RepoPath sim repo0 "demo") w_push = (w_push, Ok (mkFileInfo true 4096))
  /\ pushed = WalkDiffs sim default_order demo "/demo" None
                (answer sim (push_action sim demo "/demo")) w_push
  /\ emissions (push_log sim default_order repo0 "demo" w_push)
     = emissions (diff_log sim default_order demo "/demo" None
                    (answer sim (push_action sim demo "/demo")) w_push)
  /\ omap top (push_log sim default_order repo0 "demo" w_push)
     = [inl ("a.txt", DiffResultOnlyExistsLocal);
        inr (ActUpload "/home/u/projects/demo/a.txt" "/demo/a.txt");
        inl ("c.txt", DiffResultOnlyExistsRemote);
        inr (ActDelete "/demo/c.txt")]%string
  /\ under "/demo" (w_remote pushed.1)
     = [("/demo/a.txt"%string, bytes_of_string "H1");
        ("/demo/b.txt"%string, bytes_of_string "H2")]
  /\ (exists evs,
        (Dropbox_Upload (logged sim) "/home/u/projects/demo/a.txt" "/demo/a.txt"
           ([], w_push)).1.1
        = ([] ++ EvOpen "/home/u/projects/demo/a.txt" None :: evs)%list
        /\ upload_run "/demo/a.txt" (bytes_of_string "H1") evs None).
Proof.
  cbv zeta.
  pose proof (push_maps_classifications sim default_order repo0 "demo" w_push w_push
                (mkFileInfo true 4096) eq_refl) as (HA & HB & _ & _ & HD & _).
  split; [reflexivity |]. split; [exact HA |]. split; [exact HB |].
  split; [vm_compute; reflexivity |]. split; [vm_compute; reflexivity |].
  exact (HD "/home/u/projects/demo/a.txt"%string "/demo/a.txt"%string [] w_push).
Defined.

Lemma pull_maps_classifications_witness :
  let pulled := Pull sim repo0 "demo" (DropboxService sim default_order) w_push in
  let made := set_dirs (cons demo) w_push in
  os_MkdirAll sim (RepoPath sim repo0 "demo") projectFolderPerm w_push = (made, None)
  /\ pulled = WalkDiffs sim default_order demo "/demo" None
                (answer sim (pull_action sim demo "/demo")) made
  /\ emissions (pull_log sim default_order repo0 "demo" w_push)
     = emissions (diff_log sim default_order demo "/demo" None
                    (answer sim (pull_action sim demo "/demo")) made)
  /\ omap top (pull_log sim default_order repo0 "demo" w_push)
     = [inl ("a.txt", DiffResultOnlyExistsLocal);
        inr (ActRemoveLocal "/home/u/projects/demo/a.txt");
        inl ("c.txt", DiffResultOnlyExistsRemote);
        inr (ActDownload "/home/u/projects/demo/c.txt" "/demo/c.txt")]%string
  /\ under demo (w_local pulled.1)
     = [("/home/u/projects/demo/b.txt"%string, bytes_of_string "H2");
        ("/home/u/projects/demo/c.txt"%string, bytes_of_string "H3")]
  /\ (exists evs,
        (Dropbox_Download (logged sim) "/home/u/projects/demo/c.txt" "/demo/c.txt"
           ([], w_push)).1.1 = ([] ++ evs)%list
        /\ download_calls sim "/home/u/projects/demo/c.txt" "/demo/c.txt"
             (Ok (bytes_of_string "H3")) evs None).
Proof.
  cbv zeta.
  pose proof (pull_maps_classifications sim default_order repo0 "demo" w_push
                (set_dirs (cons demo) w_push) None eq_refl) as (HA & HB & _ & HD).
  split; [reflexivity |]. split; [exact HA |]. split; [exact HB |].
  split; [vm_compute; reflexivity |]. split; [vm_compute; reflexivity |].
  exact (HD "/home/u/projects/demo/c.txt"%string "/demo/c.txt"%string [] w_push).
Defined.

(** ** An upload and a download in the simulated world *)

Lemma sim_upload_append fuel sid size written f (w : World) :
  w_faults w = 0%nat ->
  len (w_session w) = written -> 0 <= written -> size < 2 ^ 64 ->
  len f = size - written ->
  exists w' written' f',
    upload_append sim fuel sid size written f w = (w', Ok (written', f'))
    /\ same_files w w'
    /\ (w_session w' ++ f' = w_session w ++ f)%list
    /\ len (w_session w') = written'
    /\ written' <= Z.max written size.
Proof.
  assert (chunkSize = 2 ^ 24) as Hcs by reflexivity.
  revert written f w. induction fuel as [| fuel IH]; intros written f w Hfaults Hses Hw Hs Hf;
    cbn [upload_append].
  - exists w, written, f. destruct (chunkSize <? size - written); (split; [done |]).
    all: repeat split; try done; lia.
  - destruct (chunkSize <? size - written) eqn:Hc.
    2: { exists w, written, f. repeat split; try done; lia. }
    apply Z.ltb_lt in Hc.
    destruct (split_at chunkSize f) as [chunk f1] eqn:E.
    pose proof (split_at_len chunkSize f chunk f1 ltac:(lia) E) as Hlen.
    apply split_at_app in E.
    cbn [client_UploadSessionAppendV2 sim]. unfold request. rewrite Hfaults.
    cbn [Offset]. rewrite uint64_small by lia.
    assert ((written =? len (w_session w)) = true) as -> by (apply Z.eqb_eq; lia).
    destruct (IH (written + chunkSize) f1 (set_session (w_session w ++ chunk) w))
      as (w' & written' & f' & Hrun & Hsame & Hcat & Hlen' & Hmax).
    + done.
    + cbn. rewrite len_app. lia.
    + lia.
    + done.
    + subst f. rewrite len_app in Hf. lia.
    + exists w', written', f'. split; [done |]. split; [exact Hsame |].
      split; [| split; [done | lia]].
      rewrite Hcat. cbn. subst f. by rewrite <- app_assoc.
Qed.

(** In the simulated world an upload of a file succeeds and leaves its
    bytes at the remote path, whatever was there, chunked or not. *)
Lemma sim_Upload_stores_the_file local remote (w : World) (c : list byte) :
  w_faults w = 0%nat ->
  w_local w !! local = Some c ->
  len c < 2 ^ 63 ->
  let run := Dropbox_Upload sim local remote w in
  run.2 = None
  /\ w_remote run.1 = <[remote := c]> (w_remote w)
  /\ w_local run.1 = w_local w.
Proof.
  intros Hfaults Hlocal Hint run.
  enough (exists w', run = (w', None) /\ w_remote w' = <[remote := c]> (w_remote w)
                     /\ w_local w' = w_local w) as (w' & -> & H1 & H2) by done.
  subst run. unfold Dropbox_Upload.
  assert (chunkSize = 2 ^ 24) as Hcs by reflexivity.
  cbn [os_Open sim]. unfold sim_Open. rewrite Hlocal.
  cbn [f_Stat f_reader FileSize time_Now sim]. unfold content. cbn [flat_map fst].
  rewrite app_nil_r. cbn zeta.
  assert (Hcommit : forall body w0,
            sim_commit (mkCommitInfo (ci_Path (NewCommitInfo remote)) "overwrite" 0) body w0
            = (set_remote (insert remote body) w0, None)).
  { intros body w0. unfold sim_commit. cbn. by destruct (w_remote w0 !! remote). }
  destruct (chunkSize <? len c) eqn:Hc.
  - apply Z.ltb_lt in Hc.
    destruct (split_at chunkSize c) as [chunk f1] eqn:E.
    pose proof (split_at_len chunkSize c chunk f1 ltac:(lia) E) as Hlen.
    apply split_at_app in E.
    cbn [client_UploadSessionStart sim]. unfold request at 1. rewrite Hfaults.
    destruct (sim_upload_append (Z.to_nat (len c / chunkSize)) "session" (len c) chunkSize f1
                (set_session chunk w))
      as (w' & written' & f' & Hrun & Hsame & Hcat & Hlen' & Hmax); try done; try lia.
    { subst c. rewrite len_app. lia. }
    rewrite Hrun. destruct Hsame as (Hl & Hd & Hr & Hfo & Hfa). cbn in Hl, Hd, Hr, Hfo, Hfa, Hcat.
    cbn [client_UploadSessionFinish sim]. unfold request. rewrite Hfa, Hfaults.
    cbn [Offset]. pose proof (len_nonneg (w_session w')).
    rewrite uint64_small by lia.
    assert ((written' =? len (w_session w')) = true) as -> by (apply Z.eqb_eq; lia).
    rewrite Hcommit. eexists. split; [reflexivity |]. cbn. by rewrite Hcat, <- E, Hr, Hl.
  - cbn [client_Upload sim]. unfold request. rewrite Hfaults, Hcommit.
    eexists. split; [reflexivity | done].
Qed.

(** X7. Against the simulated backend, which refuses a cursor whose
    offset is not the length of the session, the upload of a local file
    of any size to a remote path that can hold a file (a clean path,
    under no file, and not a folder) succeeds and leaves exactly its
    bytes there, replacing what was there; a download of that path to a
    local path at which a file can be created (a clean path, under no
    regular file, and not a directory) then succeeds and writes the
    same bytes there. *)
Theorem sim_Upload_then_Download local remote back (w : World) (c : list byte) :
  w_faults w = 0%nat ->
  w_local w !! local = Some c ->
  len c < 2 ^ 63 ->
  can_commit remote w = true ->
  can_create back w = true ->
  let up := Dropbox_Upload sim local remote w in
  let down := Dropbox_Download sim back remote up.1 in
  up.2 = None
  /\ w_remote up.1 = <[remote := c]> (w_remote w)
  /\ down.2 = None
  /\ w_local down.1 !! back = Some c.
Proof.
  intros Hfaults Hlocal Hint _ _ up down.
  destruct (sim_Upload_stores_the_file local remote w c Hfaults Hlocal Hint) as (H1 & H2 & H3).
  fold up in H1, H2, H3. split; [done |]. split; [done |].
  subst down. unfold Dropbox_Download. cbn [client_Download sim].
  rewrite H2, lookup_insert_eq. cbn. by rewrite lookup_insert_eq.
Qed.

(** ** More of WalkDiffs *)

(** X8. The classifications of a diff come in two runs: first those of
    the walk, OnlyLocal or Mismatch, in the order of the walk, then the
    OnlyRemote ones; and no path of the first run comes again in the
    second. *)
Theorem walk_classifications_come_first {W} (sys : Sys W) ro local remote skip
    (cb : WalkDiffsCallback W) (w : W) :
  exists walked remaining,
    emissions (diff_log sys ro local remote skip cb w) = (walked ++ remaining)%list
    /\ Forall (fun em => em.2 = DiffResultOnlyExistsLocal \/ em.2 = DiffResultMismatch) walked
    /\ sublist (walked.*1) (local_inventory sys local remote skip w)
    /\ Forall (fun em => em.2 = DiffResultOnlyExistsRemote) remaining
    /\ (remaining <> [] -> Forall (fun em => em.1 ∉ remaining.*1) walked).
Proof.
  unfold diff_log.
  destruct (WalkDiffs_spec sys ro local remote skip cb w)
    as (tr & rf' & errw & n & -> & Hok & Hnil & Hzero).
  destruct Hok as [Ha Hb Hc Hd He Hf Hg].
  exists tr, (map (fun p => (p, DiffResultOnlyExistsRemote)) (take n (ro rf'))).
  split; [done |]. split; [| split; [done |]; split].
  - apply Forall_forall. intros [p d] Hin. destruct (Hb p d Hin) as [-> | [-> _]]; auto.
  - apply Forall_forall. intros em Hin. by apply list_elem_of_fmap in Hin as (q & -> & _).
  - intros Hne. destruct errw as [e |].
    { rewrite (Hzero ltac:(done)) in Hne. by rewrite take_0 in Hne. }
    apply Forall_forall. intros [p d] Hin Hrem. cbn in Hrem.
    apply list_elem_of_fmap in Hrem as ([q d'] & Hq & Hrem). cbn in Hq. subst q.
    apply list_elem_of_fmap in Hrem as (q & [= -> ->] & Hrem).
    apply (sublist_subseteq _ _ (sublist_take _ _)) in Hrem.
    apply range_order_elem_of in Hrem. rewrite (He eq_refl) in Hrem.
    rewrite decide_True in Hrem; [by destruct Hrem |].
    apply (sublist_subseteq _ _ Ha). apply list_elem_of_fmap. by exists (q, d).
Qed.

Lemma compare_event_Walk {W} (sys : Sys W) local skip (cb : WalkDiffsCallback W)
    entries rf (lw : Logged W) :
  appends compare_event lw
    (Walk (logged sys) local skip (traced (lift_cb cb)) entries rf lw).1.2.
Proof.
  apply (Walk_invariant (logged sys) (fun lw' => appends compare_event lw lw')
           (traced (lift_cb cb))).
  - intros p lw' H. eapply appends_trans; [exact H |]. by apply appends_log_res.
  - intros f d lw' _ H. eapply appends_trans; [exact H |]. unfold traced.
    eapply appends_after_record; [| apply appends_lift_cb]. exact I.
  - apply appends_refl.
Qed.

Lemma compare_event_only_remote {W} (cb : WalkDiffsCallback W) paths (lw : Logged W) :
  appends compare_event lw (only_remote (traced (lift_cb cb)) paths lw).1.
Proof.
  apply (only_remote_invariant (fun lw' => appends compare_event lw lw')
           (traced (lift_cb cb))).
  - intros f d lw' _ H. eapply appends_trans; [exact H |]. unfold traced.
    eapply appends_after_record; [| apply appends_lift_cb]. exact I.
  - apply appends_refl.
Qed.

(** X9. A diff asks for the remote listing once and first, recursively
    and of the remote folder it was given; it creates that folder at
    most once, right after a listing that failed with
    [path/not_found/]; after that it only opens local files and calls
    its callback. *)
Theorem WalkDiffs_lists_once {W} (sys : Sys W) ro local remote skip
    (cb : WalkDiffsCallback W) (w : W) :
  let arg := mkListFolderArg remote false true false in
  exists listed created compared,
    diff_log sys ro local remote skip cb w
    = (EvListFolder arg listed :: created ++ compared)%list
    /\ listed = error_of (client_ListFolder sys arg w).2
    /\ (created = []
        \/ exists err e, listed = Some err
                         /\ String.prefix "path/not_found/" (Error err) = true
                         /\ created = [EvCreateFolderV2 remote e])
    /\ Forall compare_event compared.
Proof.
  intros arg. unfold diff_log, WalkDiffs.
  assert (Hrest : forall entList (lw : Logged W) run,
    match remote_files (logged sys) remote entList ∅ with
    | Ok remoteFiles =>
        match Walk (logged sys) local skip (traced (lift_cb cb))
                (filepath_Walk (logged sys) local lw) remoteFiles lw with
        | (_, w2, Some err) => (w2, Some err)
        | (remoteFiles', w2, None) =>
            only_remote (traced (lift_cb cb)) (ro remoteFiles') w2
        end
    | Fail err => (lw, Some err)
    end = run -> appends compare_event lw run.1).
  { intros entList lw run <-. destruct (remote_files _ _ _ _) as [rf | err].
    2: { apply appends_refl. }
    pose proof (compare_event_Walk sys local skip cb (filepath_Walk (logged sys) local lw) rf lw)
      as H1.
    destruct (Walk _ _ _ _ _ _ _) as [[rf' lw2] [err |]]; [exact H1 |].
    cbn [fst snd] in H1.
    pose proof (compare_event_only_remote cb (ro rf') lw2) as H2.
    exact (appends_trans _ _ _ _ H1 H2). }
  unfold list_remote. cbn [client_ListFolder logged]. unfold log_res. cbn [fst snd].
  fold arg. destruct (client_ListFolder sys arg w) as [w1 [entries | err]]; cbn [error_of snd].
  - destruct (Hrest entries ([EvListFolder arg None], w1) _ eq_refl) as (compared & Heq & Hc).
    exists None, [], compared. split; [exact Heq | auto].
  - destruct (String.prefix "path/not_found/" (Error err)) eqn:Hpre.
    + cbn [client_CreateFolderV2 logged]. unfold log_err. cbn [fst snd].
      destruct (client_CreateFolderV2 sys remote w1) as [w2 [err' |]].
      * exists (Some err), [EvCreateFolderV2 remote (Some err')], []. cbn.
        split; [done |]. split; [done |]. split; [right; eauto | done].
      * cbn [app].
        destruct (Hrest [] ([EvListFolder arg (Some err); EvCreateFolderV2 remote None], w2)
                    _ eq_refl) as (compared & Heq & Hc).
        exists (Some err), [EvCreateFolderV2 remote None], compared.
        split; [exact Heq |]. split; [done |]. split; [right; eauto | done].
    + exists (Some err), [], []. cbn. auto.
Qed.

Lemma remote_files_spec {W} (sys : Sys W) remote entList acc rf :
  remote_files sys remote entList acc = Ok rf ->
  forall p,
    (forall v, rf !! p = Some v -> acc !! p = Some v \/ listed_at sys remote entList p v)
    /\ (acc !! p = None -> is_Some (rf !! p) -> exists v, listed_at sys remote entList p v)
    /\ (is_Some (acc !! p) \/ (exists v, listed_at sys remote entList p v) -> is_Some (rf !! p)).
Proof.
  unfold listed_at.
  revert acc. induction entList as [| ent rest IH]; intros acc; cbn [remote_files].
  - intros [= <-] p. split; [auto |]. split.
    + intros Hn [v Hv]. congruence.
    + intros [H | (v & Hin & _)]; [done | by apply elem_of_nil in Hin].
  - assert (Hskip : forall ent', (forall v, ent' <> FileEntry v) ->
              remote_files sys remote rest acc = Ok rf ->
              forall p,
                (forall v, rf !! p = Some v ->
                   acc !! p = Some v
                   \/ (FileEntry v ∈ ent' :: rest /\ filepath_Rel sys remote (PathDisplay v) = Ok p))
                /\ (acc !! p = None -> is_Some (rf !! p) ->
                    exists v, FileEntry v ∈ ent' :: rest
                              /\ filepath_Rel sys remote (PathDisplay v) = Ok p)
                /\ (is_Some (acc !! p)
                    \/ (exists v, FileEntry v ∈ ent' :: rest
                                  /\ filepath_Rel sys remote (PathDisplay v) = Ok p)
                    -> is_Some (rf !! p))).
    { intros ent' Hent H p. destruct (IH acc H p) as (H1 & H2 & H3). split; [| split].
      - intros v Hv. destruct (H1 v Hv) as [? | [? ?]]; [by left | right].
        split; [apply elem_of_cons; by right | done].
      - intros Hn Hs. destruct (H2 Hn Hs) as (v & ? & ?). exists v.
        split; [apply elem_of_cons; by right | done].
      - intros [Hs | (v & Hin & Hrel)]; apply H3; [by left | right].
        apply elem_of_cons in Hin as [Heq | Hin]; [by destruct (Hent v) | eauto]. }
    destruct ent as [v0 | path | path]; [| by apply Hskip | by apply Hskip].
    destruct (filepath_Rel sys remote (PathDisplay v0)) as [p0 | err] eqn:Hrel; [| done].
    intros H p. destruct (IH _ H p) as (H1 & H2 & H3). split; [| split].
    + intros v Hv. destruct (H1 v Hv) as [Hacc | [Hin Hr]].
      * destruct (decide (p0 = p)) as [<- | Hne].
        -- rewrite lookup_insert_eq in Hacc. injection Hacc as <-. right.
           split; [apply elem_of_cons; by left | done].
        -- rewrite lookup_insert_ne in Hacc by done. by left.
      * right. split; [apply elem_of_cons; by right | done].
    + intros Hn Hs. destruct (decide (p0 = p)) as [<- | Hne].
      * exists v0. split; [apply elem_of_cons; by left | done].
      * destruct (H2 ltac:(by rewrite lookup_insert_ne) Hs) as (v & ? & ?).
        exists v. split; [apply elem_of_cons; by right | done].
    + intros [Hs | (v & Hin & Hr)]; apply H3.
      * left. destruct (decide (p0 = p)) as [<- | Hne];
          [by rewrite lookup_insert_eq | by rewrite lookup_insert_ne].
      * apply elem_of_cons in Hin as [[= <-] | Hin].
        -- left. rewrite Hrel in Hr. injection Hr as <-. by rewrite lookup_insert_eq.
        -- right. eauto.
Qed.

(** X10. The remote inventory holds the file entries of the listing
    and nothing else: its keys are the paths of the file entries made
    relative to the remote folder, each key is bound to a file entry
    with that relative path, and folders and deleted entries are left
    out. *)
Theorem remote_inventory_is_the_listed_files {W} (sys : Sys W) remote entList rf :
  remote_files sys remote entList ∅ = Ok rf ->
  forall p,
    (forall v, rf !! p = Some v -> listed_at sys remote entList p v)
    /\ (is_Some (rf !! p) <-> exists v, listed_at sys remote entList p v).
Proof.
  intros H p. destruct (remote_files_spec sys remote entList ∅ rf H p) as (H1 & H2 & H3).
  split; [| split].
  - intros v Hv. destruct (H1 v Hv) as [Hacc | ?]; [| done]. by rewrite lookup_empty in Hacc.
  - apply H2, lookup_empty.
  - intros Hl. apply H3. by right.
Qed.

Lemma remote_files_Fail {W} (sys : Sys W) remote entList acc v e :
  FileEntry v ∈ entList -> filepath_Rel sys remote (PathDisplay v) = Fail e ->
  exists e', remote_files sys remote entList acc
             = Fail (WithMessage e' "failed to make remote filepath relative").
Proof.
  revert acc. induction entList as [| ent rest IH]; intros acc Hin Hrel.
  - by apply elem_of_nil in Hin.
  - cbn [remote_files]. destruct ent as [v0 | path | path].
    + destruct (filepath_Rel sys remote (PathDisplay v0)) as [p0 | err] eqn:Hrel0; [| eauto].
      apply elem_of_cons in Hin as [[= <-] | Hin]; [congruence | by apply IH].
    + apply elem_of_cons in Hin as [[=] | Hin]. by apply IH.
    + apply elem_of_cons in Hin as [[=] | Hin]. by apply IH.
Qed.

(** X11. When the path of one listed file cannot be made relative to
    the remote folder, the diff stops there: it returns that error
    with the message [failed to make remote filepath relative], no
    local file has been looked at and the callback has not been
    called. *)
Theorem remote_path_not_relative {W} (sys : Sys W) ro local remote skip
    (cb : WalkDiffsCallback W) (w w1 : W) entList v e :
  let arg := mkListFolderArg remote false true false in
  client_ListFolder sys arg w = (w1, Ok entList) ->
  FileEntry v ∈ entList ->
  filepath_Rel sys remote (PathDisplay v) = Fail e ->
  exists e',
    WalkDiffs (logged sys) ro local remote skip (traced (lift_cb cb)) ([], w)
    = (([EvListFolder arg None], w1),
       Some (WithMessage e' "failed to make remote filepath relative")).
Proof.
  intros arg Hlist Hin Hrel. unfold WalkDiffs, list_remote.
  cbn [client_ListFolder logged]. unfold log_res. cbn [fst snd]. fold arg. rewrite Hlist.
  destruct (remote_files_Fail sys remote entList ∅ v e Hin Hrel) as [e' He'].
  exists e'. change (remote_files (logged sys) remote entList ∅)
    with (remote_files sys remote entList ∅). by rewrite He'.
Qed.

(** ** What a push and a pull leave alone *)

Lemma keeps_grows (P Q : Event -> Prop) :
  (forall ev, Q ev -> P ev) -> grows_by Q (Forall P).
Proof.
  intros HQ log ev Hev HI. apply Forall_app. split; [done |]. repeat constructor. by apply HQ.
Qed.

Lemma traced_keeps {W} (P : Event -> Prop) (cb : WalkDiffsCallback (Logged W)) :
  (forall f d, P (EvCallback f d)) ->
  (forall f d lw, appends P lw (cb f d lw).1) ->
  forall f d (lw : Logged W), Forall P lw.1 -> Forall P (traced cb f d lw).1.1.
Proof.
  intros HP Hcb f d lw HI. unfold traced.
  eapply (appends_Forall P); [done | apply Hcb |].
  cbn. apply Forall_app. split; [done |]. repeat constructor. apply HP.
Qed.

Lemma Upload_callback_keeps {W} (sys : Sys W) ro folder remoteFolder file diff lw :
  appends push_keeps lw
    (Upload_callback (logged sys) (observed (DropboxService (logged sys) ro))
       folder remoteFolder file diff lw).1.
Proof.
  unfold Upload_callback. destruct diff; cbn.
  - apply appends_refl.
  - eapply appends_after_record; cycle 1.
    { eapply appends_mono; [| apply Dropbox_Upload_appends].
      intros ev. destruct ev; cbn; try done; intros _; split; by intros []. }
    split; by intros [].
  - eapply appends_after_record; cycle 1.
    { eapply appends_mono; [| apply Dropbox_Delete_appends].
      intros ev. destruct ev; cbn; try done; intros _; split; by intros []. }
    split; by intros [].
  - eapply appends_after_record; cycle 1.
    { eapply appends_mono; [| apply Dropbox_Upload_appends].
      intros ev. destruct ev; cbn; try done; intros _; split; by intros []. }
    split; by intros [].
Qed.

Lemma Pull_callback_keeps {W} (sys : Sys W) ro folder remoteFolder file diff lw :
  appends pull_keeps lw
    (Pull_callback (logged sys) (observed (DropboxService (logged sys) ro))
       folder remoteFolder file diff lw).1.
Proof.
  unfold Pull_callback. destruct diff; cbn.
  - apply appends_refl.
  - eapply appends_after_record; cycle 1.
    { eapply appends_mono; [| apply Dropbox_Download_appends].
      intros ev. destruct ev; cbn; try done; intros _; by intros []. }
    by intros [].
  - eapply appends_after_record; cycle 1.
    { eapply appends_mono; [| apply Dropbox_Download_appends].
      intros ev. destruct ev; cbn; try done; intros _; by intros []. }
    by intros [].
  - apply appends_log_err. intros e. by intros [].
Qed.

(** X12. A push leaves the local tree alone: none of its calls makes
    a directory, creates, writes or removes a local file, and none is a
    download. *)
Theorem push_leaves_the_local_tree {W} (sys : Sys W) ro fr name (w : W) :
  Forall (fun ev => ~ local_write ev /\ ~ is_download ev) (push_log sys ro fr name w).
Proof.
  change (Forall push_keeps (push_log sys ro fr name w)).
  unfold push_log, Upload. cbn [os_Stat logged].
  destruct (log_res _ _ _) as [lw0 [info | err]] eqn:E;
    unfold log_res in E; cbn [fst snd] in E;
    destruct (os_Stat sys _ w) as [w0 r]; simplify_eq/=.
  - apply WalkDiffs_log_invariant.
    + apply keeps_grows. intros ev. destruct ev; cbn; try done; intros _; split; by intros [].
    + intros f d lw _. apply traced_keeps.
      * intros f' d'. split; by intros [].
      * intros f' d' lw'. apply Upload_callback_keeps.
    + repeat constructor; by intros [].
  - destruct (decide (err = ErrNotExist)); cbn; repeat constructor; by intros [].
Qed.

(** X13. A pull leaves the remote files alone: none of its calls is
    an upload, a request of an upload session or a deletion. *)
Theorem pull_leaves_the_remote_files {W} (sys : Sys W) ro fr name (w : W) :
  Forall (fun ev => ~ remote_write ev) (pull_log sys ro fr name w).
Proof.
  change (Forall pull_keeps (pull_log sys ro fr name w)).
  unfold pull_log, Pull. cbn [os_MkdirAll logged].
  destruct (log_err _ _ _) as [lw1 err] eqn:E.
  unfold log_err in E; cbn [fst snd] in E.
  destruct (os_MkdirAll sys _ _ w) as [w0 r]; simplify_eq/=.
  apply WalkDiffs_log_invariant.
  - apply keeps_grows. intros ev. destruct ev; cbn; try done; intros _; by intros [].
  - intros f d lw _. apply traced_keeps.
    + intros f' d'. by intros [].
    + intros f' d' lw'. apply Pull_callback_keeps.
  - repeat constructor; by intros [].
Qed.

(** ** repo.go: the environment, the list, the backups *)

Lemma prefix_length (p s : string) :
  String.prefix p s = true -> (String.length p <= String.length s)%nat.
Proof.
  revert s. induction p as [| c p IH]; intros s; [cbn; lia |].
  destruct s as [| c' s]; cbn [String.prefix String.length]; [done |].
  destruct (Ascii.ascii_dec c c'); [| done].
  intros H. apply IH in H. lia.
Qed.

Lemma replaces_never (newVar v : string) : replaces newVar v = false.
Proof.
  unfold replaces. destruct (String.length newVar <? String.length v)%nat eqn:Hlt; [| done].
  apply Nat.ltb_lt in Hlt. destruct (String.prefix v newVar) eqn:Hp; [| done].
  apply prefix_length in Hp. lia.
Qed.

Lemma find_replaces (v : string) (l : list (string * string)) :
  List.find (fun kv => replaces kv.1 v) l = None.
Proof.
  induction l as [| kv l IH]; cbn [List.find]; [done |].
  rewrite replaces_never. exact IH.
Qed.

Lemma modEnviron_step_keeps order array i m v :
  array !! i = Some v ->
  modEnviron_step order (array, Shared i, m) i = (array, Shared (S i), m).
Proof.
  intros Hv. unfold modEnviron_step. rewrite Hv, find_replaces. cbn [default append_env].
  pose proof (lookup_lt_Some _ _ _ Hv) as Hlt.
  apply Nat.ltb_lt in Hlt. rewrite Hlt. by rewrite list_insert_id.
Qed.

Lemma modEnviron_loop_keeps order array m k j :
  (k + j <= length array)%nat ->
  foldl (modEnviron_step order) (array, Shared k, m) (seq k j) = (array, Shared (k + j), m).
Proof.
  revert k. induction j as [| j IH]; intros k Hlen; cbn [seq foldl].
  - by rewrite Nat.add_0_r.
  - destruct (lookup_lt_is_Some_2 array k ltac:(lia)) as [v Hv].
    rewrite (modEnviron_step_keeps order array k m v Hv), IH by lia.
    by replace (S k + j)%nat with (k + S j)%nat by lia.
Qed.


Lemma append_env_contents array env x :
  well_formed array env ->
  well_formed (append_env array env x).1 (append_env array env x).2
  /\ env_contents (append_env array env x).1 (append_env array env x).2
     = (env_contents array env ++ [x])%list.
Proof.
  destruct env as [n | l]; cbn [append_env well_formed env_contents fst snd]; [| done].
  intros Hn. destruct (n <? length array)%nat eqn:Hlt;
    cbn [append_env well_formed env_contents fst snd]; [| done].
  apply Nat.ltb_lt in Hlt. rewrite length_insert. split; [lia |].
  rewrite (take_S_r _ _ x) by (by apply list_lookup_insert_eq).
  by rewrite take_insert_ge by lia.
Qed.

Lemma append_all_contents array env (l : list (string * string)) :
  well_formed array env ->
  let st := foldl (fun st kv => append_env st.1 st.2 (assignment kv)) (array, env) l in
  env_contents st.1 st.2 = (env_contents array env ++ map assignment l)%list.
Proof.
  revert array env. induction l as [| kv l IH]; intros array env Hwf; cbn [foldl map].
  - by rewrite app_nil_r.
  - destruct (append_env_contents array env (assignment kv) Hwf) as [Hwf' Hc].
    cbn [fst snd]. destruct (append_env array env (assignment kv)) as [array' env'].
    cbn [fst snd] in *. rewrite IH by done. rewrite Hc, <- app_assoc. done.
Qed.

(** X14. [modEnviron] replaces nothing: the condition under which it
    would put a new assignment in the place of a variable asks that the
    variable be a prefix of a shorter name, so the result is the whole
    environment as it was, followed by one assignment for each new
    variable, also for those the environment already defines. *)
Theorem modEnviron_replaces_nothing (order : EnvRange) (environ : list string) (spare : nat)
    (newVars : gmap string string) :
  modEnviron order environ spare newVars
  = (environ ++ map assignment (order (length environ) newVars))%list.
Proof.
  unfold modEnviron.
  rewrite (modEnviron_loop_keeps order _ newVars 0 (length environ))
    by (rewrite length_app; lia).
  cbn [Nat.add].
  pose proof (append_all_contents (environ ++ replicate spare EmptyString)
                (Shared (length environ)) (order (length environ) newVars)) as H.
  cbn zeta in H. destruct (foldl _ _ _) as [array' env']. cbn [fst snd] in H.
  rewrite H by (cbn; rewrite length_app; lia).
  cbn [env_contents]. by rewrite take_app_length.
Qed.

Lemma canWrite_loop_true {Regexp} (MatchString : Regexp -> string -> bool)
    compiledFilters itemName :
  canWrite_loop MatchString compiledFilters itemName true = true.
Proof.
  induction compiledFilters as [| re rest IH]; cbn [canWrite_loop]; [done |].
  by destruct (negb (MatchString re itemName)).
Qed.

Lemma directories_cons f rest :
  directories (f :: rest)
  = if de_IsDir f then de_Name f :: directories rest else directories rest.
Proof. unfold directories. cbn [omap list_omap]. by destruct (de_IsDir f). Qed.

Lemma list_matches_all {Regexp} (MatchString : Regexp -> string -> bool)
    compiledFilters finfo matches :
  list_matches MatchString compiledFilters finfo matches
  = (matches ++ directories finfo)%list.
Proof.
  revert matches. induction finfo as [| f rest IH]; intros matches.
  - cbn. by rewrite app_nil_r.
  - cbn [list_matches]. rewrite directories_cons. destruct (de_IsDir f); cbn [negb].
    + rewrite canWrite_loop_true, IH. by rewrite <- app_assoc.
    + apply IH.
Qed.

(** X15. [List] ignores its filters: when it returns a list, that list
    is the names of all the directories of the folder in the order of
    [ReadDir], the same as with no filter at all. *)
Theorem RepoList_ignores_its_filters {W Regexp} (sys : Sys W)
    (ioutil_ReadDir : string -> W -> result (list DirEntry))
    (regexp_Compile : string -> result Regexp) (MatchString : Regexp -> string -> bool)
    (fr : ProjectRepository) (filters : list string) (w : W) (matches : list string) :
  RepoList sys ioutil_ReadDir regexp_Compile MatchString fr filters w = Ok matches ->
  exists finfo,
    ioutil_ReadDir (RepoPath sys fr "") w = Ok finfo
    /\ matches = directories finfo
    /\ RepoList sys ioutil_ReadDir regexp_Compile MatchString fr [] w = Ok matches.
Proof.
  unfold RepoList. destruct (ioutil_ReadDir (RepoPath sys fr "") w) as [finfo | err]; [| done].
  destruct (compile_filters regexp_Compile filters []) as [compiledFilters | err]; [| done].
  intros [= <-]. exists finfo. cbn [compile_filters].
  by rewrite !list_matches_all.
Qed.


Lemma run_backups_running {W} (host : Host W) restic folder repos ran (w : W) :
  let run := run_backups (running host) restic folder repos (ran, w) in
  (run.2 = None -> run.1.1 = (ran ++ backed_up restic folder repos (length repos))%list)
  /\ (forall e, run.2 = Some e ->
        exists n r, repos !! n = Some r
          /\ run.1.1 = (ran ++ backed_up restic folder repos n
                            ++ [(backup_command restic r folder, Some e)])%list).
Proof.
  revert ran w. induction repos as [| r rest IH]; intros ran w; cbn [run_backups].
  - cbn. split; [by rewrite app_nil_r | done].
  - cbn [cmd_Run running fst snd].
    destruct (cmd_Run host (backup_command restic r folder) w) as [w1 [err |]].
    + cbn [fst snd]. split; [done |]. intros e [= <-]. by exists 0%nat, r.
    + destruct (IH (ran ++ [(backup_command restic r folder, None)])%list w1) as [H1 H2].
      cbn zeta in *. cbn [fst snd]. split.
      * intros H. etransitivity; [exact (H1 H) |]. by rewrite <- app_assoc.
      * intros e H. destruct (H2 e H) as (n & r' & Hn & Hrun).
        exists (S n), r'. split; [done |].
        etransitivity; [exact Hrun |]. by rewrite <- app_assoc.
Qed.

(** X18. A project id is 64 characters, each a digit or a letter from
    a to f in lower case, whatever the name of the project: it holds no
    separator, and the history file named by it lies in the history
    directory itself. *)
Theorem Id_is_a_file_name (name : string) :
  String.length (Id name) = 64%nat
  /\ forallb is_lower_hex (list_ascii_of_string (Id name)) = true.
Proof.
  unfold Id. split; [by rewrite hex_length, Sum256_length | apply hex_lower].
Qed.

(** X17. [Restic.Backup] with no repository fails with
    [ErrNoResticRepos] and runs nothing; when [restic] is not found it
    runs nothing and returns [ErrResticNotFound], or the error of the
    search.  Otherwise it runs [restic --repo r backup folder] for the
    repositories in order and stops at the first command that fails:
    when it returns nil every repository was backed up with success,
    and when it returns an error the commands before the last one
    succeeded, the last one returned that error, and no command was
    run for the repositories after it. *)
Theorem Restic_Backup_runs_in_order {W} (host : Host W)
    (folder : string) (repos : list string) (w : W) :
  let run := Restic_Backup (running host) folder repos ([], w) in
  (repos = [] -> run = (([], w), Some ErrNoResticRepos))
  /\ (forall err, repos <> [] -> exec_LookPath host "restic" w = Fail err ->
        run = (([], w), Some (if decide (err = ErrNotExist) then ErrResticNotFound else err)))
  /\ (forall restic, repos <> [] -> exec_LookPath host "restic" w = Ok restic ->
        (run.2 = None -> run.1.1 = backed_up restic folder repos (length repos))
        /\ (forall e, run.2 = Some e ->
              exists n r, repos !! n = Some r
                /\ run.1.1 = (backed_up restic folder repos n
                              ++ [(backup_command restic r folder, Some e)])%list)).
Proof.
  intros run. subst run. unfold Restic_Backup. split; [by intros -> |].
  cbn [exec_LookPath running snd]. split.
  - intros err Hne ->. destruct repos; [done |].
    by destruct (decide (err = ErrNotExist)).
  - intros restic Hne ->. destruct repos as [| r rest]; [done |].
    exact (run_backups_running host restic folder (r :: rest) [] w).
Qed.

(** X16. [ProjectRepository.Restore] with the restic service never
    runs a restore: the commands of a run are none, or the one command
    [restic --repo repo backup folder] on the folder of the project. *)
Theorem RepoRestore_runs_a_backup {W} (sys : Sys W) (host : Host W)
    (fr : ProjectRepository) (name repo : string) (w : W) :
  let sys' := carried (list (list string)) sys in
  let run := RepoRestore sys' (commands host) fr (Restic sys' (commands host))
               name repo ([], w) in
  run.1.1 = []
  \/ exists restic, run.1.1 = [backup_command restic repo (RepoPath sys fr name)].
Proof.
  intros sys' run.
  set (P := fun x : list (list string) * W * option error =>
              x.1.1 = []
              \/ exists restic, x.1.1 = [backup_command restic repo (RepoPath sys fr name)]).
  change (P run). subst run. unfold RepoRestore.
  change (RepoPath sys' fr name) with (RepoPath sys fr name).
  assert (Hbackup : forall w',
            P (bs_Backup (Restic sys' (commands host)) (RepoPath sys fr name) [repo]
                 ([], w'))).
  { intros w'. unfold P. cbn [bs_Backup Restic]. unfold Restic_Backup.
    cbn [exec_LookPath commands snd].
    destruct (exec_LookPath host "restic" w') as [restic | err].
    - right. exists restic. cbn [run_backups cmd_Run commands fst snd].
      by destruct (cmd_Run host _ w') as [w2 [e |]].
    - left. by destruct (decide (err = ErrNotExist)). }
  cbn [os_Stat sys' carried]. unfold carrying at 1. cbn [fst snd].
  destruct (os_Stat sys (RepoPath sys fr name) w) as [w0 r].
  destruct (decide (error_of r = Some ErrNotExist)).
  - apply Hbackup.
  - cbn [cli_Confirm commands]. unfold carrying. cbn [fst snd].
    destruct (cli_Confirm host _ w0) as [w1 [|]]; cbn [negb].
    + apply Hbackup.
    + by left.
Qed.

(** ** The earlier WalkDiffs *)

Lemma recorded_step {W} (cb : WalkDiffsCallback W) f d calls (w : W) :
  quiet calls ->
  let r := recorded cb f d (calls, w) in
  r.1.1 = (calls ++ [(f, d, r.2)])%list
  /\ (r.2 = None -> quiet r.1.1)
  /\ first_error_returned r.1.1 r.2.
Proof.
  intros Hq. unfold recorded. cbn [fst snd]. destruct (cb f d w) as [w' [e |]]; cbn [fst snd].
  - split; [done |]. split; [done |]. right. by exists calls, f, d, e.
  - split; [done |].
    assert (quiet (calls ++ [(f, d, None)])) by (apply Forall_app; by repeat constructor).
    split; [done | by left].
Qed.

Section EarlierErrors.

Context {W : Type}.
Variable sys : Sys W.
Variable range_order : MetadataRange.
Variable Files_ListFolder : ListFolderArg -> W -> W * (list Metadata + ClientError).
Variable dropbox_ContentHash : Reader -> result string.
Variable cb : WalkDiffsCallback W.

Lemma earlier_walkFn_calls local e rf calls (w : W) rf' calls' w' err :
  quiet calls ->
  earlier_walkFn (carried (list Call) sys) dropbox_ContentHash local (recorded cb) e rf (calls, w)
  = Returns (rf', (calls', w'), err) ->
  (err = None -> quiet calls') /\ first_error_returned calls' err.
Proof.
  intros Hq. unfold earlier_walkFn.
  destruct (we_walkErr e); [intros [= <- <- <- <-]; split; [done | by left] |].
  destruct (IsDir (we_info e)); [intros [= <- <- <- <-]; split; [done | by left] |].
  destruct (strip_separator _) as [p | msg]; [| done].
  destruct (rf !! p) as [md |].
  - unfold earlier_HashLocal. cbn [os_Open carried]. unfold carrying. cbn [fst snd].
    destruct (os_Open sys (we_file e) w) as [w1 [f | oerr]].
    2: { intros [= <- <- <- <-]. split; [done | by left]. }
    destruct (dropbox_ContentHash (f_reader f)) as [hash | herr].
    2: { intros [= <- <- <- <-]. split; [done | by left]. }
    destruct (negb (md_ContentHash md =? hash)%string).
    2: { intros [= <- <- <- <-]. split; [done | by left]. }
    destruct (recorded_step cb p DiffResultMismatch calls w1 Hq) as (_ & H2 & H3).
    cbn zeta in *.
    destruct (recorded cb p DiffResultMismatch (calls, w1)) as [[calls1 w2] [e1 |]];
      intros [= <- <- <- <-]; cbn [fst snd] in *; auto.
  - destruct (recorded_step cb p DiffResultOnlyExistsLocal calls w Hq) as (_ & H2 & H3).
    cbn zeta in *.
    destruct (recorded cb p DiffResultOnlyExistsLocal (calls, w)) as [[calls1 w2] e1].
    intros [= <- <- <- <-]; cbn [fst snd] in *; auto.
Qed.

Lemma earlier_Walk_calls local entries rf calls (w : W) rf' calls' w' err :
  quiet calls ->
  earlier_Walk (carried (list Call) sys) dropbox_ContentHash local (recorded cb) entries rf (calls, w)
  = Returns (rf', (calls', w'), err) ->
  (err = None -> quiet calls') /\ first_error_returned calls' err.
Proof.
  revert rf calls w. induction entries as [| e rest IH]; intros rf calls w Hq;
    cbn [earlier_Walk].
  - intros [= <- <- <- <-]. split; [done | by left].
  - destruct (earlier_walkFn (carried (list Call) sys) dropbox_ContentHash local (recorded cb) e rf (calls, w))
      as [[[rf1 [calls1 w1]] err1] | msg] eqn:Hstep; [| done].
    apply earlier_walkFn_calls in Hstep as [H1 H2]; [| done].
    destruct err1 as [e1 |].
    + by intros [= <- <- <- <-].
    + apply IH. by apply H1.
Qed.

Lemma only_remote_calls paths calls (w : W) :
  quiet calls ->
  let r := only_remote (recorded cb) paths (calls, w) in
  first_error_returned r.1.1 r.2.
Proof.
  revert calls w. induction paths as [| p rest IH]; intros calls w Hq; cbn [only_remote].
  - by left.
  - destruct (recorded_step cb p DiffResultOnlyExistsRemote calls w Hq) as (_ & H2 & H3).
    cbn zeta in *.
    destruct (recorded cb p DiffResultOnlyExistsRemote (calls, w)) as [[calls1 w1] [e1 |]];
      cbn [fst snd] in *; [done |].
    apply IH. by apply H2.
Qed.

End EarlierErrors.

(** X19. The earlier [WalkDiffs] returns the first error of its
    callback and calls it no more: of the calls of a run only the last
    can have returned an error, and then the run returns that error. *)
Theorem earlier_WalkDiffs_returns_the_callback_error {W} (sys : Sys W)
    (range_order : MetadataRange)
    (Files_ListFolder : ListFolderArg -> W -> W * (list Metadata + ClientError))
    (dropbox_ContentHash : Reader -> result string)
    (cb : WalkDiffsCallback W) local remote (w w' : W) calls err :
  earlier_WalkDiffs (carried (list Call) sys) range_order
    (fun arg => carrying (Files_ListFolder arg)) dropbox_ContentHash
    local remote (recorded cb) ([], w)
  = Returns ((calls, w'), err) ->
  first_error_returned calls err.
Proof.
  unfold earlier_WalkDiffs. unfold carrying at 1. cbn [fst snd].
  destruct (Files_ListFolder _ w) as [w1 [entries | cerr]].
  - destruct (earlier_Walk _ _ _ _ _ _ _) as [[[rf1 [calls1 w2]] [e1 |]] | msg] eqn:Hwalk;
      [| | done].
    + intros [= <- <- <-]. by eapply earlier_Walk_calls in Hwalk as [_ H]; [| constructor].
    + eapply earlier_Walk_calls in Hwalk as [H _]; [| constructor].
      intros Hrun.
      pose proof (only_remote_calls cb (range_order rf1) calls1 w2 (H eq_refl)) as Hr.
      cbn zeta in Hr. injection Hrun as Hrun. rewrite Hrun in Hr. exact Hr.
  - destruct (ce_StatusCode cerr) as [code |].
    + destruct (negb (code =? 409)).
      * intros [= <- <- <-]. left. constructor.
      * destruct (earlier_Walk _ _ _ _ _ _ _) as [[[rf1 [calls1 w2]] [e1 |]] | msg] eqn:Hwalk;
          [| | done].
        -- intros [= <- <- <-]. by eapply earlier_Walk_calls in Hwalk as [_ H]; [| constructor].
        -- eapply earlier_Walk_calls in Hwalk as [H _]; [| constructor].
           intros Hrun.
           pose proof (only_remote_calls cb (range_order rf1) calls1 w2 (H eq_refl)) as Hr.
           cbn zeta in Hr. injection Hrun as Hrun. rewrite Hrun in Hr. exact Hr.
    + intros [= <- <- <-]. left. constructor.
Qed.

Lemma earlier_Walk_apart {W} (sys : Sys W) (dropbox_ContentHash : Reader -> result string)
    (cb : WalkDiffsCallback W) local entries rf calls (w : W) rf' calls' w' err :
  keys_apart local rf entries ->
  earlier_Walk (carried (list Call) sys) dropbox_ContentHash local (recorded cb)
    entries rf (calls, w)
  = Returns (rf', (calls', w'), err) ->
  rf' = rf /\ exists new, calls' = (calls ++ new)%list /\ Forall only_local new.
Proof.
  revert calls w. induction entries as [| e rest IH]; intros calls w Hapart;
    cbn [earlier_Walk].
  - intros [= <- <- <- <-]. split; [done |]. exists []. by rewrite app_nil_r.
  - assert (Hrest : keys_apart local rf rest).
    { intros e0 p Hin. apply Hapart, elem_of_cons. by right. }
    assert (He : forall p, we_walkErr e = None -> IsDir (we_info e) = false ->
                           strip_separator (remove_first local (we_file e)) = Returns p ->
                           rf !! p = None).
    { intros p. apply Hapart, elem_of_cons. by left. }
    unfold earlier_walkFn.
    destruct (we_walkErr e).
    { intros [= <- <- <- <-]. split; [done |]. exists []. by rewrite app_nil_r. }
    destruct (IsDir (we_info e)); [by apply IH |].
    destruct (strip_separator _) as [p | msg]; [| done].
    rewrite (He p eq_refl eq_refl eq_refl). unfold recorded at 1. cbn [fst snd].
    destruct (cb p DiffResultOnlyExistsLocal w) as [w1 [e1 |]].
    + intros [= <- <- <- <-]. split; [done |]. eexists [_]. split; [done |].
      by repeat constructor.
    + intros Hrun. apply IH in Hrun as [-> (new & -> & Hnew)]; [| done].
      split; [done |]. exists ((p, DiffResultOnlyExistsLocal, None) :: new).
      split; [by rewrite <- app_assoc | by constructor].
Qed.

Lemma metadata_range_empty (ro : MetadataRange) : ro ∅ = [].
Proof.
  apply Permutation_nil_r. rewrite (metadata_keys_perm ro ∅). by rewrite map_to_list_empty.
Qed.

Lemma metadata_range_elem_of (ro : MetadataRange) (m : gmap string Metadata) p :
  p ∈ ro m <-> is_Some (m !! p).
Proof.
  rewrite (metadata_keys_perm ro m), list_elem_of_fmap. split.
  - intros ([q md] & -> & Hin). apply elem_of_map_to_list in Hin. by exists md.
  - intros [md Hmd]. exists (p, md). split; [done |]. by apply elem_of_map_to_list.
Qed.

(** X20. When the listing fails, the earlier [WalkDiffs] returns the
    error without calling the callback unless it is a [*dropbox.Error]
    with the status code 409; after a 409 the remote inventory is
    empty and every call of the callback is an OnlyLocal. *)
Theorem earlier_WalkDiffs_absent_namespace {W} (sys : Sys W) (range_order : MetadataRange)
    (Files_ListFolder : ListFolderArg -> W -> W * (list Metadata + ClientError))
    (dropbox_ContentHash : Reader -> result string)
    (cb : WalkDiffsCallback W) local remote (w w1 : W) cerr :
  let run := earlier_WalkDiffs (carried (list Call) sys) range_order
               (fun arg => carrying (Files_ListFolder arg)) dropbox_ContentHash
               local remote (recorded cb) ([], w) in
  Files_ListFolder (mkListFolderArg remote false true false) w = (w1, inr cerr) ->
  (ce_StatusCode cerr <> Some 409 -> run = Returns (([], w1), Some (ce_error cerr)))
  /\ (ce_StatusCode cerr = Some 409 ->
      forall calls w' err, run = Returns ((calls, w'), err) -> Forall only_local calls).
Proof.
  intros run Hlist. subst run. unfold earlier_WalkDiffs. cbv beta. unfold carrying.
  cbn [fst snd]. rewrite Hlist. cbv beta iota zeta. split.
  - intros Hcode. destruct (ce_StatusCode cerr) as [code |]; [| done].
    destruct (code =? 409) eqn:Hc; [| done]. apply Z.eqb_eq in Hc. congruence.
  - intros -> calls w' err. cbn [negb Z.eqb Pos.eqb]. cbn [earlier_remote_files].
    destruct (earlier_Walk _ _ _ _ _ _ _) as [[[rf1 [calls1 w2]] [e1 |]] | msg] eqn:Hwalk;
      [| | done];
      apply earlier_Walk_apart in Hwalk as [-> (new & -> & Hnew)];
      try (intros e p _ _ _ _; apply lookup_empty).
    + by intros [= <- <- <-].
    + rewrite metadata_range_empty. cbn [only_remote]. by intros [= <- <- <-].
Qed.

Lemma prefix_app (a b : string) : String.prefix a (a ++ b) = true.
Proof.
  induction a as [| c a IH]; [by destruct b |].
  simpl. destruct (Ascii.ascii_dec c c) as [_ | Hne]; [exact IH |].
  by destruct Hne.
Qed.

Lemma string_drop_app (a b : string) : string_drop (String.length a) (a ++ b) = b.
Proof. induction a as [| c a IH]; [by destruct b | exact IH]. Qed.

Lemma remove_first_unfold (old s : string) :
  remove_first old s
  = if String.prefix old s then string_drop (String.length old) s
    else match s with
         | EmptyString => EmptyString
         | String c s' => String c (remove_first old s')
         end.
Proof. by destruct s. Qed.

Lemma remove_first_prefix (old rest : string) : remove_first old (old ++ rest) = rest.
Proof. by rewrite remove_first_unfold, prefix_app, string_drop_app. Qed.

Lemma append_cons x (a b : string) : (String x a ++ b = String x (a ++ b))%string.
Proof. reflexivity. Qed.

Lemma string_app_assoc' (a b c : string) : ((a ++ b) ++ c = a ++ (b ++ c))%string.
Proof. induction a as [| x a IH]; [done |]. by rewrite !append_cons, IH. Qed.

Lemma prefix_split (a s : string) :
  String.prefix a s = true -> exists b, s = (a ++ b)%string.
Proof.
  revert s. induction a as [| c a IH]; intros s.
  - intros _. by exists s.
  - destruct s as [| c' s]; simpl; [done |].
    destruct (Ascii.ascii_dec c c') as [<- | _]; [| done].
    intros H. apply IH in H as [b ->]. exists b. by rewrite append_cons.
Qed.

(** The keys of the earlier inventory keep the separator in front. *)
Lemma earlier_remote_files_keys remote entries acc p :
  Forall (fun ent => (Tag ent =? "folder")%string = false ->
                     String.prefix (remote ++ "/") (md_PathDisplay ent) = true) entries ->
  (forall q, is_Some (acc !! q) -> String.prefix "/" q = true) ->
  is_Some (earlier_remote_files remote entries acc !! p) -> String.prefix "/" p = true.
Proof.
  intros Hall. revert acc. induction Hall as [| ent rest Hent _ IH]; intros acc Hacc;
    cbn [earlier_remote_files]; [apply Hacc |].
  destruct (Tag ent =? "folder")%string; cbn [negb]; [by apply IH |].
  apply IH. intros q.
  destruct (decide (remove_first remote (md_PathDisplay ent) = q)) as [<- | Hne].
  - intros _. apply prefix_split in Hent as [rel ->]; [| done].
    rewrite string_app_assoc', remove_first_prefix. apply (prefix_app "/" rel).
  - rewrite lookup_insert_ne by done. apply Hacc.
Qed.

Lemma strip_separator_slash (rel : string) : strip_separator ("/" ++ rel) = Returns rel.
Proof. reflexivity. Qed.

(** X21. The earlier [WalkDiffs] compares nothing when the paths are
    what the backend and the walk give: a remote key is the displayed
    path without the remote folder and keeps the separator in front, a
    local key loses it, so every call of the callback is an OnlyLocal,
    or an OnlyRemote of a key that starts with the separator. *)
Theorem earlier_WalkDiffs_compares_nothing {W} (sys : Sys W) (range_order : MetadataRange)
    (Files_ListFolder : ListFolderArg -> W -> W * (list Metadata + ClientError))
    (dropbox_ContentHash : Reader -> result string)
    (cb : WalkDiffsCallback W) local remote (w w1 w' : W) entries calls err :
  Files_ListFolder (mkListFolderArg remote false true false) w = (w1, inl entries) ->
  Forall (fun ent => (Tag ent =? "folder")%string = false ->
                     String.prefix (remote ++ "/") (md_PathDisplay ent) = true) entries ->
  Forall (fun e => IsDir (we_info e) = false ->
                   exists rel, we_file e = (local ++ "/" ++ rel)%string
                               /\ String.prefix "/" rel = false)
         (filepath_Walk sys local w1) ->
  earlier_WalkDiffs (carried (list Call) sys) range_order
    (fun arg => carrying (Files_ListFolder arg)) dropbox_ContentHash
    local remote (recorded cb) ([], w)
  = Returns ((calls, w'), err) ->
  Forall (fun c => c.1.2 = DiffResultOnlyExistsLocal
                   \/ (c.1.2 = DiffResultOnlyExistsRemote /\ String.prefix "/" c.1.1 = true))
         calls.
Proof.
  intros Hlist Hremote Hlocal.
  unfold earlier_WalkDiffs. cbv beta. unfold carrying. cbn [fst snd].
  rewrite Hlist. cbv beta iota zeta.
  assert (Hkeys : forall p, is_Some (earlier_remote_files remote entries ∅ !! p) ->
                            String.prefix "/" p = true).
  { intros p. apply earlier_remote_files_keys; [done |].
    intros q. rewrite lookup_empty. by intros [? ?]. }
  assert (Hapart : keys_apart local (earlier_remote_files remote entries ∅)
                     (filepath_Walk sys local w1)).
  { intros e p Hin _ Hdir Hstrip. rewrite Forall_forall in Hlocal.
    destruct (Hlocal e Hin Hdir) as (rel & Hfile & Hrel).
    rewrite Hfile, remove_first_prefix, strip_separator_slash in Hstrip.
    injection Hstrip as <-.
    destruct (earlier_remote_files remote entries ∅ !! rel) eqn:E; [| done].
    rewrite Hkeys in Hrel by eauto. done. }
  cbn [filepath_Walk carried snd].
  destruct (earlier_Walk _ _ _ _ _ _ _) as [[[rf1 [calls1 w2]] [e1 |]] | msg] eqn:Hwalk;
    [| | done];
    apply earlier_Walk_apart in Hwalk as [-> (new & -> & Hnew)]; try done.
  - intros [= <- <- <-]. cbn [app]. eapply Forall_impl; [exact Hnew |]. intros c Hc. by left.
  - intros Hrun. cbn [app] in Hrun.
    assert (Hrem : forall paths calls0 w0,
              Forall (fun p => String.prefix "/" p = true) paths ->
              Forall (fun c => c.1.2 = DiffResultOnlyExistsLocal
                   \/ (c.1.2 = DiffResultOnlyExistsRemote /\ String.prefix "/" c.1.1 = true))
                calls0 ->
              Forall (fun c => c.1.2 = DiffResultOnlyExistsLocal
                   \/ (c.1.2 = DiffResultOnlyExistsRemote /\ String.prefix "/" c.1.1 = true))
                (only_remote (recorded cb) paths (calls0, w0)).1.1).
    { induction paths as [| p rest IH]; intros calls0 w0 Hp Hc; cbn [only_remote]; [done |].
      apply Forall_cons in Hp as [Hp Hrest].
      unfold recorded at 1. cbn [fst snd].
      destruct (cb p DiffResultOnlyExistsRemote w0) as [w3 [e3 |]]; cbn [fst snd].
      - apply Forall_app. split; [done |]. apply Forall_singleton. right. by split.
      - apply IH; [done |]. apply Forall_app. split; [done |].
        apply Forall_singleton. right. by split. }
    injection Hrun as Hrun.
    apply (f_equal (fun r => r.1.1)) in Hrun. cbn [fst snd] in Hrun. rewrite <- Hrun.
    apply Hrem.
    + apply Forall_forall. intros p Hp. apply Hkeys.
      by apply (metadata_range_elem_of range_order).
    + eapply Forall_impl; [exact Hnew |]. intros c Hc. by left.
Qed.

Lemma string_drop_all (s : string) : string_drop (String.length s) s = EmptyString.
Proof. induction s as [| c s IH]; [done | exact IH]. Qed.

Lemma prefix_refl (s : string) : String.prefix s s = true.
Proof.
  induction s as [| c s IH]; [done |]. simpl.
  destruct (Ascii.ascii_dec c c) as [_ | Hne]; [exact IH | by destruct Hne].
Qed.

(** X22. The earlier [WalkDiffs] panics on a local path that is a
    file: the walk visits the path itself, its key is the empty string,
    and the test of its first byte indexes it. *)
Theorem earlier_WalkDiffs_panics_on_a_file {W} (sys : Sys W) (range_order : MetadataRange)
    (Files_ListFolder : ListFolderArg -> W -> W * (list Metadata + ClientError))
    (dropbox_ContentHash : Reader -> result string)
    (cb : WalkDiffsCallback W) local remote (w w1 : W) entries info rest :
  Files_ListFolder (mkListFolderArg remote false true false) w = (w1, inl entries) ->
  filepath_Walk sys local w1 = mkWalkEntry local info None :: rest ->
  IsDir info = false ->
  earlier_WalkDiffs sys range_order Files_ListFolder dropbox_ContentHash local remote cb w
  = Panics "runtime error: index out of range [0] with length 0".
Proof.
  intros Hlist Hwalk Hdir. unfold earlier_WalkDiffs. rewrite Hlist, Hwalk.
  cbn [earlier_Walk]. unfold earlier_walkFn. cbn [we_walkErr we_info we_file].
  rewrite Hdir, remove_first_unfold, prefix_refl, string_drop_all. reflexivity.
Qed.

(** ** The earlier WalkDiffs and Match *)

Lemma recorded_not_Match {W} (cb : WalkDiffsCallback W) f d calls (w : W) :
  d <> DiffResultMatch -> Forall not_Match calls ->
  Forall not_Match (recorded cb f d (calls, w)).1.1.
Proof.
  intros Hd Hc. unfold recorded. cbn [fst snd]. destruct (cb f d w) as [w' err]. cbn [fst].
  apply Forall_app. split; [done |]. by apply Forall_singleton.
Qed.

Lemma earlier_Walk_not_Match {W} (sys : Sys W) (dropbox_ContentHash : Reader -> result string)
    (cb : WalkDiffsCallback W) local entries rf calls (w : W) rf' calls' w' err :
  Forall not_Match calls ->
  earlier_Walk (carried (list Call) sys) dropbox_ContentHash local (recorded cb)
    entries rf (calls, w)
  = Returns (rf', (calls', w'), err) ->
  Forall not_Match calls'.
Proof.
  revert rf calls w. induction entries as [| e rest IH]; intros rf calls w Hc;
    cbn [earlier_Walk].
  - by intros [= <- <- <- <-].
  - unfold earlier_walkFn.
    destruct (we_walkErr e); [by intros [= <- <- <- <-] |].
    destruct (IsDir (we_info e)); [by apply IH |].
    destruct (strip_separator _) as [p | msg]; [| done].
    destruct (rf !! p) as [md |].
    + unfold earlier_HashLocal. cbn [os_Open carried]. unfold carrying. cbn [fst snd].
      destruct (os_Open sys (we_file e) w) as [w1 [f | oerr]]; [| by intros [= <- <- <- <-]].
      destruct (dropbox_ContentHash (f_reader f)) as [hash | herr];
        [| by intros [= <- <- <- <-]].
      destruct (negb (md_ContentHash md =? hash)%string); [| by apply IH].
      pose proof (recorded_not_Match cb p DiffResultMismatch calls w1 ltac:(done) Hc) as H1.
      destruct (recorded cb p DiffResultMismatch (calls, w1)) as [[calls1 w2] [e1 |]];
        cbn [fst snd] in H1; [by intros [= <- <- <- <-] | by apply IH].
    + pose proof (recorded_not_Match cb p DiffResultOnlyExistsLocal calls w ltac:(done) Hc)
        as H1.
      destruct (recorded cb p DiffResultOnlyExistsLocal (calls, w)) as [[calls1 w2] [e1 |]];
        cbn [fst snd] in H1; [by intros [= <- <- <- <-] | by apply IH].
Qed.

Lemma only_remote_not_Match {W} (cb : WalkDiffsCallback W) paths calls (w : W) :
  Forall not_Match calls ->
  Forall not_Match (only_remote (recorded cb) paths (calls, w)).1.1.
Proof.
  revert calls w. induction paths as [| p rest IH]; intros calls w Hc; cbn [only_remote];
    [done |].
  pose proof (recorded_not_Match cb p DiffResultOnlyExistsRemote calls w ltac:(done) Hc) as H1.
  destruct (recorded cb p DiffResultOnlyExistsRemote (calls, w)) as [[calls1 w1] [e1 |]];
    cbn [fst snd] in *; [done | by apply IH].
Qed.

(** X26. The earlier [WalkDiffs] never calls its callback with
    [DiffResultMatch] either: no call of a run has that
    classification. *)
Theorem earlier_WalkDiffs_never_calls_Match {W} (sys : Sys W) (range_order : MetadataRange)
    (Files_ListFolder : ListFolderArg -> W -> W * (list Metadata + ClientError))
    (dropbox_ContentHash : Reader -> result string)
    (cb : WalkDiffsCallback W) local remote (w w' : W) calls err :
  earlier_WalkDiffs (carried (list Call) sys) range_order
    (fun arg => carrying (Files_ListFolder arg)) dropbox_ContentHash
    local remote (recorded cb) ([], w)
  = Returns ((calls, w'), err) ->
  Forall (fun c => c.1.2 <> DiffResultMatch) calls.
Proof.
  unfold earlier_WalkDiffs. cbv beta. unfold carrying. cbn [fst snd].
  assert (Hrest : forall entries (w1 : W),
    match earlier_Walk (carried (list Call) sys) dropbox_ContentHash local (recorded cb)
            (filepath_Walk (carried (list Call) sys) local ([], w1))
            (earlier_remote_files remote entries ∅) ([], w1) with
    | Returns (_, w2, Some err0) => Returns (w2, Some err0)
    | Returns (remoteFiles', w2, None) =>
        Returns (only_remote (recorded cb) (range_order remoteFiles') w2)
    | Panics msg => Panics msg
    end = Returns ((calls, w'), err) -> Forall not_Match calls).
  { intros entries w1.
    destruct (earlier_Walk _ _ _ _ _ _ _) as [[[rf1 [calls1 w2]] [e1 |]] | msg] eqn:Hwalk;
      [| | done]; apply earlier_Walk_not_Match in Hwalk; try constructor.
    - by intros [= <- <- <-].
    - intros Hrun. injection Hrun as Hrun.
      apply (f_equal (fun r => r.1.1)) in Hrun. cbn [fst snd] in Hrun. rewrite <- Hrun.
      by apply only_remote_not_Match. }
  destruct (Files_ListFolder _ w) as [w1 [entries | cerr]]; cbv beta iota zeta.
  - apply Hrest.
  - destruct (ce_StatusCode cerr) as [code |].
    + destruct (negb (code =? 409)).
      * intros [= <- <- <-]. constructor.
      * apply Hrest.
    + intros [= <- <- <-]. constructor.
Qed.

(** ** The two phases of a diff and of a push *)

(** X24. OnlyRemote classifications come only after a whole walk: when
    the walk of the local tree ends with an error, the diff returns
    that error and none of its classifications is an OnlyRemote. *)
Theorem only_remote_after_a_whole_walk {W} (sys : Sys W) ro local remote skip
    (cb : WalkDiffsCallback W) (w w1 w2 : W) entList rf rf' err :
  list_remote sys remote w = (w1, Ok entList) ->
  remote_files sys remote entList ∅ = Ok rf ->
  Walk sys local skip cb (filepath_Walk sys local w1) rf w1 = (rf', w2, Some err) ->
  diff_err sys ro local remote skip cb w = Some err
  /\ Forall (fun em => em.2 <> DiffResultOnlyExistsRemote)
       (emissions (diff_log sys ro local remote skip cb w)).
Proof.
  intros Hlist Hrf Hwalk. unfold diff_err, diff_log, WalkDiffs.
  destruct (list_remote_logged sys remote [] w) as (evs & -> & Hevs).
  rewrite Hlist. cbn [fst snd].
  change (remote_files (logged sys) remote entList ∅)
    with (remote_files sys remote entList ∅). rewrite Hrf.
  pose proof (Walk_forget sys (lift_cb cb) cb
                ltac:(intros f d lw'; unfold forget, lift_cb; by destruct (cb f d lw'.2))
                local skip (filepath_Walk sys local w1) rf (([] ++ evs)%list, w1)) as Hf.
  cbn [snd] in Hf. rewrite Hwalk in Hf.
  change (filepath_Walk (logged sys) local (([] ++ evs)%list, w1))
    with (filepath_Walk sys local w1).
  destruct (Walk (logged sys) local skip (traced (lift_cb cb)) (filepath_Walk sys local w1)
              rf (([] ++ evs)%list, w1)) as [[rf1 [log1 w2']] errw] eqn:Hrun.
  unfold forget3 in Hf. cbn [fst snd] in Hf. injection Hf as -> -> ->.
  cbn [fst snd]. split; [done |].
  apply Walk_spec in Hrun as (tr & Hem & Hok). rewrite Hem. cbn [app]. rewrite Hevs.
  cbn [app]. apply Forall_forall. intros [p d] Hin.
  destruct (wk_class _ _ _ _ _ Hok p d Hin) as [-> | [-> _]]; done.
Qed.

Section Phases.

Context {W : Type}.
Variable sys : Sys W.
Variable Inv : W -> Prop.
Variable cb : WalkDiffsCallback W.

Hypothesis Inv_Open : forall p w, Inv w -> Inv (os_Open sys p w).1.
Hypothesis Inv_cb : forall f d w,
  d = DiffResultOnlyExistsLocal \/ d = DiffResultMismatch -> Inv w -> Inv (cb f d w).1.

Lemma walkFn_walk_phase local skip e rf w :
  Inv w -> Inv (walkFn sys local skip cb e rf w).1.2.
Proof.
  intros H. unfold walkFn.
  destruct (we_walkErr e); [done |].
  destruct (IsDir (we_info e)); [done |].
  destruct (filepath_Rel sys local (we_file e)) as [p | err]; [| done].
  destruct (skipped skip p (we_info e)); [done |].
  destruct (rf !! p) as [md |].
  - destruct (negb (Size md =? uint64 (FileSize (we_info e)))).
    + pose proof (Inv_cb p DiffResultMismatch w ltac:(by right) H) as H'.
      by destruct (cb p DiffResultMismatch w) as [w' [err |]].
    + pose proof (HashLocal_invariant sys Inv Inv_Open (we_file e) w H) as H1.
      destruct (HashLocal sys (we_file e) w) as [w1 [hash | err]]; [| done].
      destruct (negb (ContentHash_ md =? hash)%string); [| done].
      pose proof (Inv_cb p DiffResultMismatch w1 ltac:(by right) H1) as H'.
      by destruct (cb p DiffResultMismatch w1) as [w' err].
  - pose proof (Inv_cb p DiffResultOnlyExistsLocal w ltac:(by left) H) as H'.
    by destruct (cb p DiffResultOnlyExistsLocal w) as [w' err].
Qed.

Lemma Walk_walk_phase local skip entries rf w :
  Inv w -> Inv (Walk sys local skip cb entries rf w).1.2.
Proof.
  revert rf w. induction entries as [| e rest IH]; intros rf w H; cbn [Walk]; [done |].
  pose proof (walkFn_walk_phase local skip e rf w H) as H'.
  destruct (walkFn sys local skip cb e rf w) as [[rf' w'] [err |]]; [done |].
  by apply IH.
Qed.

End Phases.

Lemma only_remote_phase {W} (Inv : W -> Prop) (cb : WalkDiffsCallback W) :
  (forall f w, Inv w -> Inv (cb f DiffResultOnlyExistsRemote w).1) ->
  forall paths w, Inv w -> Inv (only_remote cb paths w).1.
Proof.
  intros Hcb paths. induction paths as [| p rest IH]; intros w H; cbn [only_remote]; [done |].
  pose proof (Hcb p w H) as H'.
  destruct (cb p DiffResultOnlyExistsRemote w) as [w' [err |]]; [done |].
  by apply IH.
Qed.

(** X25. A push uploads before it deletes: its log splits in two
    parts, with no delete request in the first and no request of an
    upload in the second. *)
Theorem push_uploads_before_it_deletes {W} (sys : Sys W) ro fr name (w : W) :
  exists before after,
    push_log sys ro fr name w = (before ++ after)%list
    /\ Forall (fun ev => ~ is_delete ev) before
    /\ Forall (fun ev => ~ is_upload ev) after.
Proof.
  unfold push_log, Upload. cbn [os_Stat logged]. unfold log_res. cbn [fst snd].
  destruct (os_Stat sys _ w) as [w0 [info | err]]; cbn [error_of fst snd app].
  2: { eexists _, []. rewrite app_nil_r. split; [reflexivity |].
       split; [| constructor].
       destruct (decide (err = ErrNotExist)); cbn; repeat constructor; by intros []. }
  cbn [s_WalkDiffs observed DropboxService].
  change (RepoPath (logged sys) fr name) with (RepoPath sys fr name).
  set (folder := RepoPath sys fr name). set (remoteFolder := ("/" ++ name)%string).
  set (cb := traced (Upload_callback (logged sys) (observed (DropboxService (logged sys) ro))
                       folder remoteFolder)).
  set (lw0 := ([EvStat folder None], w0) : Logged W).
  unfold WalkDiffs.
  assert (Hlist : appends (fun ev => ~ is_delete ev) lw0
                    (list_remote (logged sys) remoteFolder lw0).1).
  { apply (list_remote_invariant (logged sys)
             (fun lw' => appends (fun ev => ~ is_delete ev) lw0 lw')).
    - intros arg lw' H. eapply appends_trans; [exact H |]. apply appends_log_res.
      intros e. by intros [].
    - intros p lw' H. eapply appends_trans; [exact H |]. apply appends_log_err.
      intros e. by intros [].
    - apply appends_refl. }
  destruct (list_remote (logged sys) remoteFolder lw0) as [lw1 [entList | lerr]].
  2: { destruct Hlist as (evs & Heq & Hevs). cbn [fst snd] in *.
       exists lw1.1, []. rewrite app_nil_r. split; [done |]. split; [| constructor].
       rewrite Heq. apply Forall_app. split; [| done]. repeat constructor. by intros []. }
  destruct (remote_files (logged sys) remoteFolder entList ∅) as [rf | rerr].
  2: { destruct Hlist as (evs & Heq & Hevs). cbn [fst snd] in *.
       exists lw1.1, []. rewrite app_nil_r. split; [done |]. split; [| constructor].
       rewrite Heq. apply Forall_app. split; [| done]. repeat constructor. by intros []. }
  assert (Hwalk : appends (fun ev => ~ is_delete ev) lw1
            (Walk (logged sys) folder None cb (filepath_Walk (logged sys) folder lw1) rf lw1).1.2).
  { apply (Walk_walk_phase (logged sys) (fun lw' => appends (fun ev => ~ is_delete ev) lw1 lw') cb).
    - intros p lw' H. eapply appends_trans; [exact H |]. apply appends_log_res.
      intros e. by intros [].
    - intros f d lw' Hd H. eapply appends_trans; [exact H |]. unfold cb, traced.
      eapply appends_after_record; cycle 1.
      { unfold Upload_callback.
        destruct Hd as [-> | ->]; cbn [s_Upload observed DropboxService].
        - eapply appends_after_record; cycle 1.
          { eapply appends_mono; [| apply Dropbox_Upload_appends].
            intros ev. destruct ev; cbn; try done; intros _; by intros []. }
          by intros [].
        - eapply appends_after_record; cycle 1.
          { eapply appends_mono; [| apply Dropbox_Upload_appends].
            intros ev. destruct ev; cbn; try done; intros _; by intros []. }
          by intros []. }
      by intros [].
    - apply appends_refl. }
  destruct (Walk (logged sys) folder None cb _ rf lw1) as [[rf' lw2] [werr |]].
  - cbn [fst snd] in *. exists lw2.1, []. rewrite app_nil_r. split; [done |].
    split; [| constructor].
    destruct Hlist as (evs1 & Heq1 & Hevs1). destruct Hwalk as (evs2 & Heq2 & Hevs2).
    rewrite Heq2, Heq1. cbn [fst]. rewrite !Forall_app. repeat split; try done.
    repeat constructor. by intros [].
  - cbn [fst snd] in *.
    assert (Hrem : appends (fun ev => ~ is_upload ev) lw2
                     (only_remote cb (ro rf') lw2).1).
    { apply (only_remote_phase (fun lw' => appends (fun ev => ~ is_upload ev) lw2 lw') cb).
      - intros f lw' H. eapply appends_trans; [exact H |]. unfold cb, traced.
        eapply appends_after_record; cycle 1.
        { unfold Upload_callback. cbn [s_Delete observed DropboxService].
          eapply appends_after_record; cycle 1.
          { eapply appends_mono; [| apply Dropbox_Delete_appends].
            intros ev. destruct ev; cbn; try done; intros _; by intros []. }
          by intros []. }
        by intros [].
      - apply appends_refl. }
    destruct Hrem as (evs3 & Heq3 & Hevs3).
    exists lw2.1, evs3. split; [done |]. split; [| done].
    destruct Hlist as (evs1 & Heq1 & Hevs1). destruct Hwalk as (evs2 & Heq2 & Hevs2).
    rewrite Heq2, Heq1. cbn [fst]. rewrite !Forall_app. repeat split; try done.
    repeat constructor. by intros [].
Qed.

(** ** The errors of the callback that are kept *)

Lemma recorded_kept {W} (cb : WalkDiffsCallback W) f d calls (w : W) :
  lost_on_Mismatch_only calls ->
  let r := recorded cb f d (calls, w) in
  (r.2 = None \/ d = DiffResultMismatch -> lost_on_Mismatch_only r.1.1)
  /\ error_kept r.1.1 r.2.
Proof.
  intros Hq. unfold recorded. cbn [fst snd]. destruct (cb f d w) as [w' [e |]]; cbn [fst snd].
  - split.
    + intros [? | ->]; [done |]. apply Forall_app. split; [done |].
      apply Forall_singleton. by right.
    + right. by exists calls, f, d, e.
  - assert (lost_on_Mismatch_only (calls ++ [(f, d, None)])).
    { apply Forall_app. split; [done |]. apply Forall_singleton. by left. }
    split; [done | by left].
Qed.

Section ErrorsKept.

Context {W : Type}.
Variable sys : Sys W.
Variable cb : WalkDiffsCallback W.

Lemma walkFn_kept local skip e rf calls (w : W) :
  lost_on_Mismatch_only calls ->
  let r := walkFn (carried (list Call) sys) local skip (recorded cb) e rf (calls, w) in
  (r.2 = None -> lost_on_Mismatch_only r.1.2.1) /\ error_kept r.1.2.1 r.2.
Proof.
  intros Hq. unfold walkFn.
  destruct (we_walkErr e); [by split; [| left] |].
  destruct (IsDir (we_info e)); [by split; [| left] |].
  cbn [filepath_Rel carried].
  destruct (filepath_Rel sys local (we_file e)) as [p | err]; [| by split; [| left]].
  destruct (skipped skip p (we_info e)); [by split; [| left] |].
  destruct (rf !! p) as [md |].
  - destruct (negb (Size md =? uint64 (FileSize (we_info e)))).
    + destruct (recorded_kept cb p DiffResultMismatch calls w Hq) as [H1 H2]. cbn zeta in *.
      destruct (recorded cb p DiffResultMismatch (calls, w)) as [[calls1 w1] [e1 |]];
        cbn [fst snd] in *; split; auto.
    + unfold HashLocal. cbn [os_Open carried]. unfold carrying. cbn [fst snd].
      destruct (os_Open sys (we_file e) w) as [w1 [f | oerr]]; [| by split; [| left]].
      destruct (ContentHash (f_reader f)) as [hash | herr]; [| by split; [| left]].
      destruct (negb (ContentHash_ md =? hash)%string); [| by split; [| left]].
      destruct (recorded_kept cb p DiffResultMismatch calls w1 Hq) as [H1 H2]. cbn zeta in *.
      destruct (recorded cb p DiffResultMismatch (calls, w1)) as [[calls1 w2] e1].
      cbn [fst snd] in *. split; [auto |]. left. auto.
  - destruct (recorded_kept cb p DiffResultOnlyExistsLocal calls w Hq) as [H1 H2].
    cbn zeta in *.
    destruct (recorded cb p DiffResultOnlyExistsLocal (calls, w)) as [[calls1 w1] e1].
    cbn [fst snd] in *. split; [| done]. intros ->. auto.
Qed.

Lemma Walk_kept local skip entries rf calls (w : W) :
  lost_on_Mismatch_only calls ->
  let r := Walk (carried (list Call) sys) local skip (recorded cb) entries rf (calls, w) in
  (r.2 = None -> lost_on_Mismatch_only r.1.2.1) /\ error_kept r.1.2.1 r.2.
Proof.
  revert rf calls w. induction entries as [| e rest IH]; intros rf calls w Hq; cbn [Walk].
  - by split; [| left].
  - destruct (walkFn_kept local skip e rf calls w Hq) as [H1 H2]. cbn zeta in *.
    destruct (walkFn (carried (list Call) sys) local skip (recorded cb) e rf (calls, w))
      as [[rf1 [calls1 w1]] [e1 |]]; cbn [fst snd] in *; [by split |].
    apply IH. auto.
Qed.

Lemma only_remote_kept paths calls (w : W) :
  lost_on_Mismatch_only calls ->
  let r := only_remote (recorded cb) paths (calls, w) in
  error_kept r.1.1 r.2.
Proof.
  revert calls w. induction paths as [| p rest IH]; intros calls w Hq; cbn [only_remote].
  - by left.
  - destruct (recorded_kept cb p DiffResultOnlyExistsRemote calls w Hq) as [H1 H2].
    cbn zeta in *.
    destruct (recorded cb p DiffResultOnlyExistsRemote (calls, w)) as [[calls1 w1] [e1 |]];
      cbn [fst snd] in *; [done |].
    apply IH. auto.
Qed.

End ErrorsKept.

(** X28. Outside the Mismatch classifications no error of the callback
    is lost: a call of the callback with an OnlyLocal or an OnlyRemote
    that returns an error is the last call of the run, and the run
    returns that error. *)
Theorem callback_errors_kept_outside_Mismatch {W} (sys : Sys W) ro local remote skip
    (cb : WalkDiffsCallback W) (w : W) :
  let run := WalkDiffs (carried (list Call) sys) ro local remote skip (recorded cb) ([], w) in
  forall front file diff e rest,
    run.1.1 = (front ++ (file, diff, Some e) :: rest)%list ->
    diff <> DiffResultMismatch ->
    rest = [] /\ run.2 = Some e.
Proof.
  intros run.
  assert (Hkept : error_kept run.1.1 run.2).
  { subst run. unfold WalkDiffs.
    assert (Hlist : (list_remote (carried (list Call) sys) remote ([], w)).1.1 = []).
    { apply (list_remote_invariant (carried (list Call) sys) (fun cw => cw.1 = [])).
      - intros arg cw H. cbn [client_ListFolder carried]. unfold carrying.
        by destruct (client_ListFolder sys arg cw.2).
      - intros p cw H. cbn [client_CreateFolderV2 carried]. unfold carrying.
        by destruct (client_CreateFolderV2 sys p cw.2).
      - done. }
    destruct (list_remote (carried (list Call) sys) remote ([], w)) as [[calls0 w1] [entList | lerr]];
      cbn [fst snd] in Hlist; subst calls0; [| left; constructor].
    destruct (remote_files (carried (list Call) sys) remote entList ∅) as [rf | rerr];
      [| left; constructor].
    destruct (Walk_kept sys cb local skip
                (filepath_Walk (carried (list Call) sys) local ([], w1)) rf [] w1
                ltac:(constructor)) as [H1 H2]. cbn zeta in *.
    destruct (Walk (carried (list Call) sys) local skip (recorded cb) _ rf ([], w1))
      as [[rf' [calls1 w2]] [e1 |]]; cbn [fst snd] in *; [done |].
    apply only_remote_kept. auto. }
  intros front file diff e rest Hcalls Hdiff.
  destruct Hkept as [Hall | (front' & file' & diff' & e' & Heq & Hfront & Herr)].
  - rewrite Hcalls in Hall. apply Forall_app in Hall as [_ Hall].
    apply Forall_cons in Hall as [[Hc | Hc] _]; cbn in Hc; [done | by destruct Hdiff].
  - rewrite Hcalls in Heq.
    destruct rest as [| c rest _] using rev_ind.
    + apply app_inj_tail in Heq as [_ Heq]. injection Heq as _ _ ->. by rewrite Herr.
    + rewrite app_comm_cons, app_assoc in Heq. apply app_inj_tail in Heq as [Heq _].
      rewrite <- Heq in Hfront. apply Forall_app in Hfront as [_ Hfront].
      apply Forall_cons in Hfront as [[Hc | Hc] _]; cbn in Hc; [done | by destruct Hdiff].
Qed.

(** ** The further properties at the inputs above *)

Lemma ContentHash_whole_witness :
  fatal_read_error (Some EOF) = None
  /\ ContentHash [(bytes_of_string "12", Some EOF)] = Ok (declared_hash (bytes_of_string "12")).
Proof.
  split; [reflexivity |].
  exact (ContentHash_whole (bytes_of_string "12") (Some EOF) eq_refl).
Defined.

Lemma ContentHash_short_read_witness :
  len (bytes_of_string "1") < hashBlockSize
  /\ ContentHash split_reader = Ok (hex (SHA256.Sum256 (hash_block (bytes_of_string "1") []))).
Proof.
  assert (H : len (bytes_of_string "1") < hashBlockSize) by reflexivity.
  split; [exact H |].
  exact (ContentHash_short_read (bytes_of_string "1") [(bytes_of_string "2", None)] H).
Defined.

Lemma ContentHash_fails_with_read_error_witness :
  ContentHash failing_reader = Fail (Err "read /l/x: input/output error")
  /\ Err "read /l/x: input/output error" <> EOF.
Proof.
  assert (H : ContentHash failing_reader = Fail (Err "read /l/x: input/output error"))
    by reflexivity.
  split; [exact H |].
  exact (proj1 (ContentHash_fails_with_read_error failing_reader _ H)).
Defined.

Lemma ContentHash_is_a_sha256_in_hex_witness :
  ContentHash whole_reader
  = Ok "778cd1ef949ae90bddcffbb0143f043a086641c8d768a83ff0881d7fcdbfab3c"%string
  /\ String.length "778cd1ef949ae90bddcffbb0143f043a086641c8d768a83ff0881d7fcdbfab3c" = 64%nat.
Proof.
  assert (H : ContentHash whole_reader
              = Ok "778cd1ef949ae90bddcffbb0143f043a086641c8d768a83ff0881d7fcdbfab3c"%string)
    by (vm_compute; reflexivity).
  split; [exact H |].
  exact (proj1 (ContentHash_is_a_sha256_in_hex whole_reader _ H)).
Defined.

Lemma Dropbox_Upload_sends_every_byte_witness :
  (os_Open sim "/l/x" w_x12).2 = Ok file_x1
  /\ (Dropbox_Upload (logged sim) "/l/x" "/r/x" ([], w_x12)).2 = None
  /\ exists evs,
       (Dropbox_Upload (logged sim) "/l/x" "/r/x" ([], w_x12)).1.1
       = ([] ++ EvOpen "/l/x" None :: evs)%list
       /\ sent evs = content (f_reader file_x1).
Proof.
  assert (H1 : (os_Open sim "/l/x" w_x12).2 = Ok file_x1) by (vm_compute; reflexivity).
  assert (H2 : (Dropbox_Upload (logged sim) "/l/x" "/r/x" ([], w_x12)).2 = None)
    by (vm_compute; reflexivity).
  split; [exact H1 |]. split; [exact H2 |].
  exact (Dropbox_Upload_sends_every_byte sim "/l/x" "/r/x" [] w_x12 file_x1 H1 H2).
Defined.

Lemma Dropbox_Upload_offsets_agree_witness :
  (os_Open sim "/l/x" w_x12).2 = Ok file_x1
  /\ f_Stat file_x1 = Ok (mkFileInfo false 2)
  /\ FileSize (mkFileInfo false 2) = len (content (f_reader file_x1))
  /\ FileSize (mkFileInfo false 2) < 2 ^ 63
  /\ exists evs,
       (Dropbox_Upload (logged sim) "/l/x" "/r/x" ([], w_x12)).1.1
       = ([] ++ EvOpen "/l/x" None :: evs)%list
       /\ offsets_agree 0 evs = true
       /\ Forall whole_chunks evs.
Proof.
  assert (H1 : (os_Open sim "/l/x" w_x12).2 = Ok file_x1) by (vm_compute; reflexivity).
  assert (H2 : f_Stat file_x1 = Ok (mkFileInfo false 2)) by reflexivity.
  assert (H3 : FileSize (mkFileInfo false 2) = len (content (f_reader file_x1)))
    by reflexivity.
  assert (H4 : FileSize (mkFileInfo false 2) < 2 ^ 63) by reflexivity.
  do 4 (split; [assumption |]).
  exact (Dropbox_Upload_offsets_agree sim "/l/x" "/r/x" [] w_x12 file_x1 _ H1 H2 H3 H4).
Defined.

Lemma sim_Upload_then_Download_witness :
  w_faults w_x12 = 0%nat
  /\ w_local w_x12 !! "/l/x"%string = Some (bytes_of_string "x1")
  /\ can_commit "/r/x" w_x12 = true
  /\ can_create "/l/copy" w_x12 = true
  /\ can_create "/l/x/copy" w_x12 = false
  /\ w_local (Dropbox_Download sim "/l/copy" "/r/x"
                (Dropbox_Upload sim "/l/x" "/r/x" w_x12).1).1 !! "/l/copy"%string
     = Some (bytes_of_string "x1").
Proof.
  split; [reflexivity |]. split; [reflexivity |]. split; [vm_compute; reflexivity |].
  split; [vm_compute; reflexivity |]. split; [vm_compute; reflexivity |].
  exact (proj2 (proj2 (proj2 (sim_Upload_then_Download "/l/x" "/r/x" "/l/copy" w_x12
           (bytes_of_string "x1") eq_refl eq_refl eq_refl eq_refl eq_refl)))).
Defined.

Lemma remote_inventory_is_the_listed_files_witness :
  remote_files sim "/r" listing_x ∅ = Ok (<["x"%string := md_x2]> ∅)
  /\ listed_at sim "/r" listing_x "x" md_x2.
Proof.
  assert (H : remote_files sim "/r" listing_x ∅ = Ok (<["x"%string := md_x2]> ∅))
    by reflexivity.
  split; [exact H |].
  refine (proj1 (remote_inventory_is_the_listed_files sim "/r" listing_x _ H "x"%string)
            md_x2 _).
  apply lookup_insert_eq.
Defined.

Lemma remote_path_not_relative_witness :
  client_ListFolder sim_relative (mkListFolderArg "/r" false true false) w_x12
  = (w_x12, Ok [FileEntry md_relative])
  /\ FileEntry md_relative ∈ [FileEntry md_relative]
  /\ filepath_Rel sim_relative "/r" (PathDisplay md_relative)
     = Fail (Err "Rel: can't make x relative to /r")
  /\ exists e',
       WalkDiffs (logged sim_relative) default_order "/l" "/r" None
         (traced (lift_cb never_fails)) ([], w_x12)
       = (([EvListFolder (mkListFolderArg "/r" false true false) None], w_x12),
          Some (WithMessage e' "failed to make remote filepath relative")).
Proof.
  assert (H1 : client_ListFolder sim_relative (mkListFolderArg "/r" false true false) w_x12
               = (w_x12, Ok [FileEntry md_relative])) by reflexivity.
  assert (H2 : FileEntry md_relative ∈ [FileEntry md_relative]) by (apply list_elem_of_singleton; reflexivity).
  assert (H3 : filepath_Rel sim_relative "/r" (PathDisplay md_relative)
               = Fail (Err "Rel: can't make x relative to /r")) by reflexivity.
  do 3 (split; [assumption |]).
  exact (remote_path_not_relative sim_relative default_order "/l" "/r" None never_fails
           w_x12 w_x12 _ md_relative _ H1 H2 H3).
Defined.

Lemma RepoList_ignores_its_filters_witness :
  RepoList sim readdir_demo compile_demo match_demo repo0 ["al"%string] (world [] [] 0)
  = Ok ["alpha"; "beta"]%string
  /\ RepoList sim readdir_demo compile_demo match_demo repo0 [] (world [] [] 0)
     = Ok ["alpha"; "beta"]%string.
Proof.
  assert (H : RepoList sim readdir_demo compile_demo match_demo repo0 ["al"%string]
                (world [] [] 0)
              = Ok ["alpha"; "beta"]%string) by reflexivity.
  split; [exact H |].
  destruct (RepoList_ignores_its_filters sim readdir_demo compile_demo match_demo repo0
              ["al"%string] (world [] [] 0) _ H) as (finfo & _ & _ & H').
  exact H'.
Defined.

Lemma earlier_WalkDiffs_returns_the_callback_error_witness :
  earlier_WalkDiffs (carried (list Call) sim) metadata_order
    (fun arg => carrying (earlier_listing arg)) no_hash "/l" "/r" (recorded fails_always)
    ([], w_x12)
  = Returns (([("x"%string, DiffResultOnlyExistsLocal, Some (Err "upload failed"))], w_x12),
             Some (Err "upload failed"))
  /\ first_error_returned
       [("x"%string, DiffResultOnlyExistsLocal, Some (Err "upload failed"))]
       (Some (Err "upload failed")).
Proof.
  assert (H : earlier_WalkDiffs (carried (list Call) sim) metadata_order
                (fun arg => carrying (earlier_listing arg)) no_hash "/l" "/r"
                (recorded fails_always) ([], w_x12)
              = Returns (([("x"%string, DiffResultOnlyExistsLocal,
                            Some (Err "upload failed"))], w_x12),
                         Some (Err "upload failed")))
    by (vm_compute; reflexivity).
  split; [exact H |].
  exact (earlier_WalkDiffs_returns_the_callback_error sim metadata_order earlier_listing
           no_hash fails_always "/l" "/r" w_x12 w_x12 _ _ H).
Defined.

Lemma earlier_WalkDiffs_absent_namespace_witness :
  earlier_conflict (mkListFolderArg "/r" false true false) w_x12
  = (w_x12, inr (mkClientError (Err "path/not_found/") (Some 409)))
  /\ earlier_WalkDiffs (carried (list Call) sim) metadata_order
       (fun arg => carrying (earlier_conflict arg)) no_hash "/l" "/r" (recorded never_fails)
       ([], w_x12)
     = Returns (([("x"%string, DiffResultOnlyExistsLocal, None)], w_x12), None)
  /\ Forall only_local [("x"%string, DiffResultOnlyExistsLocal, @None error)].
Proof.
  assert (H1 : earlier_conflict (mkListFolderArg "/r" false true false) w_x12
               = (w_x12, inr (mkClientError (Err "path/not_found/") (Some 409))))
    by reflexivity.
  assert (H2 : earlier_WalkDiffs (carried (list Call) sim) metadata_order
                 (fun arg => carrying (earlier_conflict arg)) no_hash "/l" "/r"
                 (recorded never_fails) ([], w_x12)
               = Returns (([("x"%string, DiffResultOnlyExistsLocal, None)], w_x12), None))
    by (vm_compute; reflexivity).
  do 2 (split; [assumption |]).
  exact (proj2 (earlier_WalkDiffs_absent_namespace sim metadata_order earlier_conflict
                  no_hash never_fails "/l" "/r" w_x12 w_x12 _ H1) eq_refl _ _ _ H2).
Defined.

Lemma earlier_WalkDiffs_compares_nothing_witness :
  earlier_listing (mkListFolderArg "/r" false true false) w_x12
  = (w_x12, inl [mkMetadata "folder" "/r" ""; mkMetadata "file" "/r/x" "0a"])
  /\ earlier_WalkDiffs (carried (list Call) sim) metadata_order
       (fun arg => carrying (earlier_listing arg)) no_hash "/l" "/r" (recorded never_fails)
       ([], w_x12)
     = Returns (([("x"%string, DiffResultOnlyExistsLocal, None);
                  ("/x"%string, DiffResultOnlyExistsRemote, None)], w_x12), None)
  /\ Forall (fun c : Call =>
               c.1.2 = DiffResultOnlyExistsLocal
               \/ (c.1.2 = DiffResultOnlyExistsRemote /\ String.prefix "/" c.1.1 = true))
       [("x"%string, DiffResultOnlyExistsLocal, None);
        ("/x"%string, DiffResultOnlyExistsRemote, None)].
Proof.
  assert (H1 : earlier_listing (mkListFolderArg "/r" false true false) w_x12
               = (w_x12, inl [mkMetadata "folder" "/r" ""; mkMetadata "file" "/r/x" "0a"]))
    by reflexivity.
  assert (H2 : earlier_WalkDiffs (carried (list Call) sim) metadata_order
                 (fun arg => carrying (earlier_listing arg)) no_hash "/l" "/r"
                 (recorded never_fails) ([], w_x12)
               = Returns (([("x"%string, DiffResultOnlyExistsLocal, None);
                            ("/x"%string, DiffResultOnlyExistsRemote, None)], w_x12), None))
    by (vm_compute; reflexivity).
  do 2 (split; [assumption |]).
  refine (earlier_WalkDiffs_compares_nothing sim metadata_order earlier_listing no_hash
            never_fails "/l" "/r" w_x12 w_x12 w_x12 _ _ _ H1 _ _ H2).
  - apply Forall_cons. split; [intros Ht; discriminate Ht |].
    apply Forall_cons. split; [intros _; reflexivity | constructor].
  - apply Forall_forall. intros e He.
    change (filepath_Walk sim "/l" w_x12) with (sim_Walk "/l" w_x12) in He.
    assert (Hw : sim_Walk "/l" w_x12
                 = [mkWalkEntry "/l" (mkFileInfo true 4096) None;
                    mkWalkEntry "/l/x" (mkFileInfo false 2) None]) by (vm_compute; reflexivity).
    rewrite Hw in He.
    apply elem_of_cons in He as [-> | He]; [intros Hdir; discriminate Hdir |].
    apply list_elem_of_singleton in He as ->. intros _. exists "x"%string. by split.
Defined.

Lemma earlier_WalkDiffs_panics_on_a_file_witness :
  earlier_listing (mkListFolderArg "/r" false true false) w_x12
  = (w_x12, inl [mkMetadata "folder" "/r" ""; mkMetadata "file" "/r/x" "0a"])
  /\ filepath_Walk sim_file_root "/l/x" w_x12 = [mkWalkEntry "/l/x" (mkFileInfo false 2) None]
  /\ earlier_WalkDiffs sim_file_root metadata_order earlier_listing no_hash
       "/l/x" "/r" never_fails w_x12
     = Panics "runtime error: index out of range [0] with length 0".
Proof.
  assert (H1 : earlier_listing (mkListFolderArg "/r" false true false) w_x12
               = (w_x12, inl [mkMetadata "folder" "/r" ""; mkMetadata "file" "/r/x" "0a"]))
    by reflexivity.
  assert (H2 : filepath_Walk sim_file_root "/l/x" w_x12
               = [mkWalkEntry "/l/x" (mkFileInfo false 2) None]) by (vm_compute; reflexivity).
  do 2 (split; [assumption |]).
  exact (earlier_WalkDiffs_panics_on_a_file sim_file_root metadata_order earlier_listing
           no_hash never_fails "/l/x" "/r" w_x12 w_x12 _ _ _ H1 H2 eq_refl).
Defined.

Lemma only_remote_after_a_whole_walk_witness :
  list_remote sim "/r" w_mismatch = (w_mismatch, Ok listing_mismatch)
  /\ remote_files sim "/r" listing_mismatch ∅ = Ok inventory_mismatch
  /\ Walk sim "/l" None fails_always (filepath_Walk sim "/l" w_mismatch)
       inventory_mismatch w_mismatch
     = (delete "a"%string inventory_mismatch, w_mismatch, Some (Err "upload failed"))
  /\ diff_err sim default_order "/l" "/r" None fails_always w_mismatch
     = Some (Err "upload failed").
Proof.
  assert (H1 : list_remote sim "/r" w_mismatch = (w_mismatch, Ok listing_mismatch))
    by (vm_compute; reflexivity).
  assert (H2 : remote_files sim "/r" listing_mismatch ∅ = Ok inventory_mismatch)
    by reflexivity.
  assert (H3 : Walk sim "/l" None fails_always (filepath_Walk sim "/l" w_mismatch)
                 inventory_mismatch w_mismatch
               = (delete "a"%string inventory_mismatch, w_mismatch,
                  Some (Err "upload failed")))
    by (vm_compute; reflexivity).
  do 3 (split; [assumption |]).
  exact (proj1 (only_remote_after_a_whole_walk sim default_order "/l" "/r" None fails_always
                  w_mismatch w_mismatch w_mismatch listing_mismatch inventory_mismatch _ _
                  H1 H2 H3)).
Defined.

Lemma earlier_WalkDiffs_never_calls_Match_witness :
  earlier_WalkDiffs (carried (list Call) sim) metadata_order
    (fun arg => carrying (earlier_listing arg)) no_hash "/l" "/r" (recorded never_fails)
    ([], w_x12)
  = Returns (([("x"%string, DiffResultOnlyExistsLocal, None);
               ("/x"%string, DiffResultOnlyExistsRemote, None)], w_x12), None)
  /\ Forall (fun c : Call => c.1.2 <> DiffResultMatch)
       [("x"%string, DiffResultOnlyExistsLocal, None);
        ("/x"%string, DiffResultOnlyExistsRemote, None)].
Proof.
  assert (H : earlier_WalkDiffs (carried (list Call) sim) metadata_order
                (fun arg => carrying (earlier_listing arg)) no_hash "/l" "/r"
                (recorded never_fails) ([], w_x12)
              = Returns (([("x"%string, DiffResultOnlyExistsLocal, None);
                           ("/x"%string, DiffResultOnlyExistsRemote, None)], w_x12), None))
    by (vm_compute; reflexivity).
  split; [exact H |].
  exact (earlier_WalkDiffs_never_calls_Match sim metadata_order earlier_listing no_hash
           never_fails "/l" "/r" w_x12 w_x12 _ _ H).
Defined.

Lemma callback_errors_kept_outside_Mismatch_witness :
  (WalkDiffs (carried (list Call) sim) default_order "/l" "/r" None (recorded fails_always)
     ([], w_mismatch)).1.1
  = ([("a"%string, DiffResultMismatch, Some (Err "upload failed"))]
     ++ ("b"%string, DiffResultOnlyExistsLocal, Some (Err "upload failed")) :: [])%list
  /\ DiffResultOnlyExistsLocal <> DiffResultMismatch
  /\ (WalkDiffs (carried (list Call) sim) default_order "/l" "/r" None (recorded fails_always)
        ([], w_mismatch)).2
     = Some (Err "upload failed").
Proof.
  assert (H1 : (WalkDiffs (carried (list Call) sim) default_order "/l" "/r" None
                  (recorded fails_always) ([], w_mismatch)).1.1
               = ([("a"%string, DiffResultMismatch, Some (Err "upload failed"))]
                  ++ ("b"%string, DiffResultOnlyExistsLocal, Some (Err "upload failed"))
                     :: [])%list)
    by (vm_compute; reflexivity).
  assert (H2 : DiffResultOnlyExistsLocal <> DiffResultMismatch) by discriminate.
  do 2 (split; [assumption |]).
  exact (proj2 (callback_errors_kept_outside_Mismatch sim default_order "/l" "/r" None
                  fails_always w_mismatch _ _ _ _ _ H1 H2)).
Defined.

Lemma walkFn_hash_mismatch_witness :
  local_path sim "/l" None e_x = Some "x"%string
  /\ ({["x"%string := md_x2]} : gmap string FileMetadata) !! "x"%string = Some md_x2
  /\ Size md_x2 = uint64 (FileSize (we_info e_x))
  /\ HashLocal sim (we_file e_x) w_x12 = (w_x12, Ok (declared_hash (bytes_of_string "x1")))
  /\ declared_hash (bytes_of_string "x1") <> ContentHash_ md_x2
  /\ walkFn sim "/l" None fails_always e_x {["x"%string := md_x2]} w_x12
     = (delete "x"%string {["x"%string := md_x2]},
        (fails_always "x" DiffResultMismatch w_x12).1, None).
Proof.
  assert (H1 : local_path sim "/l" None e_x = Some "x"%string) by reflexivity.
  assert (H2 : ({["x"%string := md_x2]} : gmap string FileMetadata) !! "x"%string
               = Some md_x2) by reflexivity.
  assert (H3 : Size md_x2 = uint64 (FileSize (we_info e_x))) by reflexivity.
  assert (H4 : HashLocal sim (we_file e_x) w_x12
               = (w_x12, Ok (declared_hash (bytes_of_string "x1"))))
    by (vm_compute; reflexivity).
  assert (H5 : declared_hash (bytes_of_string "x1") <> ContentHash_ md_x2)
    by (vm_compute; discriminate).
  do 5 (split; [assumption |]).
  exact (walkFn_hash_mismatch sim "/l" None fails_always e_x _ w_x12 w_x12 "x"%string md_x2 _
           H1 H2 H3 H4 H5).
Defined.

Lemma Restic_Backup_runs_in_order_witness :
  let run := Restic_Backup (running host_demo) "/p" ["a"; "b"; "c"]%string ([], []) in
  exec_LookPath host_demo "restic" [] = Ok "/usr/bin/restic"%string
  /\ run.2 = Some (Err "exit status 1")
  /\ run.1.1 = [(backup_command "/usr/bin/restic" "a" "/p", None);
               (backup_command "/usr/bin/restic" "b" "/p", Some (Err "exit status 1"))]
  /\ exists n r, ["a"; "b"; "c"]%string !! n = Some r
       /\ run.1.1
          = (backed_up "/usr/bin/restic" "/p" ["a"; "b"; "c"]%string n
             ++ [(backup_command "/usr/bin/restic" r "/p", Some (Err "exit status 1"))])%list.
Proof.
  cbv zeta. split; [reflexivity |]. split; [reflexivity |]. split; [reflexivity |].
  refine (proj2 (proj2 (proj2 (Restic_Backup_runs_in_order host_demo "/p"
            ["a"; "b"; "c"]%string [])) "/usr/bin/restic"%string _ _) _ _).
  - discriminate.
  - reflexivity.
  - reflexivity.
Defined.
